(** * Identity reconciliation: a shallow embedding of [main.py]

    The service keeps one SQLite table, [Contact], and exposes one operation,
    [identify].  The table is modelled as the list of its rows in rowid order,
    every SQL statement of the source as a function on that list, and the
    Python control flow around the statements as a state-and-exception monad.
    Two facts the source takes from the Python runtime and does not define
    itself, the wall clock and the order in which a [set] is enumerated, are
    collected in the class [Runtime].

    What the model fixes beyond the text of the source:
    - a timestamp is an integer, compared as SQLite compares the text
      [datetime.now()] is stored as;
    - [ORDER BY createdAt ASC] keeps rows of equal [createdAt] in rowid
      order;
    - an inserted row gets the rowid AUTOINCREMENT assigns: one more than the
      largest rowid the table has held;
    - an exception leaves the store as the statements committed before it
      have made it. *)

From Stdlib Require Import ZArith List String Bool Lia Permutation Sorted.
Import ListNotations.
Local Open Scope string_scope.
Local Open Scope list_scope.
Local Open Scope Z_scope.

(** ** Data model *)

(** [linkPrecedence TEXT CHECK(linkPrecedence IN ('primary', 'secondary'))] *)
Inductive Precedence : Set := primary | secondary.

Definition Precedence_eqb (a b : Precedence) : bool :=
  match a, b with
  | primary, primary | secondary, secondary => true
  | _, _ => false
  end.

(** One row of [Contact].  A nullable column is an [option]; the two
    timestamps that the code always fills are plain integers (a point in
    time, ordered like the text SQLite stores). *)
Record Contact : Set := mkContact {
  id : Z;
  phoneNumber : option string;
  email : option string;
  linkedId : option Z;
  linkPrecedence : Precedence;
  createdAt : Z;
  updatedAt : Z;
  deletedAt : option Z
}.

(** [class ContactResponse(BaseModel)] *)
Record ContactResponse : Set := mkResponse {
  primaryContatctId : Z;
  emails : list string;
  phoneNumbers : list string;
  secondaryContactIds : list Z
}.

(** The statements the service sends to the store, as they are logged. *)
Inductive Access : Set :=
| SelectByEmailOrPhone (e p : option string)
| SelectLinked (pid : option Z)
| SelectById (pid : option Z)
| Insert (new_id : Z)
| Update (contact_id : Z).

Definition is_write (a : Access) : bool :=
  match a with
  | Insert _ | Update _ => true
  | _ => false
  end.

(** The store and what surrounds it: the rows of [Contact] in rowid order,
    the AUTOINCREMENT counter, the log of statements executed so far, and the
    number of times [datetime.now()] has been read. *)
Record World : Type := mkWorld {
  rows : list Contact;
  seq : Z;
  trace : list Access;
  ticks : nat
}.

(** The exceptions that can leave [identify]. *)
Inductive Error : Set :=
| HTTPException (status_code : Z)
| TypeError          (* [dict(None)] after a [fetchone()] that found no row *)
| ValidationError    (* [ContactResponse(primaryContatctId=None, ...)] *)
| ValueError         (* [min] of an empty list *)
| IndexError.        (* [list(...)[0]] of an empty set *)

(** ** The runtime *)

(** [clock n] is what the [n]-th call of [datetime.now()] returns.
    [set_iter l] is the order in which Python enumerates the set obtained by
    adding the distinct elements of [l] in that order. *)
Class Runtime : Type := mkRuntime {
  clock : nat -> Z;
  set_iter : list (option Z) -> list (option Z)
}.

(** All the language promises about the enumeration of a set: every
    element comes, and comes once. *)
Definition enumerates_each_once (RT : Runtime) : Prop :=
  forall l, Permutation (set_iter l) l.

(** ** State and exceptions *)

Definition M (A : Type) : Type := World -> (Error + A) * World.

Definition ret {A} (a : A) : M A := fun w => (inr a, w).

Definition raise {A} (e : Error) : M A := fun w => (inl e, w).

Definition bind {A B} (m : M A) (k : A -> M B) : M B :=
  fun w =>
    match m w with
    | (inl e, w') => (inl e, w')
    | (inr a, w') => k a w'
    end.

Notation "x <- m ;; k" := (bind m (fun x => k))
  (at level 61, m at next level, right associativity).
Notation "m ;;; k" := (bind m (fun _ => k))
  (at level 61, right associativity).

(** What [m] returns or raises from [w], and the world it leaves. *)
Definition result {A} (m : M A) (w : World) : Error + A := fst (m w).
Definition exec {A} (m : M A) (w : World) : World := snd (m w).

Definition log (a : Access) : M unit :=
  fun w => (inr tt, mkWorld (rows w) (seq w) (trace w ++ [a]) (ticks w)).

Definition get_rows : M (list Contact) := fun w => (inr (rows w), w).

(** [datetime.now()] *)
Definition now `{Runtime} : M Z :=
  fun w => (inr (clock (ticks w)),
            mkWorld (rows w) (seq w) (trace w) (S (ticks w))).

(** [for x in xs: body(x)] *)
Fixpoint for_each {A} (xs : list A) (body : A -> M unit) : M unit :=
  match xs with
  | [] => ret tt
  | x :: xs' => body x ;;; for_each xs' body
  end.

(** ** Python and SQL primitives *)

(** Truth value of an [Optional[str]]: [None] and the empty string are
    false. *)
Definition truthy (s : option string) : bool :=
  match s with
  | None => false
  | Some s => negb (String.eqb s EmptyString)
  end.

(** Truth value of an [Optional[int]]: [None] and [0] are false. *)
Definition truthy_int (z : option Z) : bool :=
  match z with
  | None => false
  | Some z => negb (z =? 0)
  end.

(** Python [==] on two optional strings ([None == None] holds). *)
Definition py_eq_str (a b : option string) : bool :=
  match a, b with
  | None, None => true
  | Some x, Some y => String.eqb x y
  | _, _ => false
  end.

(** SQL [column = ?]: never true when either side is NULL. *)
Definition sql_eq_str (col param : option string) : bool :=
  match col, param with
  | Some x, Some y => String.eqb x y
  | _, _ => false
  end.

Definition sql_eq_int (col param : option Z) : bool :=
  match col, param with
  | Some x, Some y => x =? y
  | _, _ => false
  end.

(** [deletedAt IS NULL] *)
Definition active (c : Contact) : bool :=
  match deletedAt c with
  | None => true
  | Some _ => false
  end.

(** [ORDER BY key ASC] over a scan in rowid order: a stable insertion sort. *)
Fixpoint insert_by {A} (key : A -> Z) (x : A) (l : list A) : list A :=
  match l with
  | [] => [x]
  | y :: l' => if key y <=? key x then y :: insert_by key x l' else x :: y :: l'
  end.

Definition order_by {A} (key : A -> Z) (l : list A) : list A :=
  fold_left (fun acc x => insert_by key x acc) l [].

(** [set.add]: a set is kept as the list of its elements in the order in
    which they were first added. *)
Definition opt_Z_eqb (a b : option Z) : bool :=
  match a, b with
  | None, None => true
  | Some x, Some y => x =? y
  | _, _ => false
  end.

Definition set_add (x : option Z) (s : list (option Z)) : list (option Z) :=
  if existsb (opt_Z_eqb x) s then s else s ++ [x].

Definition set_add_Z (x : Z) (s : list Z) : list Z :=
  if existsb (Z.eqb x) s then s else s ++ [x].

(** [min(xs, key=...)] on a non-empty list: the first element whose key is
    minimal; a later element replaces the current best only when its key is
    strictly smaller. *)
Definition py_min {A} (key : A -> Z) (x : A) (xs : list A) : A :=
  fold_left (fun best y => if key y <? key best then y else best) xs x.

(** [x not in xs] guarded appends of [consolidate_contacts]. *)
Definition append_new (v : option string) (acc : list string) : list string :=
  match v with
  | Some s =>
      if truthy v && negb (existsb (String.eqb s) acc) then acc ++ [s] else acc
  | None => acc
  end.

(** ** The query layer and the two writes *)

Section Service.

Context `{RT : Runtime}.

Definition matches_email_or_phone (email_ phone_number : option string)
    (c : Contact) : bool :=
  active c &&
  (sql_eq_str (email c) email_ || sql_eq_str (phoneNumber c) phone_number).

(** [SELECT * FROM Contact WHERE deletedAt IS NULL
     AND (email = ? OR phoneNumber = ?) ORDER BY createdAt ASC] *)
Definition select_matches (email_ phone_number : option string)
    (table : list Contact) : list Contact :=
  order_by createdAt (filter (matches_email_or_phone email_ phone_number) table).

Definition get_contacts_by_email_or_phone (email_ phone_number : option string)
  : M (list Contact) :=
  log (SelectByEmailOrPhone email_ phone_number) ;;;
  table <- get_rows ;;
  ret (select_matches email_ phone_number table).

Definition linked_to (primary_id : option Z) (c : Contact) : bool :=
  active c &&
  (sql_eq_int (Some (id c)) primary_id || sql_eq_int (linkedId c) primary_id).

(** [SELECT * FROM Contact WHERE deletedAt IS NULL
     AND (id = ? OR linkedId = ?) ORDER BY createdAt ASC] *)
Definition group_of (primary_id : option Z) (table : list Contact)
  : list Contact :=
  order_by createdAt (filter (linked_to primary_id) table).

Definition get_all_linked_contacts (primary_id : option Z) : M (list Contact) :=
  log (SelectLinked primary_id) ;;;
  table <- get_rows ;;
  ret (group_of primary_id table).

(** The largest rowid in the table ([0] for an empty table). *)
Definition max_rowid (table : list Contact) : Z :=
  fold_right (fun c m => Z.max (id c) m) 0 table.

(** [INSERT INTO Contact (phoneNumber, email, linkedId, linkPrecedence,
     createdAt, updatedAt) VALUES (?, ?, ?, ?, ?, ?)]; the id is the one
    AUTOINCREMENT assigns, one more than every rowid used so far. *)
Definition create_contact (email_ phone_number : option string)
    (linked_id : option Z) (link_precedence : Precedence) : M Z :=
  t <- now ;;
  fun w =>
    let new_id := Z.max (seq w) (max_rowid (rows w)) + 1 in
    (inr new_id,
     mkWorld
       (rows w ++
        [mkContact new_id phone_number email_ linked_id link_precedence t t None])
       new_id (trace w ++ [Insert new_id]) (ticks w)).

(** The row [c] after [SET linkedId = ?, linkPrecedence = 'secondary',
    updatedAt = ?]. *)
Definition demoted (primary_id t : Z) (c : Contact) : Contact :=
  mkContact (id c) (phoneNumber c) (email c) (Some primary_id) secondary
            (createdAt c) t (deletedAt c).

(** [UPDATE Contact SET ... WHERE id = ?] *)
Definition update_contact_to_secondary (contact_id primary_id : Z) : M unit :=
  t <- now ;;
  fun w =>
    (inr tt,
     mkWorld
       (map (fun c => if id c =? contact_id then demoted primary_id t c else c)
            (rows w))
       (seq w) (trace w ++ [Update contact_id]) (ticks w)).

(** ** The view assembler *)

(** The first loop of [consolidate_contacts]: the last row whose id is
    [primary_id], and the other rows in their order. *)
Definition split_primary (primary_id : option Z) (all_contacts : list Contact)
  : option Contact * list Contact :=
  fold_left
    (fun acc contact =>
       if opt_Z_eqb (Some (id contact)) primary_id
       then (Some contact, snd acc)
       else (fst acc, snd acc ++ [contact]))
    all_contacts (None, []).

(** One round of the collecting loops: the email and then the phone number
    of [contact], each appended when it is truthy and not listed yet. *)
Definition collect_info (acc : list string * list string) (contact : Contact)
  : list string * list string :=
  (append_new (email contact) (fst acc),
   append_new (phoneNumber contact) (snd acc)).

(** The three lists of the response, from the rows of the expanded group. *)
Definition view (primary_id : option Z) (all_contacts : list Contact)
  : list string * list string * list Z :=
  let (primary_contact, secondary_contacts) :=
    split_primary primary_id all_contacts in
  let from_primary :=
    match primary_contact with
    | Some pc => collect_info ([], []) pc
    | None => ([], [])
    end in
  (fold_left collect_info secondary_contacts from_primary,
   map id secondary_contacts).

Definition consolidate_contacts (primary_id : option Z) : M ContactResponse :=
  all_contacts <- get_all_linked_contacts primary_id ;;
  let '(emails_, phone_numbers, secondary_ids) := view primary_id all_contacts in
  match primary_id with
  | Some pid => ret (mkResponse pid emails_ phone_numbers secondary_ids)
  | None => raise ValidationError
  end.

(** The response for the root [pid] over a given table. *)
Definition project (pid : Z) (table : list Contact) : ContactResponse :=
  let v := view (Some pid) (group_of (Some pid) table) in
  mkResponse pid (fst (fst v)) (snd (fst v)) (snd v).

(** ** The reconciliation engine *)

(** The id under which a matched row is filed in [primary_ids]. *)
Definition root_of (contact : Contact) : option Z :=
  match linkPrecedence contact with
  | primary => Some (id contact)
  | secondary => linkedId contact
  end.

(** [primary_ids] once the loop over [existing_contacts] is through. *)
Definition roots (existing_contacts : list Contact) : list (option Z) :=
  fold_left (fun s contact => set_add (root_of contact) s) existing_contacts [].

(** The loop over [existing_contacts] that fills [all_related_contacts] and
    [primary_ids] (in this order in the accumulator). *)
Fixpoint collect_related (existing_contacts : list Contact)
    (acc : list Z * list (option Z)) : M (list Z * list (option Z)) :=
  match existing_contacts with
  | [] => ret acc
  | contact :: rest =>
      related <- get_all_linked_contacts (root_of contact) ;;
      collect_related rest
        (fold_left (fun s rel_contact => set_add_Z (id rel_contact) s)
                   related (fst acc),
         set_add (root_of contact) (snd acc))
  end.

(** [SELECT * FROM Contact WHERE id = ?] followed by
    [dict(cursor.fetchone())]. *)
Definition lookup (pid : option Z) (table : list Contact) : option Contact :=
  find (fun c => sql_eq_int (Some (id c)) pid) table.

Definition fetch_by_id (pid : option Z) : M Contact :=
  log (SelectById pid) ;;;
  table <- get_rows ;;
  match lookup pid table with
  | Some c => ret c
  | None => raise TypeError
  end.

Fixpoint fetch_all (pids : list (option Z)) : M (list Contact) :=
  match pids with
  | [] => ret []
  | pid :: rest =>
      c <- fetch_by_id pid ;;
      cs <- fetch_all rest ;;
      ret (c :: cs)
  end.

(** The oldest of the fetched roots, [min(primary_contacts, key=createdAt)]. *)
Definition oldest_of (primary_contacts : list Contact) : option Contact :=
  match primary_contacts with
  | [] => None
  | p :: ps => Some (py_min createdAt p ps)
  end.

(** The body of the demotion loop, for the id [s] of [oldest_primary]. *)
Definition demote_unless (s : Z) (p : Contact) : M unit :=
  if negb (id p =? s) then update_contact_to_secondary (id p) s else ret tt.

(** The branch [len(primary_ids) > 1]. *)
Definition merge_primaries (primary_ids : list (option Z)) : M (option Z) :=
  primary_contacts <- fetch_all (set_iter primary_ids) ;;
  match oldest_of primary_contacts with
  | None => raise ValueError
  | Some oldest_primary =>
      for_each primary_contacts (demote_unless (id oldest_primary)) ;;;
      ret (Some (id oldest_primary))
  end.

(** From the related-contacts loop to the choice of [primary_id]. *)
Definition resolve_primary (existing_contacts : list Contact) : M (option Z) :=
  sets <- collect_related existing_contacts ([], []) ;;
  let primary_ids := snd sets in
  if (1 <? List.length primary_ids)%nat
  then merge_primaries primary_ids
  else match set_iter primary_ids with
       | pid :: _ => ret pid
       | [] => raise IndexError
       end.

Definition has_new_info (email_ phone_number : option string)
    (all_contacts : list Contact) : bool :=
  let existing_emails := filter truthy (map email all_contacts) in
  let existing_phones := filter truthy (map phoneNumber all_contacts) in
  let new_email :=
    truthy email_ && negb (existsb (py_eq_str email_) existing_emails) in
  let new_phone :=
    truthy phone_number &&
    negb (existsb (py_eq_str phone_number) existing_phones) in
  new_email || new_phone.

(** The new-information check and the creation it may lead to. *)
Definition add_new_information (email_ phone_number : option string)
    (primary_id : option Z) : M unit :=
  all_contacts <- get_all_linked_contacts primary_id ;;
  if has_new_info email_ phone_number all_contacts
  then create_contact email_ phone_number primary_id secondary ;;; ret tt
  else ret tt.

Definition is_exact (email_ phone_number : option string) (c : Contact) : bool :=
  py_eq_str (email c) email_ && py_eq_str (phoneNumber c) phone_number.

(** [exact_match['linkedId'] if exact_match['linkedId'] else exact_match['id']] *)
Definition exact_root (exact_match : Contact) : Z :=
  match linkedId exact_match with
  | Some l => if truthy_int (Some l) then l else id exact_match
  | None => id exact_match
  end.

Definition identify (email_ phone_number : option string) : M ContactResponse :=
  if negb (truthy email_) && negb (truthy phone_number)
  then raise (HTTPException 400)
  else
    existing_contacts <- get_contacts_by_email_or_phone email_ phone_number ;;
    match existing_contacts with
    | [] =>
        new_contact_id <- create_contact email_ phone_number None primary ;;
        consolidate_contacts (Some new_contact_id)
    | _ :: _ =>
        match find (is_exact email_ phone_number) existing_contacts with
        | Some exact_match => consolidate_contacts (Some (exact_root exact_match))
        | None =>
            primary_id <- resolve_primary existing_contacts ;;
            add_new_information email_ phone_number primary_id ;;;
            consolidate_contacts primary_id
        end
    end.

End Service.

(** ** Vocabulary of the statements *)

(** The boundary check lets a request through when either field is truthy. *)
Definition valid_request (email_ phone_number : option string) : bool :=
  truthy email_ || truthy phone_number.

(** [FOREIGN KEY (linkedId) REFERENCES Contact (id)] *)
Definition foreign_key_ok (table : list Contact) : bool :=
  forallb
    (fun c =>
       match linkedId c with
       | None => true
       | Some l => existsb (fun c' => id c' =? l) table
       end)
    table.

(** [w] after the statements [l], none of which writes. *)
Definition logged (w : World) (l : list Access) : World :=
  mkWorld (rows w) (seq w) (trace w ++ l) (ticks w).

(** The writes executed so far. *)
Definition writes (w : World) : list Access := filter is_write (trace w).

(** Ascending order of a key. *)
Definition key_le {A} (key : A -> Z) (a b : A) : Prop := key a <= key b.

(** The entries a truthy value contributes to an empty list. *)
Definition present_list (v : option string) : list string :=
  match v with
  | Some s => if truthy v then [s] else []
  | None => []
  end.

(** The truthy values of a column, in the order of the rows. *)
Definition present_values (l : list (option string)) : list string :=
  flat_map present_list l.

(** Each value once, at its first occurrence. *)
Fixpoint first_occurrences (l : list string) : list string :=
  match l with
  | [] => []
  | x :: l' => x :: filter (fun y => negb (String.eqb x y)) (first_occurrences l')
  end.

(** The rows of a group that are the root [p], and those that are not. *)
Definition the_primary (p : Z) (group : list Contact) : list Contact :=
  filter (fun c => id c =? p) group.

Definition the_secondaries (p : Z) (group : list Contact) : list Contact :=
  filter (fun c => negb (id c =? p)) group.

(** The pair of a request brings a value that no row of [group] holds: its
    email is truthy and is the email of no row, or its phone number is truthy
    and is the phone number of no row. *)
Definition new_information (e p : option string) (group : list Contact)
  : Prop :=
  (truthy e = true /\ ~ In e (map email group)) \/
  (truthy p = true /\ ~ In p (map phoneNumber group)).

(** The row [c] of [table] is in the group of [P]: it is not soft-deleted
    and its id or its [linkedId] is [P].  No row is in the group of NULL. *)
Definition in_group (P : option Z) (table : list Contact) (c : Contact)
  : Prop :=
  In c table /\ deletedAt c = None /\
  exists q, P = Some q /\ (id c = q \/ linkedId c = Some q).

(** The pair of a request brings a value that no row of the group of [P]
    in [table] holds. *)
Definition new_for_group (e p : option string) (P : option Z)
    (table : list Contact) : Prop :=
  (truthy e = true /\ forall c, in_group P table c -> email c <> e) \/
  (truthy p = true /\ forall c, in_group P table c -> phoneNumber c <> p).

(** [r] is a root id of the request: some row of [table] that is not
    soft-deleted has the email or the phone number of the request and is a
    primary of id [r] or a secondary whose [linkedId] is [r]. *)
Definition root_of_match (e p : option string) (table : list Contact)
    (r : option Z) : Prop :=
  exists c, In c table /\ deletedAt c = None /\
    ((exists s, e = Some s /\ email c = Some s) \/
     (exists s, p = Some s /\ phoneNumber c = Some s)) /\
    ((linkPrecedence c = primary /\ r = Some (id c)) \/
     (linkPrecedence c = secondary /\ r = linkedId c)).

(** Every id of [rs] is the id of a row of [table]. *)
Definition roots_exist (rs : list (option Z)) (table : list Contact) : bool :=
  forallb
    (fun r => match lookup r table with Some _ => true | None => false end) rs.

Section Vocabulary.

Context `{RT : Runtime}.

(** The row [create_contact] inserts in [w]. *)
Definition new_row (e p : option string) (linked_id : option Z)
    (prec : Precedence) (w : World) : Contact :=
  mkContact (Z.max (seq w) (max_rowid (rows w)) + 1) p e linked_id prec
            (clock (ticks w)) (clock (ticks w)) None.

End Vocabulary.

(** ** Two runtimes *)

(** A clock that advances by one unit at every reading. *)
Definition tick_clock (n : nat) : Z := 1000 + Z.of_nat n.

(** Sets enumerated in insertion order. *)
Definition insertion_runtime : Runtime := mkRuntime tick_clock (fun l => l).

(** Sets enumerated the way CPython enumerates a fresh set of a few small
    integers: by hash-table slot.  An integer is its own hash and a fresh
    set has eight slots, so [i] sits in slot [i mod 8]; [list({1, 8})] is
    [[8, 1]] whichever of the two was added first. *)
Definition slot (x : option Z) : Z :=
  match x with
  | Some i => i mod 8
  | None => 0
  end.

Definition slot_runtime : Runtime := mkRuntime tick_clock (order_by slot).

Definition empty_world : World := mkWorld [] 0 [] 0.

(** ** Stores reached by the service *)

Module Scenario.

Definition run (e p : string) (w : World) : World :=
  exec (identify (RT := insertion_runtime) (Some e) (Some p)) w.

(** One contact. *)
Definition one : World := Eval vm_compute in run "a@x.com" "111" empty_world.

(** A second phone number for the same email: a primary and a secondary. *)
Definition two : World := Eval vm_compute in run "a@x.com" "222" one.

(** An unrelated contact: two groups. *)
Definition three : World := Eval vm_compute in run "b@y.com" "333" two.

(** The request that links the two groups. *)
Definition four : World := Eval vm_compute in run "a@x.com" "333" three.

(** Another history: an old contact and a younger group of two. *)
Definition old_contact : World :=
  Eval vm_compute in run "b@y.com" "333" empty_world.
Definition young_primary : World :=
  Eval vm_compute in run "a@x.com" "111" old_contact.
Definition young_group : World :=
  Eval vm_compute in run "a@x.com" "222" young_primary.
End Scenario.

(** Two primaries created at the same instant, with rowids 1 and 8. *)
Module Tie.

Definition first_row : Contact :=
  mkContact 1 (Some "111") (Some "a@x.com") None primary 1000 1000 None.

Definition eighth_row : Contact :=
  mkContact 8 (Some "888") (Some "h@x.com") None primary 1000 1000 None.

Definition world : World := mkWorld [first_row; eighth_row] 8 [] 0.

End Tie.

(** A group whose primary a collaborator has soft-deleted, next to an
    unrelated primary; [world_late] differs from [world] in the [createdAt]
    of the soft-deleted row only. *)
Module SoftDeleted.

Definition deleted_row (created : Z) : Contact :=
  mkContact 1 (Some "111") (Some "a@x.com") None primary created created
            (Some 50).

Definition member : Contact :=
  mkContact 2 (Some "222") (Some "a@x.com") (Some 1) secondary 2 2 None.

Definition other : Contact :=
  mkContact 3 (Some "333") (Some "b@y.com") None primary 3 3 None.

Definition world : World := mkWorld [deleted_row 1; member; other] 3 [] 0.

Definition world_late : World := mkWorld [deleted_row 10; member; other] 3 [] 0.

End SoftDeleted.

(** A secondary whose [linkedId] names no row. *)
Module Dangling.

Definition orphan : Contact :=
  mkContact 1 (Some "111") (Some "a@x.com") (Some 99) secondary 5 5 None.

Definition world : World := mkWorld [orphan] 1 [] 0.

(** The same next to an unrelated primary. *)
Definition stranger : Contact :=
  mkContact 2 (Some "222") (Some "b@y.com") None primary 6 6 None.

Definition world_with_stranger : World := mkWorld [orphan; stranger] 2 [] 0.

End Dangling.

(** A row that a collaborator has linked to the rowid the next insertion
    gets. *)
Module Forward.

Definition early : Contact :=
  mkContact 1 (Some "999") (Some "z@z.com") (Some 2) secondary 5 5 None.

Definition world : World := mkWorld [early] 1 [] 0.

End Forward.

(** A secondary without [linkedId]. *)
Module Unlinked.

Definition loose : Contact :=
  mkContact 1 (Some "111") (Some "a@x.com") None secondary 5 5 None.

Definition world : World := mkWorld [loose] 1 [] 0.

End Unlinked.

(** ** The flatten invariant *)

(** No [linkedId] names a row whose precedence is secondary. *)
Definition links_to_primaries (table : list Contact) : bool :=
  forallb
    (fun c =>
       match linkedId c with
       | None => true
       | Some l =>
           match lookup (Some l) table with
           | Some target => Precedence_eqb (linkPrecedence target) primary
           | None => true
           end
       end)
    table.

(** ** The functions beside [identify] *)

(** [find_primary_contact_id]: the id of the first primary of the list, or
    else of the first of its oldest contacts; [min] raises on an empty
    list. *)
Definition find_primary_contact_id (contacts : list Contact) : Error + Z :=
  match find (fun c => Precedence_eqb (linkPrecedence c) primary) contacts with
  | Some contact => inr (id contact)
  | None =>
      match oldest_of contacts with
      | Some oldest => inr (id oldest)
      | None => inl ValueError
      end
  end.

(** [SELECT * FROM Contact WHERE deletedAt IS NULL ORDER BY createdAt ASC] *)
Definition select_active (table : list Contact) : list Contact :=
  order_by createdAt (filter active table).

(** The debug endpoint [get_all_contacts]; the log of [World] keeps the
    statements of the reconciliation engine, and this read is not one. *)
Definition get_all_contacts : M (list Contact) :=
  table <- get_rows ;;
  ret (select_active table).

(** ** Consistency of a store *)

(** [id INTEGER PRIMARY KEY] *)
Definition primary_key_ok (table : list Contact) : Prop :=
  NoDup (map id table).

(** A primary has no [linkedId]; the [linkedId] of a secondary is the id of
    a row. *)
Definition well_linked (table : list Contact) : Prop :=
  forall c, In c table ->
    match linkPrecedence c with
    | primary => linkedId c = None
    | secondary =>
        exists l, linkedId c = Some l /\ lookup (Some l) table <> None
    end.

(** What [identify] may do to a row it finds in the store: leave it, or
    make it a secondary of some root with a new [updatedAt]. *)
Definition kept_or_demoted (c c' : Contact) : Prop :=
  c' = c \/ exists s t, c' = demoted s t c.

(** The rows come in the order of their ids, and their [createdAt] follow
    in the order [rel]. *)
Definition in_creation_order (rel : Z -> Z -> Prop) (table : list Contact)
  : Prop :=
  StronglySorted
    (fun a b => id a < id b /\ rel (createdAt a) (createdAt b)) table.

(** A later reading of the clock is related by [rel] to an earlier one:
    with [Z.le] the clock never goes back, with [Z.lt] it always advances. *)
Definition clock_follows (RT : Runtime) (rel : Z -> Z -> Prop) : Prop :=
  forall a b, (a < b)%nat -> rel (clock a) (clock b).

Section Reachability.

Context `{RT : Runtime}.

(** What a call of [identify] may add to the table [w] had, ending in the
    world [v]. *)
Definition added (e p : option string) (w v : World) (extra : list Contact)
  : Prop :=
  extra = [] \/
  exists P prec w1,
    extra = [new_row e p P prec w1] /\
    seq w1 = seq w /\ max_rowid (rows w1) = max_rowid (rows w) /\
    (ticks w <= ticks w1 < ticks v)%nat /\
    ((prec = primary /\ P = None) \/
     (prec = secondary /\
      In P (set_iter (roots (select_matches e p (rows w)))))).

(** What a call of [identify] may do to a row [c] of the table [w] had. *)
Definition updated (e p : option string) (w : World) (c c' : Contact)
  : Prop :=
  c' = c \/
  exists s t,
    c' = demoted s t c /\ lookup (Some s) (rows w) <> None /\
    In (Some (id c)) (set_iter (roots (select_matches e p (rows w)))) /\
    (1 < List.length (roots (select_matches e p (rows w))))%nat.


(** The stores the service builds from nothing, one request after the
    other, whatever the requests and however they end. *)
Inductive reachable : World -> Prop :=
| reachable_empty : reachable empty_world
| reachable_identify (w : World) (e p : option string) :
    reachable w -> reachable (exec (identify e p) w).

End Reachability.

(** * Properties *)

(** ** [ORDER BY] *)

Section OrderBy.

Variable A : Type.
Variable key : A -> Z.

Lemma insert_by_perm (x : A) (l : list A) :
  Permutation (insert_by key x l) (x :: l).
Proof.
  induction l as [|y l IH]; simpl.
  - apply Permutation_refl.
  - destruct (key y <=? key x).
    + apply perm_trans with (y :: x :: l).
      * now apply perm_skip.
      * apply perm_swap.
    + apply Permutation_refl.
Qed.

Lemma fold_insert_perm (l acc : list A) :
  Permutation (fold_left (fun a x => insert_by key x a) l acc) (acc ++ l).
Proof.
  revert acc; induction l as [|x l IH]; intros acc; simpl.
  - rewrite app_nil_r. apply Permutation_refl.
  - eapply perm_trans; [apply IH|].
    apply perm_trans with ((x :: acc) ++ l).
    + apply Permutation_app_tail, insert_by_perm.
    + simpl. apply Permutation_middle.
Qed.

Lemma order_by_perm (l : list A) : Permutation (order_by key l) l.
Proof. exact (fold_insert_perm l []). Qed.

Lemma order_by_In (l : list A) (x : A) : In x (order_by key l) <-> In x l.
Proof.
  split; apply Permutation_in;
    [apply order_by_perm | apply Permutation_sym, order_by_perm].
Qed.

Lemma insert_by_sorted (x : A) (l : list A) :
  StronglySorted (key_le key) l -> StronglySorted (key_le key) (insert_by key x l).
Proof.
  induction 1 as [|y l Hs IH Hy]; simpl.
  - constructor; constructor.
  - destruct (key y <=? key x) eqn:E.
    + constructor; [exact IH|].
      rewrite Forall_forall in *. intros z Hz.
      apply (Permutation_in _ (insert_by_perm x l)) in Hz.
      destruct Hz as [<-|Hz]; [apply Z.leb_le, E | now apply Hy].
    + apply Z.leb_gt in E.
      constructor; [now constructor|].
      constructor; [unfold key_le; lia|].
      rewrite Forall_forall in *. intros z Hz.
      specialize (Hy z Hz). unfold key_le in *. lia.
Qed.

Lemma fold_insert_sorted (l acc : list A) :
  StronglySorted (key_le key) acc ->
  StronglySorted (key_le key) (fold_left (fun a x => insert_by key x a) l acc).
Proof.
  revert acc; induction l as [|x l IH]; intros acc Hacc; simpl.
  - exact Hacc.
  - apply IH, insert_by_sorted, Hacc.
Qed.

Lemma order_by_sorted (l : list A) : StronglySorted (key_le key) (order_by key l).
Proof. apply fold_insert_sorted. constructor. Qed.

Lemma order_by_nil : order_by key [] = [].
Proof. reflexivity. Qed.

Lemma order_by_single (x : A) : order_by key [x] = [x].
Proof. reflexivity. Qed.

End OrderBy.

(** ** What each store operation returns and leaves *)

Lemma logged_logged (w : World) (l1 l2 : list Access) :
  logged (logged w l1) l2 = logged w (l1 ++ l2).
Proof. unfold logged; simpl. now rewrite app_assoc. Qed.

Lemma logged_nil (w : World) : logged w [] = w.
Proof. destruct w; unfold logged; simpl. now rewrite app_nil_r. Qed.

Lemma writes_logged (w : World) (l : list Access) :
  forallb (fun a => negb (is_write a)) l = true ->
  writes (logged w l) = writes w.
Proof.
  unfold writes, logged; simpl. intros H.
  rewrite filter_app.
  assert (E : filter is_write l = []).
  { induction l as [|a l IH]; simpl in *; [reflexivity|].
    apply andb_true_iff in H as [Ha Hl].
    destruct (is_write a); [discriminate | now apply IH]. }
  now rewrite E, app_nil_r.
Qed.

Section Steps.

Context `{RT : Runtime}.

Lemma get_contacts_by_email_or_phone_eq e p w :
  get_contacts_by_email_or_phone e p w =
  (inr (select_matches e p (rows w)), logged w [SelectByEmailOrPhone e p]).
Proof. reflexivity. Qed.

Lemma get_all_linked_contacts_eq pid w :
  get_all_linked_contacts pid w =
  (inr (group_of pid (rows w)), logged w [SelectLinked pid]).
Proof. reflexivity. Qed.

Lemma create_contact_eq e p linked_id prec w :
  create_contact e p linked_id prec w =
  (inr (id (new_row e p linked_id prec w)),
   mkWorld (rows w ++ [new_row e p linked_id prec w])
           (id (new_row e p linked_id prec w))
           (trace w ++ [Insert (id (new_row e p linked_id prec w))])
           (S (ticks w))).
Proof. reflexivity. Qed.

Lemma consolidate_contacts_eq pid w :
  consolidate_contacts (Some pid) w =
  (inr (project pid (rows w)), logged w [SelectLinked (Some pid)]).
Proof.
  unfold consolidate_contacts, bind, project. rewrite get_all_linked_contacts_eq.
  destruct (view (Some pid) (group_of (Some pid) (rows w))) as [[es ps] ids].
  reflexivity.
Qed.

Lemma consolidate_contacts_None w :
  consolidate_contacts None w = (inl ValidationError, logged w [SelectLinked None]).
Proof.
  unfold consolidate_contacts, bind. rewrite get_all_linked_contacts_eq.
  destruct (view None (group_of None (rows w))) as [[es ps] ids].
  reflexivity.
Qed.

Lemma collect_related_eq existing acc w :
  exists related,
    collect_related existing acc w =
    (inr (related,
          fold_left (fun s c => set_add (root_of c) s) existing (snd acc)),
     logged w (map (fun c => SelectLinked (root_of c)) existing)).
Proof.
  revert acc w; induction existing as [|c existing IH]; intros acc w; simpl.
  - exists (fst acc). unfold ret. rewrite logged_nil. now destruct acc.
  - unfold bind. rewrite get_all_linked_contacts_eq.
    edestruct IH as [related ->]. exists related.
    rewrite logged_logged. reflexivity.
Qed.

End Steps.

(** ** [min] with a key *)

Section PyMin.

Variable A : Type.
Variable key : A -> Z.

(** [py_min] returns the first element of minimal key: the elements before
    it have a strictly larger key, those after it a key at least as large. *)
Lemma py_min_first (x : A) (xs : list A) :
  exists before after,
    x :: xs = before ++ py_min key x xs :: after /\
    (forall y, In y before -> key (py_min key x xs) < key y) /\
    (forall y, In y after -> key (py_min key x xs) <= key y).
Proof.
  unfold py_min. revert x; induction xs as [|y xs IH]; intros x; simpl.
  - exists [], []. repeat split; intros ? [].
  - destruct (key y <? key x) eqn:E.
    + apply Z.ltb_lt in E.
      destruct (IH y) as (b & a & Heq & Hb & Ha).
      set (m := fold_left _ xs y) in *.
      assert (Hm : key m <= key y).
      { assert (Hin : In y (b ++ m :: a)) by (rewrite <- Heq; now left).
        apply in_app_or in Hin as [Hin|[->|Hin]];
          [specialize (Hb _ Hin) | | specialize (Ha _ Hin)]; lia. }
      exists (x :: b), a. simpl. rewrite Heq. repeat split; auto.
      intros z [<-|Hz]; [lia | auto].
    + apply Z.ltb_ge in E.
      destruct (IH x) as (b & a & Heq & Hb & Ha).
      set (m := fold_left _ xs x) in *.
      destruct b as [|x' b]; simpl in Heq; injection Heq as Hx Hxs.
      * exists [], (y :: xs). simpl. repeat split.
        -- now rewrite <- Hx.
        -- intros ? [].
        -- intros z [<-|Hz]; [rewrite <- Hx; lia | apply Ha; now rewrite <- Hxs].
      * subst x'. exists (x :: y :: b), a. simpl. rewrite Hxs.
        repeat split; auto.
        assert (Hmx : key m < key x) by (apply Hb; now left).
        intros z [<-|[<-|Hz]]; [exact Hmx | lia | apply Hb; now right].
Qed.

Lemma py_min_In (x : A) (xs : list A) : In (py_min key x xs) (x :: xs).
Proof.
  destruct (py_min_first x xs) as (b & a & -> & _).
  apply in_or_app. right. now left.
Qed.

Lemma py_min_le (x : A) (xs : list A) (y : A) :
  In y (x :: xs) -> key (py_min key x xs) <= key y.
Proof.
  destruct (py_min_first x xs) as (b & a & -> & Hb & Ha). intros Hin.
  apply in_app_or in Hin as [Hin|[<-|Hin]];
    [specialize (Hb _ Hin) | | specialize (Ha _ Hin)]; lia.
Qed.

End PyMin.

(** ** Fetching the roots and demoting all but one *)

Lemma lookup_Some pid table c :
  lookup pid table = Some c -> pid = Some (id c) /\ In c table.
Proof.
  unfold lookup. intros H. apply find_some in H as [Hin Heq].
  split; [|exact Hin].
  destruct pid as [p|]; simpl in Heq; [|discriminate].
  apply Z.eqb_eq in Heq. now subst.
Qed.

(** An update that leaves ids alone does not move the row found by id. *)
Lemma lookup_map (f : Contact -> Contact) pid table :
  (forall c, id (f c) = id c) ->
  lookup pid (map f table) = option_map f (lookup pid table).
Proof.
  intros Hid. unfold lookup.
  induction table as [|c table IH]; [reflexivity|].
  cbn [map find]. rewrite Hid, IH.
  now destruct (sql_eq_int (Some (id c)) pid).
Qed.

Lemma lookup_app_l pid table extra c :
  lookup pid table = Some c -> lookup pid (table ++ extra) = Some c.
Proof.
  unfold lookup. induction table as [|x table IH]; [discriminate|].
  cbn [app find]. now destruct (sql_eq_int (Some (id x)) pid).
Qed.

Section Merge.

Context `{RT : Runtime}.

Lemma fetch_all_found pids w :
  (forall pid, In pid pids -> lookup pid (rows w) <> None) ->
  exists cs,
    fetch_all pids w = (inr cs, logged w (map SelectById pids)) /\
    Forall2 (fun pid c => lookup pid (rows w) = Some c) pids cs.
Proof.
  revert w; induction pids as [|pid pids IH]; intros w Hall; simpl.
  - exists []. unfold ret. rewrite logged_nil. split; constructor.
  - assert (Hpid : lookup pid (rows w) <> None) by (apply Hall; now left).
    destruct (lookup pid (rows w)) as [c|] eqn:E; [clear Hpid|congruence].
    destruct (IH (logged w [SelectById pid])) as (cs & Hcs & HF).
    { intros q Hq. simpl. apply Hall. now right. }
    exists (c :: cs). split.
    + unfold bind, fetch_by_id, bind, log, get_rows; simpl.
      rewrite E. unfold ret at 1.
      change (mkWorld (rows w) (seq w) (trace w ++ [SelectById pid]) (ticks w))
        with (logged w [SelectById pid]).
      rewrite Hcs, logged_logged. reflexivity.
    + constructor; [exact E | exact HF].
Qed.

Lemma fetch_all_missing pids w :
  (exists pid, In pid pids /\ lookup pid (rows w) = None) ->
  exists l,
    fetch_all pids w = (inl TypeError, logged w l) /\
    forallb (fun a => negb (is_write a)) l = true.
Proof.
  revert w; induction pids as [|pid pids IH]; intros w (q & Hq & Hnone).
  - destruct Hq.
  - simpl. unfold bind at 1, fetch_by_id, bind, log, get_rows; simpl.
    change (mkWorld (rows w) (seq w) (trace w ++ [SelectById pid]) (ticks w))
      with (logged w [SelectById pid]).
    destruct (lookup pid (rows w)) as [c|] eqn:E.
    + unfold ret at 1. destruct Hq as [->|Hq]; [congruence|].
      destruct (IH (logged w [SelectById pid])) as (l & Hl & Hr).
      { exists q. split; [exact Hq | exact Hnone]. }
      exists (SelectById pid :: l). split.
      * unfold bind. rewrite Hl, logged_logged. reflexivity.
      * exact Hr.
    + exists [SelectById pid]. split; reflexivity.
Qed.

Lemma demoted_idem s t t' c : demoted s t (demoted s t' c) = demoted s t c.
Proof. reflexivity. Qed.

Lemma demote_loop (s : Z) (cs : list Contact) (w : World) :
  exists f w',
    for_each cs (demote_unless s) w = (inr tt, w') /\
    rows w' = map f (rows w) /\ seq w' = seq w /\
    (ticks w <= ticks w')%nat /\
    (forall c, id (f c) = id c) /\
    (forall c, id c = s \/ ~ In (id c) (map id cs) -> f c = c) /\
    (forall c, id c <> s -> In (id c) (map id cs) ->
       exists k, (ticks w <= k < ticks w')%nat /\ f c = demoted s (clock k) c).
Proof.
  revert w; induction cs as [|p cs IH]; intros w.
  - exists (fun c => c), w. simpl. unfold ret.
    repeat split; auto.
    + now rewrite map_id.
    + intros c _ [].
  - cbn [for_each]. unfold bind at 1, demote_unless at 1.
    destruct (id p =? s) eqn:E; simpl.
    + apply Z.eqb_eq in E. unfold ret.
      destruct (IH w) as (f & w' & Hrun & Hrows & Hseq & Ht & Hid & Hsame & Hdem).
      exists f, w'. repeat split; auto.
      * intros c [Hc|Hc]; apply Hsame; [now left | right; tauto].
      * intros c Hc [Hp|Hin]; [congruence | now apply Hdem].
    + apply Z.eqb_neq in E.
      unfold update_contact_to_secondary, bind, now; simpl.
      set (g := fun c => if id c =? id p
                         then demoted s (clock (ticks w)) c else c).
      set (w1 := mkWorld (map g (rows w)) (seq w)
                         (trace w ++ [Update (id p)]) (S (ticks w))).
      destruct (IH w1) as (f & w' & Hrun & Hrows & Hseq & Ht & Hid & Hsame & Hdem).
      assert (Hg : forall c, id (g c) = id c).
      { intros c. unfold g. now destruct (id c =? id p). }
      exists (fun c => f (g c)), w'. simpl in *.
      repeat split; auto.
      * now rewrite Hrows, map_map.
      * lia.
      * intros c. now rewrite Hid.
      * intros c Hc.
        assert (Hgc : g c = c).
        { unfold g. destruct (id c =? id p) eqn:Ec; [|reflexivity].
          apply Z.eqb_eq in Ec. destruct Hc as [Hc|Hc]; [congruence|].
          exfalso. apply Hc. now left. }
        rewrite Hgc. apply Hsame. destruct Hc as [Hc|Hc]; [now left|].
        right. intros Hin. apply Hc. now right.
      * intros c Hc Hin.
        destruct (in_dec Z.eq_dec (id c) (map id cs)) as [Hrest|Hrest].
        -- destruct (Hdem (g c)) as (k & Hk & Hfk);
             [now rewrite Hg | now rewrite Hg|].
           exists k. split; [lia|]. rewrite Hfk. unfold g.
           destruct (id c =? id p); [apply demoted_idem | reflexivity].
        -- destruct Hin as [Hp|Hin]; [|contradiction].
           exists (ticks w). split; [lia|].
           rewrite Hsame by (right; now rewrite Hg).
           unfold g. now rewrite <- Hp, Z.eqb_refl.
Qed.

End Merge.

(** ** The paths of [identify] *)

Lemma append_new_nil v : append_new v [] = present_list v.
Proof.
  destruct v as [s|]; [|reflexivity].
  unfold append_new, present_list. simpl existsb.
  now rewrite andb_true_r.
Qed.

Lemma py_eq_str_true a b : py_eq_str a b = true <-> a = b.
Proof.
  destruct a as [x|], b as [y|]; simpl; split; intros H;
    try discriminate; try reflexivity.
  - apply String.eqb_eq in H. now subst.
  - injection H as ->. apply String.eqb_refl.
Qed.

Lemma max_rowid_ge table c : In c table -> id c <= max_rowid table.
Proof.
  induction table as [|x table IH]; simpl; [intros []|].
  intros [->|Hin]; [lia | specialize (IH Hin); lia].
Qed.

Section Paths.

Context `{RT : Runtime}.

Lemma consolidate_contacts_rows P w :
  rows (exec (consolidate_contacts P) w) = rows w /\
  seq (exec (consolidate_contacts P) w) = seq w /\
  ticks (exec (consolidate_contacts P) w) = ticks w /\
  writes (exec (consolidate_contacts P) w) = writes w.
Proof.
  unfold exec. destruct P as [pid|].
  - rewrite consolidate_contacts_eq. simpl. repeat split.
    now apply writes_logged.
  - rewrite consolidate_contacts_None. simpl. repeat split.
    now apply writes_logged.
Qed.

Lemma identify_invalid e p w :
  valid_request e p = false ->
  identify e p w = (inl (HTTPException 400), w).
Proof.
  unfold valid_request, identify. intros H.
  apply orb_false_iff in H as [-> ->]. reflexivity.
Qed.

(** Past the boundary check [identify] starts with the match query. *)
Lemma identify_valid e p w :
  valid_request e p = true ->
  identify e p w =
  match select_matches e p (rows w) with
  | [] =>
      (new_contact_id <- create_contact e p None primary ;;
       consolidate_contacts (Some new_contact_id))
        (logged w [SelectByEmailOrPhone e p])
  | _ :: _ =>
      match find (is_exact e p) (select_matches e p (rows w)) with
      | Some exact_match =>
          consolidate_contacts (Some (exact_root exact_match))
            (logged w [SelectByEmailOrPhone e p])
      | None =>
          (primary_id <- resolve_primary (select_matches e p (rows w)) ;;
           add_new_information e p primary_id ;;;
           consolidate_contacts primary_id)
            (logged w [SelectByEmailOrPhone e p])
      end
  end.
Proof.
  unfold valid_request, identify. intros H.
  assert (G : negb (truthy e) && negb (truthy p) = false).
  { destruct (truthy e), (truthy p); simpl in *; congruence. }
  rewrite G. unfold bind at 1. rewrite get_contacts_by_email_or_phone_eq.
  destruct (select_matches e p (rows w)) as [|c l]; [reflexivity|].
  now destruct (find (is_exact e p) (c :: l)).
Qed.

End Paths.

(** ** The boundary check *)

Section Boundary.

Context `{RT : Runtime}.

(** C8.  A request without email and without phone number is refused with
    the client error 400, and the world is left as it was: nothing is added
    to the log of statements, so the store was not accessed. *)
Theorem identify_rejects_absent (w : World) :
  identify None None w = (inl (HTTPException 400), w) /\
  trace (exec (identify None None) w) = trace w.
Proof. split; reflexivity. Qed.

(** C10.  A request whose email and phone number are both the empty string
    gets the same answer as one where both are absent, and again the store is
    not accessed. *)
Theorem identify_rejects_empty_strings (w : World) :
  identify (Some EmptyString) (Some EmptyString) w = identify None None w /\
  identify (Some EmptyString) (Some EmptyString) w =
    (inl (HTTPException 400), w) /\
  trace (exec (identify (Some EmptyString) (Some EmptyString)) w) = trace w.
Proof. repeat split; reflexivity. Qed.

End Boundary.

(** ** No match *)

Section NoMatch.

Context `{RT : Runtime}.

Lemma foreign_key_link table c l :
  foreign_key_ok table = true -> In c table -> linkedId c = Some l ->
  l <= max_rowid table.
Proof.
  unfold foreign_key_ok. intros Hfk Hin Hl.
  rewrite forallb_forall in Hfk. specialize (Hfk c Hin). rewrite Hl in Hfk.
  apply existsb_exists in Hfk as (c' & Hin' & Heq).
  apply Z.eqb_eq in Heq. subst l. now apply max_rowid_ge.
Qed.

End NoMatch.

(** ** Exact duplicate *)

Section ExactDuplicate.

Context `{RT : Runtime}.

(** An active row carrying exactly the pair of a valid request is among the
    matches. *)
Lemma exact_row_matches e p table c :
  valid_request e p = true ->
  In c table -> active c = true -> email c = e -> phoneNumber c = p ->
  In c (select_matches e p table) /\ is_exact e p c = true.
Proof.
  intros Hvalid Hin Hact He Hp. split.
  - unfold select_matches. apply order_by_In, filter_In. split; [exact Hin|].
    unfold matches_email_or_phone. rewrite Hact, He, Hp. simpl.
    unfold valid_request in Hvalid.
    apply orb_true_iff in Hvalid as [H|H]; apply orb_true_iff; [left|right].
    + destruct e as [s|]; [|discriminate]. simpl. apply String.eqb_refl.
    + destruct p as [s|]; [|discriminate]. simpl. apply String.eqb_refl.
  - unfold is_exact. apply andb_true_iff. split; now apply py_eq_str_true.
Qed.

(** On such a store [identify] takes the exact-match return: two reads, and
    the projection of the root of the first exact match. *)
Lemma identify_exact e p w c :
  valid_request e p = true ->
  In c (rows w) -> active c = true -> email c = e -> phoneNumber c = p ->
  exists m,
    find (is_exact e p) (select_matches e p (rows w)) = Some m /\
    identify e p w =
    (inr (project (exact_root m) (rows w)),
     logged w [SelectByEmailOrPhone e p; SelectLinked (Some (exact_root m))]).
Proof.
  intros Hvalid Hin Hact He Hp.
  destruct (exact_row_matches e p (rows w) c Hvalid Hin Hact He Hp)
    as [Hmatch Hexact].
  destruct (find (is_exact e p) (select_matches e p (rows w))) as [m|] eqn:Ef.
  - exists m. split; [reflexivity|].
    rewrite (identify_valid _ _ _ Hvalid), Ef.
    destruct (select_matches e p (rows w)) as [|x l]; [destruct Hmatch|].
    rewrite consolidate_contacts_eq, logged_logged. reflexivity.
  - exfalso. pose proof (find_none _ _ Ef c Hmatch) as Hno. congruence.
Qed.

(** C4.  When an active row carries exactly the (email, phone number) pair
    of a request that passes the boundary check, [identify] answers with a
    response and performs no write: rows, rowid counter and clock are as
    before and the log gains no write.  The same request again returns the
    same response and still leaves the rows as they were, so the second call
    creates no record. *)
Theorem exact_duplicate_idempotent (e p : option string) (w : World)
    (c : Contact) :
  valid_request e p = true ->
  In c (rows w) -> active c = true -> email c = e -> phoneNumber c = p ->
  let w1 := exec (identify e p) w in
  let w2 := exec (identify e p) w1 in
  exists resp,
    result (identify e p) w = inr resp /\
    rows w1 = rows w /\ seq w1 = seq w /\ ticks w1 = ticks w /\
    writes w1 = writes w /\
    result (identify e p) w1 = inr resp /\
    rows w2 = rows w /\ writes w2 = writes w.
Proof.
  intros Hvalid Hin Hact He Hp w1 w2.
  destruct (identify_exact e p w c Hvalid Hin Hact He Hp) as (m & Hm & Hrun).
  assert (Hw1 : w1 = logged w [SelectByEmailOrPhone e p;
                               SelectLinked (Some (exact_root m))]).
  { subst w1. unfold exec. now rewrite Hrun. }
  assert (Hin1 : In c (rows w1)) by now rewrite Hw1.
  destruct (identify_exact e p w1 c Hvalid Hin1 Hact He Hp) as (m' & Hm' & Hrun').
  assert (Hmm : m' = m).
  { rewrite Hw1 in Hm'. cbn [rows logged] in Hm'. congruence. }
  subst m'.
  assert (Hw2 : w2 = logged w1 [SelectByEmailOrPhone e p;
                                SelectLinked (Some (exact_root m))]).
  { subst w2. unfold exec. now rewrite Hrun'. }
  exists (project (exact_root m) (rows w)).
  unfold result. rewrite Hrun, Hrun', Hw2, Hw1. cbn [fst rows seq ticks logged].
  repeat split; rewrite ?logged_logged; now apply writes_logged.
Qed.

End ExactDuplicate.

(** The statement above on the store that holds one contact, for the pair
    that created it. *)
Lemma exact_duplicate_idempotent_witness :
  let e := Some "a@x.com" in
  let p := Some "111" in
  let w := Scenario.one in
  let w1 := exec (identify (RT := insertion_runtime) e p) w in
  let w2 := exec (identify (RT := insertion_runtime) e p) w1 in
  exists resp,
    result (identify (RT := insertion_runtime) e p) w = inr resp /\
    rows w1 = rows w /\ seq w1 = seq w /\ ticks w1 = ticks w /\
    writes w1 = writes w /\
    result (identify (RT := insertion_runtime) e p) w1 = inr resp /\
    rows w2 = rows w /\ writes w2 = writes w.
Proof.
  refine (exact_duplicate_idempotent (RT := insertion_runtime)
            (Some "a@x.com") (Some "111") Scenario.one
            (mkContact 1 (Some "111") (Some "a@x.com") None primary
                       1000 1000 None)
            eq_refl _ eq_refl eq_refl eq_refl).
  simpl. left. reflexivity.
Defined.

(** ** The new-information check *)

Lemma fresh_value_spec (v : option string) (l : list (option string)) :
  truthy v && negb (existsb (py_eq_str v) (filter truthy l)) = true <->
  truthy v = true /\ ~ In v l.
Proof.
  rewrite andb_true_iff, negb_true_iff.
  split; intros [Hv Hn]; split; try exact Hv.
  - intros Hin.
    assert (Hex : existsb (py_eq_str v) (filter truthy l) = true).
    { apply existsb_exists. exists v. split.
      - apply filter_In. now split.
      - now apply py_eq_str_true. }
    congruence.
  - destruct (existsb (py_eq_str v) (filter truthy l)) eqn:E; [|reflexivity].
    exfalso. apply existsb_exists in E as (x & Hx & Heq).
    apply py_eq_str_true in Heq. subst x.
    apply filter_In in Hx as [Hx _]. now apply Hn.
Qed.

Lemma has_new_info_spec (e p : option string) (group : list Contact) :
  has_new_info e p group = true <-> new_information e p group.
Proof.
  unfold has_new_info, new_information.
  rewrite orb_true_iff, !fresh_value_spec. reflexivity.
Qed.

Section NewInformation.

Context `{RT : Runtime}.

Lemma add_new_information_eq e p P w :
  add_new_information e p P w =
  if has_new_info e p (group_of P (rows w))
  then
    let c := new_row e p P secondary w in
    (inr tt,
     mkWorld (rows w ++ [c]) (id c)
             (trace w ++ [SelectLinked P] ++ [Insert (id c)]) (S (ticks w)))
  else (inr tt, logged w [SelectLinked P]).
Proof.
  unfold add_new_information, bind at 1.
  rewrite get_all_linked_contacts_eq.
  destruct (has_new_info e p (group_of P (rows w))); [|reflexivity].
  unfold bind. rewrite create_contact_eq. unfold ret.
  cbn [rows logged seq trace ticks]. rewrite <- app_assoc. reflexivity.
Qed.

Lemma app_single_neq {A} (l : list A) (x : A) : l ++ [x] <> l.
Proof.
  intros H. apply (f_equal (@List.length A)) in H.
  rewrite length_app in H. simpl in H. lia.
Qed.

End NewInformation.

(** ** Merging groups *)

Section MergeGroups.

Context `{RT : Runtime}.

Lemma resolve_primary_eq existing w :
  resolve_primary existing w =
  (if (1 <? List.length (roots existing))%nat
   then merge_primaries (roots existing)
   else match set_iter (roots existing) with
        | pid :: _ => ret pid
        | [] => raise IndexError
        end)
    (logged w (map (fun c => SelectLinked (root_of c)) existing)).
Proof.
  unfold resolve_primary, bind at 1.
  destruct (collect_related_eq existing ([], []) w) as (related & ->).
  reflexivity.
Qed.

(** The fetched rows determine the ids they were fetched by. *)
Lemma fetched_rows pids cs table :
  Forall2 (fun pid c => lookup pid table = Some c) pids cs ->
  pids = map (fun c => Some (id c)) cs /\
  (forall c, In c cs -> lookup (Some (id c)) table = Some c).
Proof.
  induction 1 as [|pid c pids cs Hl HF [IH1 IH2]]; simpl.
  - split; [reflexivity | intros ? []].
  - destruct (lookup_Some _ _ _ Hl) as [-> _]. split.
    + now rewrite <- IH1.
    + intros c' [<-|Hin]; [exact Hl | now apply IH2].
Qed.

Lemma merge_primaries_spec (rs : list (option Z)) (w : World) :
  enumerates_each_once RT ->
  (1 < List.length rs)%nat ->
  roots_exist rs (rows w) = true ->
  exists survivor f w',
    merge_primaries rs w = (inr (Some (id survivor)), w') /\
    In (Some (id survivor)) rs /\
    lookup (Some (id survivor)) (rows w) = Some survivor /\
    (exists before after,
       set_iter rs = before ++ Some (id survivor) :: after /\
       (forall r c, In r before -> lookup r (rows w) = Some c ->
                    createdAt survivor < createdAt c) /\
       (forall r c, In r after -> lookup r (rows w) = Some c ->
                    createdAt survivor <= createdAt c)) /\
    rows w' = map f (rows w) /\ seq w' = seq w /\
    (ticks w <= ticks w')%nat /\
    (forall c, id (f c) = id c) /\
    f survivor = survivor /\
    (forall r c, In r rs -> lookup r (rows w) = Some c ->
       id c <> id survivor ->
       exists k, (ticks w <= k < ticks w')%nat /\
                 f c = demoted (id survivor) (clock k) c).
Proof.
  intros Hlaw Hlen Hex.
  pose proof (Hlaw rs) as Hperm.
  destruct (fetch_all_found (set_iter rs) w) as (cs & Hfetch & HF).
  { intros pid Hpid Hnone.
    unfold roots_exist in Hex. rewrite forallb_forall in Hex.
    specialize (Hex pid (Permutation_in _ Hperm Hpid)).
    now rewrite Hnone in Hex. }
  destruct (fetched_rows _ _ _ HF) as [Hpids Hself].
  destruct cs as [|c0 cs].
  { exfalso. simpl in Hpids.
    apply Permutation_length in Hperm. rewrite Hpids in Hperm.
    simpl in Hperm. lia. }
  set (m := py_min createdAt c0 cs).
  destruct (py_min_first Contact createdAt c0 cs)
    as (b & a & Hsplit & Hb & Ha). fold m in Hsplit, Hb, Ha.
  destruct (demote_loop (id m) (c0 :: cs)
                        (logged w (map SelectById (set_iter rs))))
    as (f & w' & Hloop & Hrows & Hseq & Ht & Hid & Hsame & Hdem).
  assert (Hm : In m (c0 :: cs)) by apply py_min_In.
  exists m, f, w'.
  split; [|split; [|split; [|split; [|split; [|split; [|split; [|split;
    [|split]]]]]]]]; auto.
  - unfold merge_primaries, bind at 1. rewrite Hfetch.
    cbn [oldest_of]. fold m. unfold bind. rewrite Hloop. reflexivity.
  - apply (Permutation_in _ Hperm). rewrite Hpids.
    apply in_map_iff. now exists m.
  - exists (map (fun c => Some (id c)) b), (map (fun c => Some (id c)) a).
    split; [|split].
    + rewrite Hpids, Hsplit, map_app. reflexivity.
    + intros r c Hr Hl. apply in_map_iff in Hr as (y & <- & Hy).
      assert (Hy' : In y (c0 :: cs)).
      { rewrite Hsplit. apply in_or_app. now left. }
      rewrite (Hself y Hy') in Hl. injection Hl as <-. now apply Hb.
    + intros r c Hr Hl. apply in_map_iff in Hr as (y & <- & Hy).
      assert (Hy' : In y (c0 :: cs)).
      { rewrite Hsplit. apply in_or_app. right. now right. }
      rewrite (Hself y Hy') in Hl. injection Hl as <-. now apply Ha.
  - intros r c Hr Hl Hne.
    assert (Hc : In c (c0 :: cs)).
    { apply (Permutation_in _ (Permutation_sym Hperm)) in Hr.
      rewrite Hpids in Hr. apply in_map_iff in Hr as (y & <- & Hy).
      rewrite (Hself y Hy) in Hl. now injection Hl as <-. }
    destruct (Hdem c Hne) as (k & Hk & Hfk).
    + apply in_map_iff. now exists c.
    + exists k. split; [exact Hk | exact Hfk].
Qed.

End MergeGroups.

Section OldestWins.

Context `{RT : Runtime}.

(** What follows the choice of the primary [s]: at most one insertion, and
    the projection of the group of [s]. *)
Lemma finish_spec e p s w :
  exists extra,
    let fin := (add_new_information e p (Some s) ;;;
                consolidate_contacts (Some s)) w in
    fst fin = inr (project s (rows (snd fin))) /\
    rows (snd fin) = rows w ++ extra /\
    (ticks w <= ticks (snd fin))%nat.
Proof.
  unfold bind. rewrite add_new_information_eq.
  destruct (has_new_info e p (group_of (Some s) (rows w))); cbv beta iota zeta;
    rewrite consolidate_contacts_eq; cbn [fst snd rows ticks logged].
  - exists [new_row e p (Some s) secondary w]. repeat split. lia.
  - exists []. rewrite app_nil_r. repeat split. lia.
Qed.

Lemma roots_nil_length existing :
  (1 < List.length (roots existing))%nat -> exists x l, existing = x :: l.
Proof.
  destruct existing as [|x l]; simpl; [lia | intros _; eauto].
Qed.

(** C2, as the code has it.  Whatever order the runtime enumerates sets
    in: in an [identify] call without exact match whose matched rows resolve
    to more than one root id, each the id of a row, the root that survives has the least [createdAt] of all roots; of
    several roots with that least [createdAt] it is the one the runtime
    enumerates first (every root enumerated before it is strictly younger).
    The response is the survivor's group, the survivor's row is left as it
    was, and the row of every other root keeps its id, [createdAt], email
    and phone number and becomes a secondary whose [linkedId] is the
    survivor's id and whose [updatedAt] is a reading of the clock taken
    during the call. *)
Theorem merge_keeps_oldest_root (e p : option string) (w : World) :
  enumerates_each_once RT ->
  valid_request e p = true ->
  find (is_exact e p) (select_matches e p (rows w)) = None ->
  (1 < List.length (roots (select_matches e p (rows w))))%nat ->
  roots_exist (roots (select_matches e p (rows w))) (rows w) = true ->
  let rs := roots (select_matches e p (rows w)) in
  let w' := exec (identify e p) w in
  exists survivor,
    In (Some (id survivor)) rs /\
    lookup (Some (id survivor)) (rows w) = Some survivor /\
    (forall r c, In r rs -> lookup r (rows w) = Some c ->
                 createdAt survivor <= createdAt c) /\
    (exists before after,
       set_iter rs = before ++ Some (id survivor) :: after /\
       forall r c, In r before -> lookup r (rows w) = Some c ->
                   createdAt survivor < createdAt c) /\
    (exists resp, result (identify e p) w = inr resp /\
                  primaryContatctId resp = id survivor) /\
    lookup (Some (id survivor)) (rows w') = Some survivor /\
    (forall r c, In r rs -> lookup r (rows w) = Some c ->
       id c <> id survivor ->
       exists c' k,
         lookup r (rows w') = Some c' /\
         id c' = id c /\ createdAt c' = createdAt c /\
         email c' = email c /\ phoneNumber c' = phoneNumber c /\
         linkPrecedence c' = secondary /\
         linkedId c' = Some (id survivor) /\
         updatedAt c' = clock k /\ (ticks w <= k < ticks w')%nat).
Proof.
  intros Hlaw Hvalid Hnone Hlen Hex rs w'.
  destruct (roots_nil_length _ Hlen) as (x & l & Hxl).
  set (w0 := logged (logged w [SelectByEmailOrPhone e p])
                    (map (fun c => SelectLinked (root_of c))
                         (select_matches e p (rows w)))).
  destruct (merge_primaries_spec rs w0 Hlaw Hlen Hex)
    as (m & f & w3 & Hmerge & Hin & Hlook & (b & a & Hsplit & Hb & Ha)
        & Hrows & Hseq & Ht & Hid & Hfm & Hdem).
  change (rows w0) with (rows w) in *. change (ticks w0) with (ticks w) in *.
  destruct (finish_spec e p (id m) w3) as (extra & Hfin).
  cbv zeta in Hfin. destruct Hfin as (Hres & Hrows' & Ht').
  assert (Hrun : identify e p w =
                 (add_new_information e p (Some (id m)) ;;;
                  consolidate_contacts (Some (id m))) w3).
  { rewrite (identify_valid _ _ _ Hvalid), Hnone.
    destruct (select_matches e p (rows w)) as [|x' l'] eqn:Ex;
      [discriminate|].
    unfold bind at 1. rewrite resolve_primary_eq. fold rs.
    assert (Hlt : (1 <? List.length rs)%nat = true) by now apply Nat.ltb_lt.
    rewrite Hlt. fold w0. rewrite Hmerge. reflexivity. }
  assert (Hw' : rows w' = map f (rows w) ++ extra).
  { subst w'. unfold exec. rewrite Hrun, Hrows', Hrows. reflexivity. }
  assert (Htk : (ticks w3 <= ticks w')%nat).
  { subst w'. unfold exec. now rewrite Hrun. }
  assert (Hfound : forall r c, lookup r (rows w) = Some c ->
                               lookup r (rows w') = Some (f c)).
  { intros r c Hl. rewrite Hw'. apply lookup_app_l.
    rewrite (lookup_map f r (rows w) Hid), Hl. reflexivity. }
  exists m.
  split; [exact Hin|]. split; [exact Hlook|]. split; [|split; [|split; [|split]]].
  - intros r c Hr Hl.
    apply (Permutation_in _ (Permutation_sym (Hlaw rs))) in Hr.
    rewrite Hsplit in Hr. apply in_app_or in Hr as [Hr|[<-|Hr]].
    + specialize (Hb r c Hr Hl). lia.
    + rewrite Hlook in Hl. injection Hl as <-. lia.
    + exact (Ha r c Hr Hl).
  - exists b, a. split; [exact Hsplit | exact Hb].
  - exists (project (id m) (rows w')). split; [|reflexivity].
    subst w'. unfold result, exec. rewrite Hrun. exact Hres.
  - rewrite (Hfound _ _ Hlook), Hfm. reflexivity.
  - intros r c Hr Hl Hne.
    destruct (Hdem r c Hr Hl Hne) as (k & Hk & Hfk).
    exists (f c), k. rewrite (Hfound _ _ Hl), Hfk.
    repeat split; lia.
Qed.

End OldestWins.

(** The statement above for the request that links the two groups of
    [Scenario.three]. *)
Lemma merge_keeps_oldest_root_witness :
  let e := Some "a@x.com" in
  let p := Some "333" in
  let w := Scenario.three in
  let rs := roots (select_matches e p (rows w)) in
  let w' := exec (identify (RT := insertion_runtime) e p) w in
  exists survivor,
    In (Some (id survivor)) rs /\
    lookup (Some (id survivor)) (rows w) = Some survivor /\
    (forall r c, In r rs -> lookup r (rows w) = Some c ->
                 createdAt survivor <= createdAt c) /\
    (exists before after,
       set_iter (Runtime := insertion_runtime) rs =
         before ++ Some (id survivor) :: after /\
       forall r c, In r before -> lookup r (rows w) = Some c ->
                   createdAt survivor < createdAt c) /\
    (exists resp,
       result (identify (RT := insertion_runtime) e p) w = inr resp /\
       primaryContatctId resp = id survivor) /\
    lookup (Some (id survivor)) (rows w') = Some survivor /\
    (forall r c, In r rs -> lookup r (rows w) = Some c ->
       id c <> id survivor ->
       exists c' k,
         lookup r (rows w') = Some c' /\
         id c' = id c /\ createdAt c' = createdAt c /\
         email c' = email c /\ phoneNumber c' = phoneNumber c /\
         linkPrecedence c' = secondary /\
         linkedId c' = Some (id survivor) /\
         updatedAt c' = clock (Runtime := insertion_runtime) k /\
         (ticks w <= k < ticks w')%nat).
Proof.
  refine (merge_keeps_oldest_root (RT := insertion_runtime)
            (Some "a@x.com") (Some "333") Scenario.three
            (fun l => Permutation_refl l) eq_refl eq_refl _ eq_refl).
  vm_compute. lia.
Defined.

(** Both runtimes enumerate every element once. *)
Lemma insertion_runtime_lawful : enumerates_each_once insertion_runtime.
Proof. intros l. apply Permutation_refl. Qed.

Lemma slot_runtime_lawful : enumerates_each_once slot_runtime.
Proof. intros l. apply order_by_perm. Qed.

(** C2 as stated fails on a tie.  The rows 1 and 8 of [Tie.world] are both
    roots of the request and have the same [createdAt]; the claim has row 1
    survive.  Under the enumeration order of CPython, [8] before [1], the
    code keeps row 8 and demotes row 1. *)
Lemma merge_tie_counterexample :
  let e := Some "a@x.com" in
  let p := Some "888" in
  let w := Tie.world in
  let w' := exec (identify (RT := slot_runtime) e p) w in
  find (is_exact e p) (select_matches e p (rows w)) = None /\
  roots (select_matches e p (rows w)) = [Some 1; Some 8] /\
  set_iter (Runtime := slot_runtime) [Some 1; Some 8] = [Some 8; Some 1] /\
  lookup (Some 1) (rows w) = Some Tie.first_row /\
  lookup (Some 8) (rows w) = Some Tie.eighth_row /\
  createdAt Tie.first_row = createdAt Tie.eighth_row /\
  result (identify (RT := slot_runtime) e p) w =
    inr (mkResponse 8 ["h@x.com"; "a@x.com"] ["888"; "111"] [1]) /\
  lookup (Some 8) (rows w') = Some Tie.eighth_row /\
  lookup (Some 1) (rows w') = Some (demoted 8 1000 Tie.first_row).
Proof. vm_compute. repeat split. Qed.

(** ** The flatten invariant is lost in a merge *)

(** C1 on [Scenario.young_group], a store the service itself has built
    from nothing: the store satisfies the invariant; the request that
    merges the group of row 2 into the older row 1 demotes row 2 and leaves
    the [linkedId] of row 3 at 2, so the invariant fails afterwards, and row
    3 is missing from the response. *)
Theorem merge_leaves_links_to_demoted :
  let w := Scenario.young_group in
  let w' := exec (identify (RT := insertion_runtime)
                           (Some "b@y.com") (Some "111")) w in
  links_to_primaries (rows w) = true /\
  option_map linkPrecedence (lookup (Some 2) (rows w)) = Some primary /\
  option_map linkedId (lookup (Some 3) (rows w)) = Some (Some 2) /\
  option_map linkPrecedence (lookup (Some 2) (rows w')) = Some secondary /\
  option_map linkedId (lookup (Some 2) (rows w')) = Some (Some 1) /\
  option_map linkedId (lookup (Some 3) (rows w')) = Some (Some 2) /\
  links_to_primaries (rows w') = false /\
  result (identify (RT := insertion_runtime) (Some "b@y.com") (Some "111")) w =
    inr (mkResponse 1 ["b@y.com"; "a@x.com"] ["333"; "111"] [2]).
Proof. vm_compute. repeat split. Qed.

(** ** A soft-deleted row in the merge *)

(** C6 on [SoftDeleted.world] and [SoftDeleted.world_late], which have the
    same active rows and differ in the [createdAt] of the soft-deleted row
    1.  The fetch of the roots by id reads that row: in the first store it
    survives the merge and the active primary 3 is made its secondary, in
    the second it is demoted itself.  The responses differ. *)
Theorem soft_deleted_root_decides_merge :
  let e := Some "a@x.com" in
  let p := Some "333" in
  let w := SoftDeleted.world in
  let v := SoftDeleted.world_late in
  filter active (rows w) = filter active (rows v) /\
  seq w = seq v /\
  option_map active (lookup (Some 1) (rows w)) = Some false /\
  result (identify (RT := insertion_runtime) e p) w =
    inr (mkResponse 1 ["a@x.com"; "b@y.com"] ["222"; "333"] [2; 3]) /\
  option_map linkedId
    (lookup (Some 3) (rows (exec (identify (RT := insertion_runtime) e p) w)))
    = Some (Some 1) /\
  result (identify (RT := insertion_runtime) e p) v =
    inr (mkResponse 3 ["b@y.com"; "a@x.com"] ["333"] [4]) /\
  option_map linkedId
    (lookup (Some 1) (rows (exec (identify (RT := insertion_runtime) e p) v)))
    = Some (Some 3).
Proof. vm_compute. repeat split. Qed.

(** ** Inconsistent links *)

Section Inconsistent.

Context `{RT : Runtime}.

Lemma roots_exist_false rs table :
  roots_exist rs table = false ->
  exists r, In r rs /\ lookup r table = None.
Proof.
  unfold roots_exist. induction rs as [|r rs IH]; simpl; [discriminate|].
  destruct (lookup r table) eqn:E; simpl.
  - intros H. destruct (IH H) as (q & Hq & Hn). exists q. auto.
  - intros _. exists r. auto.
Qed.

End Inconsistent.

(** C9 as stated fails on [Dangling.world]: the matched row is a secondary
    whose [linkedId] 99 is the id of no row, and the call neither fails nor
    stops; it files a new secondary under 99 and answers for the root 99. *)
Lemma dangling_link_counterexample :
  let e := Some "a@x.com" in
  let p := Some "222" in
  let w := Dangling.world in
  let w' := exec (identify (RT := insertion_runtime) e p) w in
  select_matches e p (rows w) = [Dangling.orphan] /\
  linkedId Dangling.orphan = Some 99 /\
  lookup (Some 99) (rows w) = None /\
  result (identify (RT := insertion_runtime) e p) w =
    inr (mkResponse 99 ["a@x.com"] ["111"; "222"] [1; 2]) /\
  rows w' =
    [Dangling.orphan;
     mkContact 2 (Some "222") (Some "a@x.com") (Some 99) secondary
               1000 1000 None].
Proof. vm_compute. repeat split. Qed.

(** ** The view assembler *)

Lemma split_primary_fold (p : Z) (l : list Contact)
    (a : option Contact) (s : list Contact) :
  fold_left
    (fun acc contact =>
       if opt_Z_eqb (Some (id contact)) (Some p)
       then (Some contact, snd acc)
       else (fst acc, snd acc ++ [contact]))
    l (a, s) =
  (match rev (the_primary p l) with
   | c :: _ => Some c
   | [] => a
   end,
   s ++ the_secondaries p l).
Proof.
  revert a s; induction l as [|x l IH]; intros a s.
  - simpl. now rewrite app_nil_r.
  - cbn [fold_left the_primary the_secondaries filter opt_Z_eqb fst snd].
    destruct (id x =? p); cbn [negb].
    + rewrite IH. fold (the_primary p l). cbn [rev].
      destruct (rev (the_primary p l)); reflexivity.
    + rewrite IH. fold (the_primary p l) (the_secondaries p l).
      now rewrite <- app_assoc.
Qed.

Lemma NoDup_map_filter {A B} (g : A -> B) (f : A -> bool) (l : list A) :
  NoDup (map g l) -> NoDup (map g (filter f l)).
Proof.
  induction l as [|x l IH]; simpl; intros H; [constructor|].
  inversion H as [|? ? Hx Hl]; subst.
  destruct (f x); simpl; [|now apply IH].
  constructor; [|now apply IH].
  intros Hin. apply Hx. apply in_map_iff in Hin as (y & Hy & Hin).
  apply filter_In in Hin as [Hin _]. apply in_map_iff. now exists y.
Qed.

(** Under the primary key at most one row of a group is the root. *)
Lemma the_primary_unique (p : Z) (l : list Contact) :
  NoDup (map id l) ->
  the_primary p l = [] \/ exists c, the_primary p l = [c].
Proof.
  induction l as [|x l IH]; simpl; intros H; [now left|].
  inversion H as [|? ? Hx Hl]; subst.
  destruct (id x =? p) eqn:E.
  - right. exists x. f_equal.
    destruct (the_primary p l) as [|y t] eqn:Ey; [reflexivity|].
    exfalso. apply Hx.
    assert (Hy : In y (the_primary p l)) by (rewrite Ey; now left).
    apply filter_In in Hy as [Hy Hid].
    apply Z.eqb_eq in E, Hid. apply in_map_iff. exists y. split; [lia|exact Hy].
  - now apply IH.
Qed.

Lemma StronglySorted_filter {A} (R : A -> A -> Prop) (f : A -> bool)
    (l : list A) :
  StronglySorted R l -> StronglySorted R (filter f l).
Proof.
  induction 1 as [|x l Hs IH Hx]; simpl; [constructor|].
  destruct (f x); [|exact IH].
  constructor; [exact IH|].
  rewrite Forall_forall in *. intros y Hy.
  apply filter_In in Hy as [Hy _]. now apply Hx.
Qed.

Lemma fold_collect_info (l : list Contact) (es ps : list string) :
  fold_left collect_info l (es, ps) =
  (fold_left (fun acc v => append_new v acc) (map email l) es,
   fold_left (fun acc v => append_new v acc) (map phoneNumber l) ps).
Proof.
  revert es ps; induction l as [|c l IH]; intros es ps; [reflexivity|].
  cbn [fold_left map]. unfold collect_info at 2. cbn [fst snd]. apply IH.
Qed.

Lemma filter_filter {A} (f g : A -> bool) (l : list A) :
  filter f (filter g l) = filter (fun x => g x && f x) l.
Proof.
  induction l as [|x l IH]; simpl; [reflexivity|].
  destruct (g x); simpl; [destruct (f x)|]; now rewrite IH.
Qed.

(** The guarded appends list each truthy value once, at its first
    occurrence, after what was listed before. *)
Lemma fold_append_new (vs : list (option string)) (acc : list string) :
  fold_left (fun acc v => append_new v acc) vs acc =
  acc ++ filter (fun y => negb (existsb (String.eqb y) acc))
                (first_occurrences (present_values vs)).
Proof.
  revert acc; induction vs as [|v vs IH]; intros acc.
  - simpl. now rewrite app_nil_r.
  - cbn [fold_left]. rewrite IH. unfold present_values. cbn [flat_map].
    fold (present_values vs).
    destruct v as [s|]; [|reflexivity].
    unfold append_new, present_list.
    destruct (truthy (Some s)); [|reflexivity].
    cbn [andb app first_occurrences filter].
    destruct (existsb (String.eqb s) acc) eqn:E; cbn [negb].
    + f_equal. rewrite filter_filter. apply filter_ext_in. intros y _.
      destruct (String.eqb s y) eqn:Esy; [|reflexivity].
      apply String.eqb_eq in Esy. subst y. now rewrite E.
    + rewrite <- app_assoc. f_equal. cbn [app]. f_equal.
      rewrite filter_filter. apply filter_ext. intros y.
      rewrite existsb_app. cbn [existsb]. rewrite orb_false_r, negb_orb.
      rewrite (String.eqb_sym y s). apply andb_comm.
Qed.

Lemma first_occurrences_NoDup (l : list string) : NoDup (first_occurrences l).
Proof.
  induction l as [|x l IH]; simpl; constructor.
  - intros Hin. apply filter_In in Hin as [_ Hne].
    now rewrite String.eqb_refl in Hne.
  - now apply NoDup_filter.
Qed.

Section View.

Context `{RT : Runtime}.

Lemma view_eq (p : Z) (group : list Contact) :
  (the_primary p group = [] \/ exists c, the_primary p group = [c]) ->
  view (Some p) group =
  (first_occurrences
     (present_values (map email (the_primary p group ++ the_secondaries p group))),
   first_occurrences
     (present_values
        (map phoneNumber (the_primary p group ++ the_secondaries p group))),
   map id (the_secondaries p group)).
Proof.
  intros Hprim. unfold view, split_primary.
  rewrite split_primary_fold. cbn [app].
  assert (Hnil : forall l : list string,
             filter (fun y => negb (existsb (String.eqb y) [])) l = l).
  { intros l. apply forallb_filter_id, forallb_forall. reflexivity. }
  destruct Hprim as [->|(c & ->)]; cbn [rev app].
  - rewrite fold_collect_info, !fold_append_new, !Hnil. reflexivity.
  - unfold collect_info at 2. cbn [fst snd].
    rewrite fold_collect_info.
    change (fold_left (fun acc v => append_new v acc)
                      (map email (the_secondaries p group))
                      (append_new (email c) []))
      with (fold_left (fun acc v => append_new v acc)
                      (map email (c :: the_secondaries p group)) []).
    change (fold_left (fun acc v => append_new v acc)
                      (map phoneNumber (the_secondaries p group))
                      (append_new (phoneNumber c) []))
      with (fold_left (fun acc v => append_new v acc)
                      (map phoneNumber (c :: the_secondaries p group)) []).
    rewrite !fold_append_new, !Hnil. reflexivity.
Qed.

End View.

(** * The rest of the service *)

(** ** The queries *)

Lemma sql_eq_str_true (col param : option string) :
  sql_eq_str col param = true <-> exists s, param = Some s /\ col = Some s.
Proof.
  destruct col as [x|], param as [y|]; simpl; split;
    try discriminate; try (intros (s & H1 & H2); discriminate).
  - intros H. apply String.eqb_eq in H. subst. now exists y.
  - intros (s & H1 & H2). injection H1 as <-. injection H2 as <-.
    apply String.eqb_refl.
Qed.

Lemma sql_eq_int_true (col param : option Z) :
  sql_eq_int col param = true <-> exists q, param = Some q /\ col = Some q.
Proof.
  destruct col as [x|], param as [y|]; simpl; split;
    try discriminate; try (intros (s & H1 & H2); discriminate).
  - intros H. apply Z.eqb_eq in H. subst. now exists y.
  - intros (s & H1 & H2). injection H1 as <-. injection H2 as <-.
    apply Z.eqb_refl.
Qed.

Lemma active_true (c : Contact) : active c = true <-> deletedAt c = None.
Proof. unfold active. destruct (deletedAt c); split; congruence. Qed.

Lemma matches_email_or_phone_true e p c :
  matches_email_or_phone e p c = true <->
  deletedAt c = None /\
  ((exists s, e = Some s /\ email c = Some s) \/
   (exists s, p = Some s /\ phoneNumber c = Some s)).
Proof.
  unfold matches_email_or_phone.
  now rewrite andb_true_iff, orb_true_iff, active_true, !sql_eq_str_true.
Qed.

Lemma linked_to_true pid c :
  linked_to pid c = true <->
  deletedAt c = None /\
  exists q, pid = Some q /\ (id c = q \/ linkedId c = Some q).
Proof.
  unfold linked_to.
  rewrite andb_true_iff, orb_true_iff, active_true, !sql_eq_int_true.
  split; intros [Hd H]; split; try exact Hd.
  - destruct H as [(q & Hq & Hid)|(q & Hq & Hl)]; exists q; split; auto.
    left. congruence.
  - destruct H as (q & Hq & [Hid|Hl]); [left|right]; exists q; split; auto.
    congruence.
Qed.

Lemma NoDup_order_by {A} (key : A -> Z) (l : list A) :
  NoDup l -> NoDup (order_by key l).
Proof.
  intros H. eapply Permutation_NoDup; [|exact H].
  apply Permutation_sym, order_by_perm.
Qed.

(** X1.  The match query is a read: it changes nothing but the log.  Its
    rows come in ascending [createdAt] order and are exactly the rows of the
    table that are not soft-deleted and whose email is the given email or
    whose phone number is the given phone number.  An absent parameter
    matches no row, not even one whose column is NULL, so the query with
    both parameters absent returns nothing.  A table without repeated rows
    gives a result without repeated rows. *)
Theorem match_query_rows (e p : option string) (w : World) :
  exists l,
    get_contacts_by_email_or_phone e p w =
      (inr l, logged w [SelectByEmailOrPhone e p]) /\
    StronglySorted (key_le createdAt) l /\
    (forall c, In c l <->
       In c (rows w) /\ deletedAt c = None /\
       ((exists s, e = Some s /\ email c = Some s) \/
        (exists s, p = Some s /\ phoneNumber c = Some s))) /\
    (NoDup (rows w) -> NoDup l) /\
    (e = None -> p = None -> l = []).
Proof.
  exists (select_matches e p (rows w)).
  split; [reflexivity|]. split; [apply order_by_sorted|].
  split; [|split].
  - intros c. unfold select_matches.
    now rewrite order_by_In, filter_In, matches_email_or_phone_true.
  - intros H. now apply NoDup_order_by, NoDup_filter.
  - intros -> ->. unfold select_matches.
    assert (H : filter (matches_email_or_phone None None) (rows w) = []).
    { induction (rows w) as [|c t IH]; simpl; [reflexivity|].
      unfold matches_email_or_phone at 1.
      destruct (email c), (phoneNumber c); simpl;
        rewrite andb_false_r; exact IH. }
    now rewrite H.
Qed.

(** X2.  The group query is a read as well.  Its rows come in ascending
    [createdAt] order and are exactly the rows that are not soft-deleted and
    whose id or whose [linkedId] is the given id; with no id it returns
    nothing, rows with a NULL [linkedId] included. *)
Theorem group_query_rows (pid : option Z) (w : World) :
  exists l,
    get_all_linked_contacts pid w = (inr l, logged w [SelectLinked pid]) /\
    StronglySorted (key_le createdAt) l /\
    (forall c, In c l <->
       In c (rows w) /\ deletedAt c = None /\
       exists q, pid = Some q /\ (id c = q \/ linkedId c = Some q)) /\
    (NoDup (rows w) -> NoDup l) /\
    (pid = None -> l = []).
Proof.
  exists (group_of pid (rows w)).
  split; [reflexivity|]. split; [apply order_by_sorted|].
  split; [|split].
  - intros c. unfold group_of.
    now rewrite order_by_In, filter_In, linked_to_true.
  - intros H. now apply NoDup_order_by, NoDup_filter.
  - intros ->. unfold group_of.
    assert (H : filter (linked_to None) (rows w) = []).
    { induction (rows w) as [|c t IH]; simpl; [reflexivity|].
      unfold linked_to at 1. destruct (linkedId c); simpl;
        rewrite andb_false_r; exact IH. }
    now rewrite H.
Qed.

(** X3.  The debug listing leaves the world as it is and returns, in
    ascending [createdAt] order, the rows that are not soft-deleted, each as
    often as the table has it.  Every row the two queries of the engine can
    return is in the listing. *)
Theorem debug_listing_rows (w : World) :
  exists l,
    get_all_contacts w = (inr l, w) /\
    StronglySorted (key_le createdAt) l /\
    Permutation l (filter active (rows w)) /\
    (forall c, In c l <-> In c (rows w) /\ deletedAt c = None) /\
    (forall e p c, In c (select_matches e p (rows w)) -> In c l) /\
    (forall pid c, In c (group_of pid (rows w)) -> In c l).
Proof.
  exists (select_active (rows w)).
  assert (Hin : forall c, In c (select_active (rows w)) <->
                          In c (rows w) /\ deletedAt c = None).
  { intros c. unfold select_active.
    now rewrite order_by_In, filter_In, active_true. }
  split; [reflexivity|]. split; [apply order_by_sorted|].
  split; [apply order_by_perm|]. split; [exact Hin|]. split.
  - intros e p c H. apply Hin. unfold select_matches in H.
    rewrite order_by_In, filter_In, matches_email_or_phone_true in H. tauto.
  - intros pid c H. apply Hin. unfold group_of in H.
    rewrite order_by_In, filter_In, linked_to_true in H. tauto.
Qed.

(** ** [find_primary_contact_id] *)

Lemma find_first {A} (f : A -> bool) (l : list A) (x : A) :
  find f l = Some x ->
  exists before after,
    l = before ++ x :: after /\ f x = true /\
    forall b, In b before -> f b = false.
Proof.
  induction l as [|y l IH]; simpl; [discriminate|].
  destruct (f y) eqn:E.
  - intros H. injection H as <-. exists [], l. repeat split; auto.
    intros b [].
  - intros H. destruct (IH H) as (b & a & -> & Hx & Hb).
    exists (y :: b), a. repeat split; auto.
    intros z [<-|Hz]; auto.
Qed.

Lemma Precedence_eqb_primary (c : Contact) :
  Precedence_eqb (linkPrecedence c) primary = true <->
  linkPrecedence c = primary.
Proof. destruct (linkPrecedence c); simpl; split; congruence. Qed.

Lemma Precedence_eqb_secondary (c : Contact) :
  Precedence_eqb (linkPrecedence c) primary = false <->
  linkPrecedence c = secondary.
Proof. destruct (linkPrecedence c); simpl; split; congruence. Qed.

(** X4.  [find_primary_contact_id] raises [ValueError] on the empty list
    and on no other.  On a list with a primary it returns the id of the
    first primary.  On a non-empty list without primary it returns the id of
    the first contact of least [createdAt]: the contacts before it are
    strictly younger, none after it is older. *)
Theorem find_primary_contact_id_spec (contacts : list Contact) :
  (find_primary_contact_id contacts = inl ValueError <-> contacts = []) /\
  (forall err, find_primary_contact_id contacts = inl err ->
               err = ValueError) /\
  (forall i, find_primary_contact_id contacts = inr i ->
     exists before c after,
       contacts = before ++ c :: after /\ id c = i /\
       (forall b, In b before -> linkPrecedence b = secondary) /\
       (linkPrecedence c = primary \/
        ((forall x, In x contacts -> linkPrecedence x = secondary) /\
         (forall b, In b before -> createdAt c < createdAt b) /\
         (forall a, In a after -> createdAt c <= createdAt a)))).
Proof.
  unfold find_primary_contact_id.
  destruct (find (fun c => Precedence_eqb (linkPrecedence c) primary) contacts)
    as [c|] eqn:Ef.
  - split; [|split].
    + split; [discriminate|]. intros ->. discriminate.
    + intros err H. discriminate.
    + intros i H. injection H as <-.
      destruct (find_first _ _ _ Ef) as (b & a & Heq & Hc & Hb).
      exists b, c, a. repeat split; auto.
      * intros x Hx. now apply Precedence_eqb_secondary, Hb.
      * left. now apply Precedence_eqb_primary.
  - pose proof (find_none _ _ Ef) as Hall.
    destruct contacts as [|c0 cs]; cbn [oldest_of].
    + split; [|split].
      * split; reflexivity.
      * intros err H. now injection H as <-.
      * intros i H. discriminate.
    + split; [|split].
      * split; discriminate.
      * intros err H. discriminate.
      * intros i H. injection H as <-.
        destruct (py_min_first Contact createdAt c0 cs)
          as (b & a & Heq & Hb & Ha).
        exists b, (py_min createdAt c0 cs), a.
        assert (Hsec : forall x, In x (c0 :: cs) -> linkPrecedence x = secondary).
        { intros x Hx. now apply Precedence_eqb_secondary, Hall. }
        repeat split; auto.
        intros x Hx. apply Hsec. rewrite Heq. apply in_or_app. now left.
Qed.

(** X5.  On a table where no primary has a [linkedId],
    [find_primary_contact_id] gives back the root a group was expanded
    from: for an active primary of id [p], the function applied to the
    result of the group query for [p] returns [p].  Nothing is asked of the
    secondaries of the table. *)
Theorem find_primary_of_group (table : list Contact) (root : Contact) :
  (forall c, In c table -> linkPrecedence c = primary -> linkedId c = None) ->
  In root table -> deletedAt root = None -> linkPrecedence root = primary ->
  find_primary_contact_id (group_of (Some (id root)) table) = inr (id root).
Proof.
  intros Hwl Hin Hact Hprim. unfold find_primary_contact_id.
  set (g := group_of (Some (id root)) table).
  assert (Hroot : In root g).
  { unfold g, group_of. apply order_by_In, filter_In. split; [exact Hin|].
    apply linked_to_true. split; [exact Hact|]. exists (id root). auto. }
  destruct (find (fun c => Precedence_eqb (linkPrecedence c) primary) g)
    as [c|] eqn:Ef.
  - apply find_some in Ef as [Hc Hp]. apply Precedence_eqb_primary in Hp.
    unfold g, group_of in Hc.
    rewrite order_by_In, filter_In, linked_to_true in Hc.
    destruct Hc as (Hct & _ & q & Hq & [Hid|Hl]); injection Hq as <-.
    + now rewrite Hid.
    + specialize (Hwl c Hct Hp). congruence.
  - pose proof (find_none _ _ Ef root Hroot) as Hno.
    apply Precedence_eqb_secondary in Hno. congruence.
Qed.

(** The statement above on [Dangling.world_with_stranger], a table whose
    secondary is linked to no row, for its primary. *)
Lemma find_primary_of_group_witness :
  find_primary_contact_id
    (group_of (Some 2) (rows Dangling.world_with_stranger)) = inr 2.
Proof.
  refine (find_primary_of_group (rows Dangling.world_with_stranger)
            Dangling.stranger _ _ eq_refl eq_refl).
  - intros c Hc. simpl in Hc.
    destruct Hc as [<-|[<-|[]]]; simpl; [discriminate | reflexivity].
  - simpl. right. left. reflexivity.
Defined.

(** ** The two writes *)

Lemma lookup_fresh (q : Z) (table extra : list Contact) :
  (forall x, In x table -> id x <> q) ->
  lookup (Some q) (table ++ extra) = lookup (Some q) extra.
Proof.
  intros H. unfold lookup. induction table as [|x t IH]; [reflexivity|].
  cbn [app find sql_eq_int].
  assert (E : (id x =? q) = false) by (apply Z.eqb_neq, H; now left).
  rewrite E. apply IH. intros y Hy. apply H. now right.
Qed.

Lemma max_rowid_map (f : Contact -> Contact) (table : list Contact) :
  (forall c, id (f c) = id c) -> max_rowid (map f table) = max_rowid table.
Proof.
  intros Hid. induction table as [|x t IH]; simpl; [reflexivity|].
  now rewrite Hid, IH.
Qed.

Lemma NoDup_ids_fresh (table : list Contact) (c : Contact) :
  NoDup (map id table) -> max_rowid table < id c ->
  NoDup (map id (table ++ [c])).
Proof.
  intros Hnd Hlt. rewrite map_app. simpl.
  apply NoDup_app; [exact Hnd | repeat constructor; intros [] |].
  intros i Hi [<-|[]]. apply in_map_iff in Hi as (x & Hx & Hin).
  pose proof (max_rowid_ge _ _ Hin). lia.
Qed.

Section Writes.

Context `{RT : Runtime}.

(** X6.  [create_contact] appends one row and returns its id.  The row has
    the given email, phone number, [linkedId] and precedence, is not
    soft-deleted, and its two timestamps are the same reading of the clock.
    Its id is larger than every id in the table and than the rowid counter,
    which it becomes.  The row is found under its id afterwards, every row
    found by id before is still found unchanged, and distinct ids stay
    distinct. *)
Theorem create_contact_appends_fresh_row (e p : option string)
    (linked_id : option Z) (prec : Precedence) (w : World) :
  exists c w',
    create_contact e p linked_id prec w = (inr (id c), w') /\
    rows w' = rows w ++ [c] /\
    email c = e /\ phoneNumber c = p /\ linkedId c = linked_id /\
    linkPrecedence c = prec /\ deletedAt c = None /\
    createdAt c = clock (ticks w) /\ updatedAt c = clock (ticks w) /\
    (forall x, In x (rows w) -> id x < id c) /\
    seq w < id c /\ seq w' = id c /\ ticks w' = S (ticks w) /\
    writes w' = writes w ++ [Insert (id c)] /\
    lookup (Some (id c)) (rows w') = Some c /\
    (forall q x, lookup q (rows w) = Some x -> lookup q (rows w') = Some x) /\
    (NoDup (map id (rows w)) -> NoDup (map id (rows w'))).
Proof.
  exists (new_row e p linked_id prec w). eexists.
  split; [apply create_contact_eq|]. cbn [rows seq ticks].
  assert (Hlt : forall x, In x (rows w) ->
                          id x < id (new_row e p linked_id prec w)).
  { intros x Hx. pose proof (max_rowid_ge _ _ Hx).
    unfold new_row. cbn [id]. lia. }
  repeat split; auto.
  - unfold new_row. cbn [id]. lia.
  - unfold writes. cbn [trace]. rewrite filter_app. reflexivity.
  - rewrite lookup_fresh.
    + unfold lookup. cbn [find sql_eq_int]. now rewrite Z.eqb_refl.
    + intros x Hx. specialize (Hlt x Hx). lia.
  - intros q x Hq. now apply lookup_app_l.
  - intros Hnd. apply NoDup_ids_fresh; [exact Hnd|].
    unfold new_row. cbn [id]. lia.
Qed.

(** X7.  [update_contact_to_secondary] keeps the rows in place with their
    ids, emails, phone numbers, [createdAt] and [deletedAt]: a row of the
    given id becomes a secondary of the given primary with the clock reading
    as [updatedAt], and every other row is left as it is.  When no row has
    the given id the table is unchanged.  The rowid counter is not touched
    and exactly one write is logged. *)
Theorem update_changes_one_id (contact_id primary_id : Z) (w : World) :
  exists w',
    update_contact_to_secondary contact_id primary_id w = (inr tt, w') /\
    map id (rows w') = map id (rows w) /\
    map email (rows w') = map email (rows w) /\
    map phoneNumber (rows w') = map phoneNumber (rows w) /\
    map createdAt (rows w') = map createdAt (rows w) /\
    map deletedAt (rows w') = map deletedAt (rows w) /\
    (forall q x, lookup q (rows w) = Some x ->
       lookup q (rows w') =
       Some (if id x =? contact_id
             then demoted primary_id (clock (ticks w)) x else x)) /\
    (forall x, In x (rows w) -> id x <> contact_id -> In x (rows w')) /\
    ((forall x, In x (rows w) -> id x <> contact_id) -> rows w' = rows w) /\
    seq w' = seq w /\ ticks w' = S (ticks w) /\
    writes w' = writes w ++ [Update contact_id].
Proof.
  set (g := fun c => if id c =? contact_id
                     then demoted primary_id (clock (ticks w)) c else c).
  exists (mkWorld (map g (rows w)) (seq w)
                  (trace w ++ [Update contact_id]) (S (ticks w))).
  assert (Hg : forall (A : Type) (col : Contact -> A),
             (forall t c, col (demoted primary_id t c) = col c) ->
             map col (map g (rows w)) = map col (rows w)).
  { intros A col Hcol. rewrite map_map. apply map_ext. intros c.
    unfold g. destruct (id c =? contact_id); [apply Hcol | reflexivity]. }
  cbn [rows seq ticks].
  split; [reflexivity|].
  split; [now apply Hg|]. split; [now apply Hg|]. split; [now apply Hg|].
  split; [now apply Hg|]. split; [now apply Hg|].
  split; [|split; [|split; [|split; [|split]]]]; try reflexivity.
  - intros q x Hq. rewrite lookup_map.
    + now rewrite Hq.
    + intros c. unfold g. now destruct (id c =? contact_id).
  - intros x Hx Hne. apply in_map_iff. exists x. split; [|exact Hx].
    unfold g. apply Z.eqb_neq in Hne. now rewrite Hne.
  - intros Hnone. rewrite <- (map_id (rows w)) at 2.
    apply map_ext_in. intros c Hc. unfold g.
    specialize (Hnone c Hc). apply Z.eqb_neq in Hnone. now rewrite Hnone.
  - unfold writes. cbn [trace]. rewrite filter_app. reflexivity.
Qed.

End Writes.

(** ** What a response holds *)

Lemma first_occurrences_In (l : list string) (s : string) :
  In s (first_occurrences l) <-> In s l.
Proof.
  induction l as [|x l IH]; simpl; [reflexivity|].
  rewrite filter_In, IH, negb_true_iff, String.eqb_neq.
  destruct (string_dec x s) as [->|Hne]; tauto.
Qed.

Lemma present_values_In (l : list (option string)) (s : string) :
  In s (present_values l) <-> In (Some s) l /\ s <> EmptyString.
Proof.
  unfold present_values. rewrite in_flat_map. split.
  - intros (v & Hv & Hs). destruct v as [x|]; simpl in Hs; [|destruct Hs].
    destruct (String.eqb x EmptyString) eqn:E; simpl in Hs; [destruct Hs|].
    destruct Hs as [<-|[]]. split; [exact Hv|]. now apply String.eqb_neq.
  - intros [Hin Hne]. exists (Some s). split; [exact Hin|].
    simpl. apply String.eqb_neq in Hne. rewrite Hne. now left.
Qed.

(** The first loop splits the group without losing a row other than a
    repeated primary. *)
Lemma view_shape (p : Z) (group : list Contact) :
  exists prim,
    (forall c, In c prim -> In c (the_primary p group)) /\
    view (Some p) group =
    (first_occurrences
       (present_values (map email (prim ++ the_secondaries p group))),
     first_occurrences
       (present_values (map phoneNumber (prim ++ the_secondaries p group))),
     map id (the_secondaries p group)).
Proof.
  unfold view, split_primary. rewrite split_primary_fold. cbn [app].
  assert (Hnil : forall l : list string,
             filter (fun y => negb (existsb (String.eqb y) [])) l = l).
  { intros l. apply forallb_filter_id, forallb_forall. reflexivity. }
  destruct (rev (the_primary p group)) as [|c t] eqn:Er.
  - exists []. split; [intros c []|].
    rewrite fold_collect_info, !fold_append_new, !Hnil. reflexivity.
  - exists [c]. split.
    + intros x [<-|[]]. apply in_rev. rewrite Er. now left.
    + unfold collect_info at 2. cbn [fst snd app].
      rewrite fold_collect_info.
      change (fold_left (fun acc v => append_new v acc)
                        (map email (the_secondaries p group))
                        (append_new (email c) []))
        with (fold_left (fun acc v => append_new v acc)
                        (map email (c :: the_secondaries p group)) []).
      change (fold_left (fun acc v => append_new v acc)
                        (map phoneNumber (the_secondaries p group))
                        (append_new (phoneNumber c) []))
        with (fold_left (fun acc v => append_new v acc)
                        (map phoneNumber (c :: the_secondaries p group)) []).
      rewrite !fold_append_new, !Hnil. reflexivity.
Qed.

Lemma group_member (p : Z) (table : list Contact) (c : Contact) :
  In c (group_of (Some p) table) <->
  In c table /\ deletedAt c = None /\ (id c = p \/ linkedId c = Some p).
Proof.
  unfold group_of. rewrite order_by_In, filter_In, linked_to_true.
  split.
  - intros (Hin & Hd & q & Hq & H). injection Hq as <-. auto.
  - intros (Hin & Hd & H). repeat split; auto. now exists p.
Qed.

Lemma split_group_member (p : Z) (group : list Contact) (c : Contact) :
  In c (the_primary p group ++ the_secondaries p group) <-> In c group.
Proof.
  unfold the_primary, the_secondaries.
  rewrite in_app_iff, !filter_In, negb_true_iff.
  destruct (id c =? p); intuition congruence.
Qed.

Lemma the_secondaries_member (p : Z) (table : list Contact) (c : Contact) :
  In c (the_secondaries p (group_of (Some p) table)) <->
  In c table /\ deletedAt c = None /\ linkedId c = Some p /\ id c <> p.
Proof.
  unfold the_secondaries.
  rewrite filter_In, group_member, negb_true_iff, Z.eqb_neq. tauto.
Qed.

(** X8.  Whatever the table holds, [consolidate_contacts] only reads.
    Without an id it raises the validation error of the response model.
    For an id [p] it returns a response for [p] whose emails and phone
    numbers are without repetition and without the empty string, each the
    value of an active row that has the id [p] or the [linkedId] [p]; [p] is
    not among the secondary ids, each of which is the id of an active row
    with [linkedId] [p]. *)
Theorem response_is_well_formed (p : Z) (w : World) :
  exec (consolidate_contacts None) w = logged w [SelectLinked None] /\
  result (consolidate_contacts None) w = inl ValidationError /\
  exec (consolidate_contacts (Some p)) w = logged w [SelectLinked (Some p)] /\
  exists resp,
    result (consolidate_contacts (Some p)) w = inr resp /\
    primaryContatctId resp = p /\
    NoDup (emails resp) /\ NoDup (phoneNumbers resp) /\
    ~ In EmptyString (emails resp) /\ ~ In EmptyString (phoneNumbers resp) /\
    ~ In p (secondaryContactIds resp) /\
    (forall s, In s (emails resp) ->
       exists c, In c (rows w) /\ deletedAt c = None /\
                 (id c = p \/ linkedId c = Some p) /\ email c = Some s) /\
    (forall s, In s (phoneNumbers resp) ->
       exists c, In c (rows w) /\ deletedAt c = None /\
                 (id c = p \/ linkedId c = Some p) /\ phoneNumber c = Some s) /\
    (forall i, In i (secondaryContactIds resp) ->
       exists c, In c (rows w) /\ deletedAt c = None /\
                 linkedId c = Some p /\ id c = i).
Proof.
  unfold exec, result.
  rewrite consolidate_contacts_None, consolidate_contacts_eq. cbn [fst snd].
  repeat split.
  exists (project p (rows w)). split; [reflexivity|].
  unfold project. set (g := group_of (Some p) (rows w)).
  destruct (view_shape p g) as (prim & Hprim & ->).
  cbn [fst snd primaryContatctId emails phoneNumbers secondaryContactIds].
  assert (Hmem : forall c, In c (prim ++ the_secondaries p g) ->
                 In c (rows w) /\ deletedAt c = None /\
                 (id c = p \/ linkedId c = Some p)).
  { intros c Hc. apply (proj1 (group_member p (rows w) c)). fold g.
    apply (proj1 (split_group_member p g c)).
    apply in_app_or in Hc as [Hc|Hc];
      apply in_or_app; [left; now apply Hprim | now right]. }
  repeat split; try apply first_occurrences_NoDup.
  - intros H. apply first_occurrences_In, present_values_In in H. tauto.
  - intros H. apply first_occurrences_In, present_values_In in H. tauto.
  - intros H. apply in_map_iff in H as (c & Hid & Hc).
    apply the_secondaries_member in Hc. tauto.
  - intros s H. apply first_occurrences_In, present_values_In in H.
    destruct H as [H _]. apply in_map_iff in H as (c & He & Hc).
    exists c. destruct (Hmem c Hc) as (H1 & H2 & H3). auto.
  - intros s H. apply first_occurrences_In, present_values_In in H.
    destruct H as [H _]. apply in_map_iff in H as (c & He & Hc).
    exists c. destruct (Hmem c Hc) as (H1 & H2 & H3). auto.
  - intros i H. apply in_map_iff in H as (c & Hid & Hc).
    apply the_secondaries_member in Hc. exists c. tauto.
Qed.

(** The emails and the secondary ids of a projection under the primary
    key. *)
Lemma project_members (p : Z) (table : list Contact) :
  NoDup (map id table) ->
  (forall s, In s (emails (project p table)) <->
     s <> EmptyString /\
     exists c, In c table /\ deletedAt c = None /\
               (id c = p \/ linkedId c = Some p) /\ email c = Some s) /\
  (forall s, In s (phoneNumbers (project p table)) <->
     s <> EmptyString /\
     exists c, In c table /\ deletedAt c = None /\
               (id c = p \/ linkedId c = Some p) /\ phoneNumber c = Some s) /\
  (forall i, In i (secondaryContactIds (project p table)) <->
     i <> p /\
     exists c, In c table /\ deletedAt c = None /\
               linkedId c = Some p /\ id c = i) /\
  NoDup (secondaryContactIds (project p table)).
Proof.
  intros Hkey. unfold project. set (g := group_of (Some p) table).
  assert (Hg : NoDup (map id g)).
  { unfold g, group_of. eapply Permutation_NoDup.
    - apply Permutation_sym, Permutation_map, order_by_perm.
    - now apply NoDup_map_filter. }
  rewrite (view_eq p g (the_primary_unique p g Hg)).
  cbn [fst snd emails phoneNumbers secondaryContactIds].
  assert (Hcol : forall (col : Contact -> option string) s,
             In s (first_occurrences
                     (present_values
                        (map col (the_primary p g ++ the_secondaries p g)))) <->
             s <> EmptyString /\
             exists c, In c table /\ deletedAt c = None /\
                       (id c = p \/ linkedId c = Some p) /\ col c = Some s).
  { intros col s.
    rewrite first_occurrences_In, present_values_In, in_map_iff. split.
    - intros [(c & Hc & Hin) Hne]. split; [exact Hne|]. exists c.
      apply split_group_member, group_member in Hin. tauto.
    - intros [Hne (c & Hin & Hd & Hl & Hc)]. split; [|exact Hne].
      exists c. split; [exact Hc|].
      apply split_group_member, group_member. tauto. }
  split; [apply Hcol|]. split; [apply Hcol|]. split.
  - intros i. rewrite in_map_iff. split.
    + intros (c & Hid & Hc). apply the_secondaries_member in Hc.
      split; [intuition congruence|]. exists c. tauto.
    + intros [Hne (c & Hin & Hd & Hl & Hid)]. exists c. split; [exact Hid|].
      apply the_secondaries_member. intuition congruence.
  - unfold the_secondaries. now apply NoDup_map_filter.
Qed.

(** X9.  Under the primary key the response for [p] misses nothing: its
    emails are exactly the non-empty emails of the active rows with id [p]
    or [linkedId] [p], its phone numbers exactly their non-empty phone
    numbers, and its secondary ids, each listed once, exactly the ids other
    than [p] of the active rows with [linkedId] [p]. *)
Theorem response_lists_whole_group (p : Z) (w : World) :
  NoDup (map id (rows w)) ->
  exists resp,
    result (consolidate_contacts (Some p)) w = inr resp /\
    (forall s, In s (emails resp) <->
       s <> EmptyString /\
       exists c, In c (rows w) /\ deletedAt c = None /\
                 (id c = p \/ linkedId c = Some p) /\ email c = Some s) /\
    (forall s, In s (phoneNumbers resp) <->
       s <> EmptyString /\
       exists c, In c (rows w) /\ deletedAt c = None /\
                 (id c = p \/ linkedId c = Some p) /\
                 phoneNumber c = Some s) /\
    (forall i, In i (secondaryContactIds resp) <->
       i <> p /\
       exists c, In c (rows w) /\ deletedAt c = None /\
                 linkedId c = Some p /\ id c = i) /\
    NoDup (secondaryContactIds resp).
Proof.
  intros Hkey. exists (project p (rows w)).
  unfold result. rewrite consolidate_contacts_eq.
  split; [reflexivity | now apply project_members].
Qed.

(** The statement above for the root 1 of [Scenario.four]. *)
Lemma response_lists_whole_group_witness :
  let p := 1 in
  let w := Scenario.four in
  exists resp,
    result (consolidate_contacts (Some p)) w = inr resp /\
    (forall s, In s (emails resp) <->
       s <> EmptyString /\
       exists c, In c (rows w) /\ deletedAt c = None /\
                 (id c = p \/ linkedId c = Some p) /\ email c = Some s) /\
    (forall s, In s (phoneNumbers resp) <->
       s <> EmptyString /\
       exists c, In c (rows w) /\ deletedAt c = None /\
                 (id c = p \/ linkedId c = Some p) /\
                 phoneNumber c = Some s) /\
    (forall i, In i (secondaryContactIds resp) <->
       i <> p /\
       exists c, In c (rows w) /\ deletedAt c = None /\
                 linkedId c = Some p /\ id c = i) /\
    NoDup (secondaryContactIds resp).
Proof.
  refine (response_lists_whole_group 1 Scenario.four _).
  simpl. repeat constructor; simpl; intuition lia.
Defined.

(** ** Every way through [identify] *)

Lemma set_add_In (x y : option Z) (s : list (option Z)) :
  In y (set_add x s) <-> y = x \/ In y s.
Proof.
  unfold set_add. destruct (existsb (opt_Z_eqb x) s) eqn:E.
  - split; [now right|]. intros [->|H]; [|exact H].
    apply existsb_exists in E as (z & Hz & Heq).
    destruct x as [a|], z as [b|]; simpl in Heq; try discriminate;
      [apply Z.eqb_eq in Heq; now subst | exact Hz].
  - rewrite in_app_iff. simpl. intuition.
Qed.

Lemma fold_set_add_In (existing : list Contact) (s : list (option Z))
    (r : option Z) :
  In r (fold_left (fun s c => set_add (root_of c) s) existing s) <->
  In r s \/ exists c, In c existing /\ root_of c = r.
Proof.
  revert s; induction existing as [|x l IH]; intros s; simpl.
  - split; [now left|]. intros [H|(c & [] & _)]. exact H.
  - rewrite IH, set_add_In. split.
    + intros [[->|H]|(c & Hc & Hr)]; auto.
      * right. exists x. auto.
      * right. exists c. auto.
    + intros [H|(c & [<-|Hc] & Hr)]; auto.
      right. exists c. auto.
Qed.

(** The roots are the [root_of] of the matched rows. *)
Lemma roots_In (existing : list Contact) (r : option Z) :
  In r (roots existing) <-> exists c, In c existing /\ root_of c = r.
Proof.
  unfold roots. rewrite fold_set_add_In. simpl. tauto.
Qed.

Lemma roots_nonempty (x : Contact) (l : list Contact) : roots (x :: l) <> [].
Proof.
  intros H. assert (Hin : In (root_of x) (roots (x :: l))).
  { apply roots_In. exists x. split; [now left | reflexivity]. }
  rewrite H in Hin. destruct Hin.
Qed.

Lemma reads_of_roots (existing : list Contact) :
  forallb (fun a => negb (is_write a))
          (map (fun c => SelectLinked (root_of c)) existing) = true.
Proof.
  apply forallb_forall. intros a Ha.
  apply in_map_iff in Ha as (c & <- & _). reflexivity.
Qed.

Section Ways.

Context `{RT : Runtime}.

(** The five ways [resolve_primary] can end. *)
Lemma resolve_primary_cases (existing : list Contact) (w : World) :
  let rs := roots existing in
  let w0 := logged w (map (fun c => SelectLinked (root_of c)) existing) in
  ((1 < List.length rs)%nat /\
   exists m f w1,
     resolve_primary existing w = (inr (Some (id m)), w1) /\
     In (Some (id m)) (set_iter rs) /\
     lookup (Some (id m)) (rows w) = Some m /\
     roots_exist (set_iter rs) (rows w) = true /\
     rows w1 = map f (rows w) /\ seq w1 = seq w /\
     (ticks w <= ticks w1)%nat /\
     (forall c, id (f c) = id c) /\
     (forall c, f c = c \/
                (In (Some (id c)) (set_iter rs) /\
                 exists k, f c = demoted (id m) (clock k) c))) \/
  ((1 < List.length rs)%nat /\
   roots_exist (set_iter rs) (rows w) = false /\
   exists l, resolve_primary existing w = (inl TypeError, logged w l) /\
             forallb (fun a => negb (is_write a)) l = true) \/
  ((1 < List.length rs)%nat /\ set_iter rs = [] /\
   exists l, resolve_primary existing w = (inl ValueError, logged w l) /\
             forallb (fun a => negb (is_write a)) l = true) \/
  ((List.length rs <= 1)%nat /\
   exists P t, set_iter rs = P :: t /\
               resolve_primary existing w = (inr P, w0)) \/
  ((List.length rs <= 1)%nat /\ set_iter rs = [] /\
   resolve_primary existing w = (inl IndexError, w0)).
Proof.
  intros rs w0. rewrite resolve_primary_eq. fold rs w0.
  destruct (1 <? List.length rs)%nat eqn:Elen.
  - apply Nat.ltb_lt in Elen.
    destruct (roots_exist (set_iter rs) (rows w)) eqn:Eex.
    + destruct (fetch_all_found (set_iter rs) w0) as (cs & Hfetch & HF).
      { intros pid Hpid Hnone. unfold roots_exist in Eex.
        rewrite forallb_forall in Eex. specialize (Eex pid Hpid).
        change (rows w0) with (rows w) in Hnone. now rewrite Hnone in Eex. }
      destruct (fetched_rows _ _ _ HF) as [Hpids Hself].
      change (rows w0) with (rows w) in Hself.
      destruct cs as [|c0 cs].
      * right. right. left. split; [exact Elen|]. split; [exact Hpids|].
        exists (map (fun c => SelectLinked (root_of c)) existing
                ++ map SelectById (set_iter rs)).
        split.
        -- unfold merge_primaries, bind. rewrite Hfetch. cbn [oldest_of].
           unfold raise, w0. now rewrite logged_logged.
        -- rewrite forallb_app, reads_of_roots, Hpids. reflexivity.
      * left. split; [exact Elen|].
        set (m := py_min createdAt c0 cs).
        assert (Hm : In m (c0 :: cs)) by apply py_min_In.
        destruct (demote_loop (id m) (c0 :: cs)
                              (logged w0 (map SelectById (set_iter rs))))
          as (f & w1 & Hloop & Hrows & Hseq & Ht & Hid & Hsame & Hdem).
        exists m, f, w1. cbn [rows seq ticks logged] in *.
        split; [|split; [|split; [|split; [|split; [|split; [|split;
          [|split]]]]]]]; auto.
        -- unfold merge_primaries, bind at 1. rewrite Hfetch.
           cbn [oldest_of]. fold m. unfold bind. rewrite Hloop. reflexivity.
        -- rewrite Hpids. apply in_map_iff. now exists m.
        -- intros c.
           destruct (Z.eq_dec (id c) (id m)) as [E|E]; [left; auto|].
           destruct (in_dec Z.eq_dec (id c) (map id (c0 :: cs))) as [Hi|Hi].
           ++ right. split.
              ** rewrite Hpids. apply in_map_iff in Hi as (y & Hy & Hin').
                 apply in_map_iff. exists y. split; [now rewrite Hy | exact Hin'].
              ** destruct (Hdem c E Hi) as (k & _ & Hk). now exists k.
           ++ left. auto.
    + right. left. split; [exact Elen|]. split; [reflexivity|].
      destruct (roots_exist_false _ _ Eex) as (r & Hr & Hn).
      destruct (fetch_all_missing (set_iter rs) w0) as (l & Hl & Hreads).
      { exists r. split; [exact Hr | exact Hn]. }
      exists (map (fun c => SelectLinked (root_of c)) existing ++ l).
      split.
      * unfold merge_primaries, bind. rewrite Hl.
        unfold w0. now rewrite logged_logged.
      * now rewrite forallb_app, reads_of_roots.
  - apply Nat.ltb_ge in Elen. right. right. right.
    destruct (set_iter rs) as [|P t] eqn:Es.
    + right. repeat split; auto.
    + left. split; [exact Elen|]. exists P, t. split; reflexivity.
Qed.

(** The new-information check and the projection, from any world. *)
Lemma finish_cases e p (P : option Z) (w : World) :
  let extra :=
    if has_new_info e p (group_of P (rows w))
    then [new_row e p P secondary w] else [] in
  let fin := (add_new_information e p P ;;; consolidate_contacts P) w in
  rows (snd fin) = rows w ++ extra /\
  (seq w <= seq (snd fin)) /\ (ticks w <= ticks (snd fin))%nat /\
  fst fin = match P with
            | Some s => inr (project s (rows w ++ extra))
            | None => inl ValidationError
            end.
Proof.
  cbv zeta. unfold bind. rewrite add_new_information_eq.
  destruct (has_new_info e p (group_of P (rows w))); cbv beta iota zeta;
    destruct P as [s|];
    rewrite ?consolidate_contacts_eq, ?consolidate_contacts_None;
    cbn [fst snd rows seq ticks logged]; rewrite ?app_nil_r;
    repeat split; unfold new_row; cbn [id]; lia.
Qed.

(** The run of a request that passes the boundary check, finds matches and
    no exact one. *)
Lemma identify_partial e p w :
  valid_request e p = true ->
  select_matches e p (rows w) <> [] ->
  find (is_exact e p) (select_matches e p (rows w)) = None ->
  identify e p w =
  (primary_id <- resolve_primary (select_matches e p (rows w)) ;;
   add_new_information e p primary_id ;;;
   consolidate_contacts primary_id)
    (logged w [SelectByEmailOrPhone e p]).
Proof.
  intros Hvalid Hne Hnone. rewrite (identify_valid _ _ _ Hvalid), Hnone.
  destruct (select_matches e p (rows w)); [congruence | reflexivity].
Qed.

Lemma finish_ticks e p (P : option Z) (w : World) :
  ticks (snd ((add_new_information e p P ;;; consolidate_contacts P) w)) =
  (ticks w +
   if has_new_info e p (group_of P (rows w)) then 1 else 0)%nat.
Proof.
  unfold bind. rewrite add_new_information_eq.
  destruct (has_new_info e p (group_of P (rows w))); cbv beta iota zeta;
    destruct P as [s|];
    rewrite ?consolidate_contacts_eq, ?consolidate_contacts_None;
    cbn [snd ticks logged]; lia.
Qed.

(** What any call of [identify] does to the rows. *)
Lemma identify_effect e p w :
  exists f extra,
    rows (exec (identify e p) w) = map f (rows w) ++ extra /\
    (forall c, id (f c) = id c) /\
    (forall c, updated e p w c (f c)) /\
    added e p w (exec (identify e p) w) extra /\
    seq w <= seq (exec (identify e p) w) /\
    (ticks w <= ticks (exec (identify e p) w))%nat.
Proof.
  assert (Hsame : forall v : World,
             rows v = rows w -> seq v = seq w -> ticks v = ticks w ->
             exists f extra,
               rows v = map f (rows w) ++ extra /\
               (forall c, id (f c) = id c) /\
               (forall c, updated e p w c (f c)) /\
               added e p w v extra /\
               seq w <= seq v /\ (ticks w <= ticks v)%nat).
  { intros v Hr Hs Ht. exists (fun c => c), [].
    rewrite map_id, app_nil_r, Hr, Hs, Ht.
    repeat split; auto; try lia; now left. }
  unfold exec.
  destruct (valid_request e p) eqn:Hvalid;
    [|rewrite (identify_invalid _ _ _ Hvalid); now apply Hsame].
  destruct (select_matches e p (rows w)) as [|x l] eqn:Ex.
  { rewrite (identify_valid _ _ _ Hvalid), Ex.
    unfold bind. rewrite create_contact_eq, consolidate_contacts_eq.
    cbn [snd rows seq ticks logged].
    exists (fun c => c), [new_row e p None primary
                                  (logged w [SelectByEmailOrPhone e p])].
    rewrite map_id. repeat split; auto.
    - intros c. now left.
    - right. exists None, primary, (logged w [SelectByEmailOrPhone e p]).
      cbn [ticks logged].
      split; [reflexivity|]. split; [reflexivity|]. split; [reflexivity|].
      split; [lia|]. left. split; reflexivity.
    - unfold new_row. cbn [id rows seq logged]. lia. }
  destruct (find (is_exact e p) (x :: l)) as [m|] eqn:Ef.
  { rewrite (identify_valid _ _ _ Hvalid), Ex, Ef, consolidate_contacts_eq.
    now apply Hsame. }
  assert (Hrun : identify e p w =
                 (primary_id <- resolve_primary (x :: l) ;;
                  add_new_information e p primary_id ;;;
                  consolidate_contacts primary_id)
                   (logged w [SelectByEmailOrPhone e p])).
  { rewrite identify_partial; rewrite ?Ex; auto; discriminate. }
  unfold bind at 1 in Hrun.
  destruct (resolve_primary_cases (x :: l) (logged w [SelectByEmailOrPhone e p]))
    as [(Hmany & m & f & w1 & Hres & Hin & Hlook & _ & Hrows & Hseq & Ht
         & Hid & Hf)
       |[(_ & _ & lg & Hres & _)
       |[(_ & _ & lg & Hres & _)
       |[(_ & P & t & HP & Hres)
       |(_ & _ & Hres)]]]];
    rewrite Hres in Hrun; cbv beta iota in Hrun; rewrite Hrun; clear Hrun;
    cbn [rows seq ticks logged fst snd] in *; rewrite <- Ex in *.
  - destruct (finish_cases e p (Some (id m)) w1) as (Hfr & Hfs & Hft & _).
    pose proof (finish_ticks e p (Some (id m)) w1) as Htk.
    cbv zeta in Hfr, Hfs, Hft.
    exists f.
    exists (if has_new_info e p (group_of (Some (id m)) (rows w1))
            then [new_row e p (Some (id m)) secondary w1] else []).
    rewrite Hfr, Hrows. repeat split; auto; try lia.
    + intros c. destruct (Hf c) as [H|(Hroot & k & H)]; [now left|].
      right. exists (id m), (clock k). split; [exact H|].
      split; [now rewrite Hlook | split; [exact Hroot | exact Hmany]].
    + rewrite Hrows in Htk.
      destruct (has_new_info e p (group_of (Some (id m)) (map f (rows w))));
        [|now left].
      right. exists (Some (id m)), secondary, w1.
      split; [reflexivity|]. split; [exact Hseq|].
      split; [now rewrite Hrows, max_rowid_map|].
      split; [lia|]. right. split; [reflexivity | exact Hin].
  - exact (Hsame (logged (logged w [SelectByEmailOrPhone e p]) lg)
                 eq_refl eq_refl eq_refl).
  - exact (Hsame (logged (logged w [SelectByEmailOrPhone e p]) lg)
                 eq_refl eq_refl eq_refl).
  - set (w1 := logged (logged w [SelectByEmailOrPhone e p])
                      (map (fun c => SelectLinked (root_of c))
                           (select_matches e p (rows w)))) in *.
    destruct (finish_cases e p P w1) as (Hfr & Hfs & Hft & _).
    pose proof (finish_ticks e p P w1) as Htk.
    cbv zeta in Hfr, Hfs, Hft.
    change (rows w1) with (rows w) in *. change (seq w1) with (seq w) in *.
    change (ticks w1) with (ticks w) in *.
    exists (fun c => c).
    exists (if has_new_info e p (group_of P (rows w))
            then [new_row e p P secondary w1] else []).
    rewrite Hfr, map_id. repeat split; auto.
    + intros c. now left.
    + destruct (has_new_info e p (group_of P (rows w))); [|now left].
      right. exists P, secondary, w1.
      split; [reflexivity|]. split; [reflexivity|]. split; [reflexivity|].
      split; [change (ticks w1) with (ticks w); lia|].
      right. split; [reflexivity|]. rewrite HP. now left.
  - exact (Hsame (logged (logged w [SelectByEmailOrPhone e p])
                         (map (fun c => SelectLinked (root_of c))
                              (select_matches e p (rows w))))
                 eq_refl eq_refl eq_refl).
Qed.

End Ways.

(** ** What [identify] keeps *)

Lemma lookup_member (table : list Contact) (c : Contact) :
  In c table -> lookup (Some (id c)) table <> None.
Proof.
  intros Hin H. unfold lookup in H.
  pose proof (find_none _ _ H c Hin) as Hno. simpl in Hno.
  now rewrite Z.eqb_refl in Hno.
Qed.

(** A row found by id is still found after [identify]. *)
Lemma lookup_kept (f : Contact -> Contact) (table extra : list Contact)
    (q : option Z) :
  (forall c, id (f c) = id c) ->
  lookup q table <> None -> lookup q (map f table ++ extra) <> None.
Proof.
  intros Hid Hq. destruct (lookup q table) as [c|] eqn:E; [|congruence].
  rewrite (lookup_app_l q (map f table) extra (f c)); [discriminate|].
  now rewrite lookup_map, E.
Qed.

Section Kept.

Context `{RT : Runtime}.

(** X10.  Whatever the request and however the call ends, [identify]
    removes no row and moves none: every row of the table is afterwards in
    its place with its id, email, phone number, [createdAt] and [deletedAt],
    either untouched or demoted to a secondary; at most one row is added, at
    the end, and it carries the email and phone number of the request, is
    not soft-deleted, and has an id above every id of the table and above
    the rowid counter.  The counter and the clock do not go back. *)
Theorem identify_keeps_rows (e p : option string) (w : World) :
  let w' := exec (identify e p) w in
  exists f extra,
    rows w' = map f (rows w) ++ extra /\
    (forall c, kept_or_demoted c (f c)) /\
    (forall c, id (f c) = id c /\ email (f c) = email c /\
               phoneNumber (f c) = phoneNumber c /\
               createdAt (f c) = createdAt c /\
               deletedAt (f c) = deletedAt c) /\
    (extra = [] \/
     exists c, extra = [c] /\ email c = e /\ phoneNumber c = p /\
               deletedAt c = None /\ seq w < id c /\
               forall x, In x (rows w) -> id x < id c) /\
    seq w <= seq w' /\ (ticks w <= ticks w')%nat.
Proof.
  intros w'. subst w'.
  destruct (identify_effect e p w)
    as (f & extra & Hrows & Hid & Hf & Hextra & Hseq & Ht).
  unfold updated in Hf. unfold added in Hextra.
  exists f, extra. repeat split; auto.
  - intros c. destruct (Hf c) as [H|(s & t & H & _)]; [now left|].
    right. now exists s, t.
  - destruct (Hf c) as [->|(s & t & -> & _)]; reflexivity.
  - destruct (Hf c) as [->|(s & t & -> & _)]; reflexivity.
  - destruct (Hf c) as [->|(s & t & -> & _)]; reflexivity.
  - destruct (Hf c) as [->|(s & t & -> & _)]; reflexivity.
  - destruct Hextra as [->|(P & prec & w1 & -> & Hs & Hm & _)]; [now left|].
    right. exists (new_row e p P prec w1).
    unfold new_row. cbn [id email phoneNumber deletedAt]. rewrite Hs, Hm.
    repeat split; try lia.
    intros x Hx. pose proof (max_rowid_ge _ _ Hx). lia.
Qed.

(** The ids after [identify]. *)
Lemma identify_ids e p w :
  NoDup (map id (rows w)) -> NoDup (map id (rows (exec (identify e p) w))).
Proof.
  intros Hkey.
  destruct (identify_effect e p w)
    as (f & extra & Hrows & Hid & _ & Hextra & _).
  unfold added in Hextra.
  rewrite Hrows.
  assert (Hmap : map id (map f (rows w)) = map id (rows w)).
  { rewrite map_map. apply map_ext. exact Hid. }
  destruct Hextra as [->|(P & prec & w1 & -> & Hs & Hm & _)].
  - now rewrite app_nil_r, Hmap.
  - apply NoDup_ids_fresh; [now rewrite Hmap|].
    rewrite max_rowid_map by exact Hid.
    unfold new_row. cbn [id]. lia.
Qed.

(** X11.  [identify] keeps the primary key: a table whose ids are
    distinct has distinct ids after any call. *)
Theorem identify_keeps_primary_key (e p : option string) (w : World) :
  primary_key_ok (rows w) ->
  primary_key_ok (rows (exec (identify e p) w)).
Proof. apply identify_ids. Qed.

(** The links after [identify]. *)
Lemma identify_links e p w :
  enumerates_each_once RT ->
  well_linked (rows w) -> well_linked (rows (exec (identify e p) w)).
Proof.
  intros Hlaw Hwl.
  destruct (identify_effect e p w)
    as (f & extra & Hrows & Hid & Hf & Hextra & _).
  unfold updated in Hf. unfold added in Hextra.
  rewrite Hrows. intros c' Hc'.
  apply in_app_or in Hc' as [Hc'|Hc'].
  - apply in_map_iff in Hc' as (c & <- & Hc).
    destruct (Hf c) as [->|(s & t & -> & Hs & _)].
    + specialize (Hwl c Hc). destruct (linkPrecedence c); [exact Hwl|].
      destruct Hwl as (l & Hl & Hlook). exists l. split; [exact Hl|].
      now apply lookup_kept.
    + cbn [demoted linkPrecedence linkedId]. exists s.
      split; [reflexivity | now apply lookup_kept].
  - destruct Hextra as [->|(P & prec & w1 & -> & _ & _ & _ & Hlink)];
      [destruct Hc'|].
    destruct Hc' as [<-|[]]. unfold new_row. cbn [linkPrecedence linkedId].
    destruct Hlink as [[-> ->]|[-> HP]]; [reflexivity|].
    apply (Permutation_in _ (Hlaw _)), roots_In in HP.
    destruct HP as (c0 & Hc0 & Hroot).
    assert (Hin0 : In c0 (rows w)).
    { unfold select_matches in Hc0.
      rewrite order_by_In, filter_In in Hc0. tauto. }
    specialize (Hwl c0 Hin0). unfold root_of in Hroot.
    destruct (linkPrecedence c0).
    + exists (id c0). split; [now rewrite <- Hroot|].
      apply lookup_kept; [exact Hid | now apply lookup_member].
    + destruct Hwl as (l & Hl & Hlook). exists l.
      split; [congruence | now apply lookup_kept].
Qed.

(** X12.  Under any runtime that enumerates each element of a set once,
    [identify] keeps a table well linked: when every primary has no
    [linkedId] and every secondary a [linkedId] that is the id of a row, the
    same holds after any call. *)
Theorem identify_keeps_links_resolved (e p : option string) (w : World) :
  enumerates_each_once RT ->
  well_linked (rows w) ->
  well_linked (rows (exec (identify e p) w)).
Proof. apply identify_links. Qed.

End Kept.

(** The primary key on [Scenario.three], for the request that merges its
    two groups. *)
Lemma identify_keeps_primary_key_witness :
  primary_key_ok
    (rows (exec (identify (RT := insertion_runtime)
                          (Some "a@x.com") (Some "333")) Scenario.three)).
Proof.
  refine (identify_keeps_primary_key (RT := insertion_runtime)
            (Some "a@x.com") (Some "333") Scenario.three _).
  unfold primary_key_ok. simpl. repeat constructor; simpl; intuition lia.
Defined.

Lemma well_linked_three : well_linked (rows Scenario.three).
Proof.
  intros c Hc. simpl in Hc.
  destruct Hc as [<-|[<-|[<-|[]]]]; simpl; try reflexivity.
  exists 1. split; [reflexivity | discriminate].
Defined.

(** The links on [Scenario.three], for the same request. *)
Lemma identify_keeps_links_resolved_witness :
  well_linked
    (rows (exec (identify (RT := insertion_runtime)
                          (Some "a@x.com") (Some "333")) Scenario.three)).
Proof.
  exact (identify_keeps_links_resolved (RT := insertion_runtime)
           (Some "a@x.com") (Some "333") Scenario.three
           (fun l => Permutation_refl l) well_linked_three).
Defined.

(** ** When [identify] fails *)

Lemma roots_exist_perm (l l' : list (option Z)) (table : list Contact) :
  Permutation l l' -> roots_exist l table = roots_exist l' table.
Proof.
  intros H. unfold roots_exist.
  induction H as [|x l l' H IH|x y l|l l' l'' H1 IH1 H2 IH2]; simpl.
  - reflexivity.
  - now rewrite IH.
  - destruct (lookup x table), (lookup y table); reflexivity.
  - congruence.
Qed.

Section Failures.

Context `{RT : Runtime}.

Hypothesis set_iter_lawful : enumerates_each_once RT.

Lemma single_root (rs : list (option Z)) :
  (List.length rs <= 1)%nat -> rs <> [] ->
  exists r, rs = [r] /\ set_iter rs = [r].
Proof.
  intros Hlen Hne. destruct rs as [|r [|r' t]]; [congruence| |simpl in Hlen; lia].
  exists r. split; [reflexivity|].
  pose proof (set_iter_lawful [r]) as Hperm.
  now apply Permutation_sym, Permutation_length_1_inv in Hperm.
Qed.

Lemma many_roots_enumerated (rs : list (option Z)) :
  (1 < List.length rs)%nat -> set_iter rs <> [].
Proof.
  intros Hlen H. pose proof (set_iter_lawful rs) as Hperm.
  rewrite H in Hperm. apply Permutation_length in Hperm.
  simpl in Hperm. lia.
Qed.

(** The result of a request that passes the boundary check, finds matches
    and no exact one. *)
Lemma partial_result e p w :
  valid_request e p = true ->
  select_matches e p (rows w) <> [] ->
  find (is_exact e p) (select_matches e p (rows w)) = None ->
  let rs := roots (select_matches e p (rows w)) in
  ((1 < List.length rs)%nat /\ roots_exist rs (rows w) = false /\
   result (identify e p) w = inl TypeError) \/
  (rs = [None] /\ result (identify e p) w = inl ValidationError) \/
  (((1 < List.length rs)%nat /\ roots_exist rs (rows w) = true \/
    exists r, rs = [Some r]) /\
   exists resp, result (identify e p) w = inr resp).
Proof.
  intros Hvalid Hne Hnone rs. unfold result.
  pose proof (identify_partial e p w Hvalid Hne Hnone) as Hrun.
  unfold bind at 1 in Hrun.
  destruct (select_matches e p (rows w)) as [|x l] eqn:Ex; [congruence|].
  set (w0 := logged w [SelectByEmailOrPhone e p]) in *.
  destruct (resolve_primary_cases (x :: l) w0)
    as [(Hlen & m & f & w1 & Hres & _ & _ & Hex & _)
       |[(Hlen & Hex & lg & Hres & _)
       |[(Hlen & Hnil & _)
       |[(Hlen & P & t & HP & Hres)
       |(Hlen & Hnil & _)]]]]; fold rs in Hlen |- *.
  - right. right. rewrite Hres in Hrun. cbv beta iota in Hrun. rewrite Hrun.
    rewrite (roots_exist_perm _ _ _ (set_iter_lawful _)) in Hex.
    split; [left; split; [exact Hlen | exact Hex]|].
    destruct (finish_cases e p (Some (id m)) w1) as (_ & _ & _ & Hfst).
    cbv zeta in Hfst. eexists. exact Hfst.
  - left. rewrite Hres in Hrun. cbv beta iota in Hrun. rewrite Hrun.
    rewrite (roots_exist_perm _ _ _ (set_iter_lawful _)) in Hex.
    repeat split; auto.
  - exfalso. now apply (many_roots_enumerated _ Hlen).
  - destruct (single_root rs Hlen (roots_nonempty x l)) as (r & Hr & Hiter).
    fold rs in HP. rewrite Hiter in HP. injection HP as <- <-.
    rewrite Hres in Hrun. cbv beta iota in Hrun. rewrite Hrun.
    set (w1 := logged w0 _).
    destruct (finish_cases e p r w1) as (_ & _ & _ & Hfst).
    cbv zeta in Hfst. destruct r as [q|].
    + right. right. split; [right; now exists q|]. eexists. exact Hfst.
    + right. left. split; [exact Hr | exact Hfst].
  - exfalso. destruct (single_root rs Hlen (roots_nonempty x l))
      as (r & _ & Hiter). fold rs in Hnil. congruence.
Qed.

(** The result of a request that passes the boundary check and finds no
    match or an exact one. *)
Lemma direct_result e p w :
  valid_request e p = true ->
  select_matches e p (rows w) = [] \/
  find (is_exact e p) (select_matches e p (rows w)) <> None ->
  exists resp, result (identify e p) w = inr resp.
Proof.
  intros Hvalid H. unfold result. rewrite (identify_valid _ _ _ Hvalid).
  destruct (select_matches e p (rows w)) as [|x l] eqn:Ex.
  - unfold bind. rewrite create_contact_eq, consolidate_contacts_eq.
    eexists. reflexivity.
  - destruct H as [H|H]; [discriminate|].
    destruct (find (is_exact e p) (x :: l)); [|congruence].
    rewrite consolidate_contacts_eq. eexists. reflexivity.
Qed.

(** X13.  Under any runtime that enumerates each element of a set once,
    [identify] fails in three situations and no other.  It raises the client
    error 400 exactly when neither field of the request is truthy.  It
    raises [TypeError] exactly when the request is let through, no matched
    row is an exact match, the matched rows have more than one root id and
    one of them is the id of no row.  It raises the validation error
    exactly when the request is let through, no matched row is an exact
    match and the single root id of the matched rows is NULL.  In
    particular [min] and the indexing of the list of roots never raise. *)
Theorem identify_fails_exactly (e p : option string) (w : World)
    (err : Error) :
  let existing := select_matches e p (rows w) in
  let rs := roots existing in
  result (identify e p) w = inl err <->
  (err = HTTPException 400 /\ valid_request e p = false) \/
  (err = TypeError /\ valid_request e p = true /\
   find (is_exact e p) existing = None /\
   (1 < List.length rs)%nat /\ roots_exist rs (rows w) = false) \/
  (err = ValidationError /\ valid_request e p = true /\
   find (is_exact e p) existing = None /\ rs = [None]).
Proof.
  cbv zeta.
  destruct (valid_request e p) eqn:Hvalid.
  2:{ unfold result. rewrite (identify_invalid _ _ _ Hvalid). cbn [fst].
      split.
      - intros H. injection H as <-. now left.
      - intros [[-> _]|[(_ & H & _)|(_ & H & _)]];
          [reflexivity | discriminate | discriminate]. }
  destruct (find (is_exact e p) (select_matches e p (rows w))) as [m|] eqn:Ef.
  { destruct (direct_result e p w Hvalid) as (resp & Hr).
    { right. congruence. }
    rewrite Hr. split; [discriminate|].
    intros [[_ H]|[(_ & _ & H & _)|(_ & _ & H & _)]]; discriminate. }
  pose proof (partial_result e p w Hvalid) as Hpart. cbv zeta in Hpart.
  destruct (select_matches e p (rows w)) as [|x l] eqn:Ex.
  { destruct (direct_result e p w Hvalid) as (resp & Hr).
    { left. exact Ex. }
    rewrite Hr. split; [discriminate|].
    intros [[_ H]|[(_ & _ & _ & H & _)|(_ & _ & _ & H)]];
      [discriminate | simpl in H; lia | discriminate]. }
  set (rs := roots (x :: l)) in *.
  destruct Hpart as [(Hlen & Hex & Hr)|[(Hrs & Hr)|(Hok & resp & Hr)]];
    [discriminate | exact Ef | | |]; rewrite Hr.
  - split.
    + intros H. injection H as <-. right. left. repeat split; auto.
    + intros [[_ H]|[(-> & _)|(_ & _ & _ & H)]];
        [discriminate | reflexivity |].
      rewrite H in Hlen. simpl in Hlen. lia.
  - split.
    + intros H. injection H as <-. right. right. repeat split; auto.
    + intros [[_ H]|[(_ & _ & _ & H & _)|(-> & _)]];
        [discriminate | | reflexivity].
      rewrite Hrs in H. simpl in H. lia.
  - split; [discriminate|].
    intros [[_ H]|[(_ & _ & _ & Hlen & Hex)|(_ & _ & _ & Hrs)]];
      [discriminate | |].
    + destruct Hok as [[_ Hex']|(r & Hr1)]; [congruence|].
      rewrite Hr1 in Hlen. simpl in Hlen. lia.
    + destruct Hok as [[Hlen _]|(r & Hr1)]; [|congruence].
      rewrite Hrs in Hlen. simpl in Hlen. lia.
Qed.

End Failures.

(** The classification above on [Dangling.world_with_stranger], whose
    request resolves to the root 99 of no row and to the root 2. *)
Lemma identify_fails_exactly_witness :
  let e := Some "a@x.com" in
  let p := Some "222" in
  let w := Dangling.world_with_stranger in
  let err := TypeError in
  let existing := select_matches e p (rows w) in
  let rs := roots existing in
  result (identify (RT := insertion_runtime) e p) w = inl err <->
  (err = HTTPException 400 /\ valid_request e p = false) \/
  (err = TypeError /\ valid_request e p = true /\
   find (is_exact e p) existing = None /\
   (1 < List.length rs)%nat /\ roots_exist rs (rows w) = false) \/
  (err = ValidationError /\ valid_request e p = true /\
   find (is_exact e p) existing = None /\ rs = [None]).
Proof.
  exact (identify_fails_exactly (RT := insertion_runtime)
           (fun l => Permutation_refl l)
           (Some "a@x.com") (Some "222") Dangling.world_with_stranger
           TypeError).
Defined.

(** ** What a response of [identify] holds *)

Lemma exact_root_link (m : Contact) :
  id m = exact_root m \/ linkedId m = Some (exact_root m).
Proof.
  unfold exact_root. destruct (linkedId m) as [l|]; [|now left].
  simpl. destruct (l =? 0); simpl; auto.
Qed.

Lemma not_fresh_member (v : option string) (s : string)
    (col : Contact -> option string) (group : list Contact) :
  v = Some s -> s <> EmptyString ->
  truthy v && negb (existsb (py_eq_str v) (filter truthy (map col group)))
    = false ->
  exists c, In c group /\ col c = Some s.
Proof.
  intros -> Hne H.
  assert (Ht : truthy (Some s) = true).
  { simpl. apply negb_true_iff, String.eqb_neq, Hne. }
  rewrite Ht in H. simpl in H. apply negb_false_iff in H.
  apply existsb_exists in H as (x & Hx & Heq).
  apply py_eq_str_true in Heq. subst x.
  apply filter_In in Hx as [Hx _]. apply in_map_iff in Hx as (c & Hc & Hin).
  now exists c.
Qed.

Section Holds.

Context `{RT : Runtime}.

(** After the new-information check the group of [q] holds the truthy
    values of the request. *)
Lemma finish_member e p (q : Z) (w1 : World) :
  let extra :=
    if has_new_info e p (group_of (Some q) (rows w1))
    then [new_row e p (Some q) secondary w1] else [] in
  (forall s, e = Some s -> s <> EmptyString ->
     exists c, In c (rows w1 ++ extra) /\ deletedAt c = None /\
               (id c = q \/ linkedId c = Some q) /\ email c = Some s) /\
  (forall s, p = Some s -> s <> EmptyString ->
     exists c, In c (rows w1 ++ extra) /\ deletedAt c = None /\
               (id c = q \/ linkedId c = Some q) /\ phoneNumber c = Some s).
Proof.
  cbv zeta.
  destruct (has_new_info e p (group_of (Some q) (rows w1))) eqn:Enew.
  - split; intros s Hs Hne; exists (new_row e p (Some q) secondary w1);
      (split; [apply in_or_app; right; now left|]);
      unfold new_row; cbn [deletedAt id linkedId email phoneNumber]; auto.
  - unfold has_new_info in Enew. apply orb_false_iff in Enew as [He Hp].
    split; intros s Hs Hne.
    + destruct (not_fresh_member e s email _ Hs Hne He) as (c & Hc & Hcol).
      apply group_member in Hc. exists c. rewrite app_nil_r. tauto.
    + destruct (not_fresh_member p s phoneNumber _ Hs Hne Hp)
        as (c & Hc & Hcol).
      apply group_member in Hc. exists c. rewrite app_nil_r. tauto.
Qed.

(** A response of [identify] is the projection of the table the call
    leaves, for a root whose group holds the truthy values of the
    request. *)
Lemma identify_response e p w resp :
  result (identify e p) w = inr resp ->
  exists q,
    resp = project q (rows (exec (identify e p) w)) /\
    (forall s, e = Some s -> s <> EmptyString ->
       exists c, In c (rows (exec (identify e p) w)) /\ deletedAt c = None /\
                 (id c = q \/ linkedId c = Some q) /\ email c = Some s) /\
    (forall s, p = Some s -> s <> EmptyString ->
       exists c, In c (rows (exec (identify e p) w)) /\ deletedAt c = None /\
                 (id c = q \/ linkedId c = Some q) /\
                 phoneNumber c = Some s).
Proof.
  unfold result, exec.
  destruct (valid_request e p) eqn:Hvalid;
    [|rewrite (identify_invalid _ _ _ Hvalid); discriminate].
  destruct (select_matches e p (rows w)) as [|x l] eqn:Ex.
  { rewrite (identify_valid _ _ _ Hvalid), Ex.
    unfold bind. rewrite create_contact_eq, consolidate_contacts_eq.
    cbn [fst snd rows logged]. intros H. injection H as <-.
    set (c := new_row e p None primary (logged w [SelectByEmailOrPhone e p])).
    exists (id c). split; [reflexivity|].
    split; intros s Hs Hne; exists c;
      (split; [apply in_or_app; right; now left|]);
      unfold c, new_row; cbn [deletedAt id linkedId email phoneNumber]; auto. }
  destruct (find (is_exact e p) (x :: l)) as [m|] eqn:Ef.
  { rewrite (identify_valid _ _ _ Hvalid), Ex, Ef, consolidate_contacts_eq.
    cbn [fst snd rows logged]. intros H. injection H as <-.
    exists (exact_root m). split; [reflexivity|].
    apply find_some in Ef as [Hm Hexact].
    rewrite <- Ex in Hm. unfold select_matches in Hm.
    rewrite order_by_In, filter_In, matches_email_or_phone_true in Hm.
    destruct Hm as (Hin & Hd & _).
    unfold is_exact in Hexact. apply andb_true_iff in Hexact as [He Hp].
    apply py_eq_str_true in He, Hp.
    split; intros s Hs Hne; exists m; repeat split; auto;
      try apply exact_root_link; congruence. }
  assert (Hrun : identify e p w =
                 (primary_id <- resolve_primary (x :: l) ;;
                  add_new_information e p primary_id ;;;
                  consolidate_contacts primary_id)
                   (logged w [SelectByEmailOrPhone e p])).
  { rewrite identify_partial; rewrite ?Ex; auto; discriminate. }
  unfold bind at 1 in Hrun.
  destruct (resolve_primary_cases (x :: l) (logged w [SelectByEmailOrPhone e p]))
    as [(_ & m & f & w1 & Hres & _)
       |[(_ & _ & lg & Hres & _)
       |[(_ & _ & lg & Hres & _)
       |[(_ & P & t & _ & Hres)
       |(_ & _ & Hres)]]]];
    rewrite Hres in Hrun; cbv beta iota in Hrun; rewrite Hrun; clear Hrun;
    try discriminate.
  - destruct (finish_cases e p (Some (id m)) w1) as (Hfr & _ & _ & Hfst).
    cbv zeta in Hfr, Hfst. rewrite Hfst, Hfr.
    intros H. injection H as <-. exists (id m).
    split; [reflexivity | apply finish_member].
  - set (w1 := logged _ _).
    destruct (finish_cases e p P w1) as (Hfr & _ & _ & Hfst).
    cbv zeta in Hfr, Hfst. rewrite Hfst, Hfr.
    destruct P as [q|]; [|discriminate].
    intros H. injection H as <-. exists q.
    split; [reflexivity | apply finish_member].
Qed.

(** X14.  Under the primary key, whenever [identify] returns a response,
    a non-empty email of the request is among the emails of the response
    and a non-empty phone number of the request among its phone numbers. *)
Theorem response_holds_request (e p : option string) (w : World)
    (resp : ContactResponse) :
  NoDup (map id (rows w)) ->
  result (identify e p) w = inr resp ->
  (forall s, e = Some s -> s <> EmptyString -> In s (emails resp)) /\
  (forall s, p = Some s -> s <> EmptyString -> In s (phoneNumbers resp)).
Proof.
  intros Hkey Hres.
  destruct (identify_response e p w resp Hres) as (q & -> & He & Hp).
  pose proof (identify_ids e p w Hkey) as Hkey'.
  destruct (project_members q _ Hkey') as (Hemails & Hphones & _).
  split; intros s Hs Hne.
  - apply Hemails. split; [exact Hne | now apply He].
  - apply Hphones. split; [exact Hne | now apply Hp].
Qed.

(** X15.  Whenever [identify] returns a response, the response is the
    one [consolidate_contacts] gives for its primary id on the table the
    call leaves: asking for the group again returns the same. *)
Theorem response_is_view_of_final_store (e p : option string) (w : World)
    (resp : ContactResponse) :
  result (identify e p) w = inr resp ->
  result (consolidate_contacts (Some (primaryContatctId resp)))
         (exec (identify e p) w) = inr resp.
Proof.
  intros Hres.
  destruct (identify_response e p w resp Hres) as (q & -> & _).
  unfold result at 1. rewrite consolidate_contacts_eq. reflexivity.
Qed.

End Holds.

(** The statement of X14 for the request that merges the groups of
    [Scenario.three]. *)
Lemma response_holds_request_witness :
  let e := Some "a@x.com" in
  let p := Some "333" in
  let resp :=
    mkResponse 1 ["a@x.com"; "b@y.com"] ["111"; "222"; "333"] [2; 3] in
  (forall s, e = Some s -> s <> EmptyString -> In s (emails resp)) /\
  (forall s, p = Some s -> s <> EmptyString -> In s (phoneNumbers resp)).
Proof.
  refine (response_holds_request (RT := insertion_runtime)
            (Some "a@x.com") (Some "333") Scenario.three _ _ eq_refl).
  simpl. repeat constructor; simpl; intuition lia.
Defined.

(** The statement of X15 for the same request. *)
Lemma response_is_view_of_final_store_witness :
  let e := Some "a@x.com" in
  let p := Some "333" in
  let resp :=
    mkResponse 1 ["a@x.com"; "b@y.com"] ["111"; "222"; "333"] [2; 3] in
  result (consolidate_contacts (Some (primaryContatctId resp)))
         (exec (identify (RT := insertion_runtime) e p) Scenario.three)
  = inr resp.
Proof.
  exact (response_is_view_of_final_store (RT := insertion_runtime)
           (Some "a@x.com") (Some "333") Scenario.three _ eq_refl).
Defined.

(** ** A request repeated *)

Lemma order_by_nil_inv {A} (key : A -> Z) (l : list A) :
  order_by key l = [] -> l = [].
Proof.
  intros H. pose proof (order_by_perm A key l) as Hperm.
  rewrite H in Hperm. now apply Permutation_nil in Hperm.
Qed.

Section Repeated.

Context `{RT : Runtime}.

(** X16.  A request that found no match and so created a primary is, when
    repeated at once, answered with the same response, and the repetition
    writes nothing: it finds the row just created as an exact match. *)
Theorem repeat_after_creation (e p : option string) (w : World) :
  valid_request e p = true ->
  select_matches e p (rows w) = [] ->
  let w1 := exec (identify e p) w in
  let w2 := exec (identify e p) w1 in
  (exists resp, result (identify e p) w = inr resp /\
                result (identify e p) w1 = inr resp) /\
  (exists c, rows w1 = rows w ++ [c]) /\
  rows w2 = rows w1 /\ seq w2 = seq w1 /\ writes w2 = writes w1.
Proof.
  intros Hvalid Hnone w1 w2.
  set (c := new_row e p None primary (logged w [SelectByEmailOrPhone e p])).
  assert (Hrun : identify e p w =
                 (inr (project (id c) (rows w ++ [c])),
                  logged (mkWorld (rows w ++ [c]) (id c)
                                  ((trace w ++ [SelectByEmailOrPhone e p])
                                   ++ [Insert (id c)])
                                  (S (ticks w)))
                         [SelectLinked (Some (id c))])).
  { rewrite (identify_valid _ _ _ Hvalid), Hnone.
    unfold bind. rewrite create_contact_eq, consolidate_contacts_eq.
    reflexivity. }
  assert (Hw1 : rows w1 = rows w ++ [c]).
  { unfold w1, exec. now rewrite Hrun. }
  assert (Hc : matches_email_or_phone e p c = true).
  { apply matches_email_or_phone_true. split; [reflexivity|].
    unfold valid_request in Hvalid. apply orb_true_iff in Hvalid as [H|H].
    - left. destruct e as [s|]; [|discriminate]. now exists s.
    - right. destruct p as [s|]; [|discriminate]. now exists s. }
  assert (Hsel : select_matches e p (rows w1) = [c]).
  { unfold select_matches in *. rewrite Hw1, filter_app.
    rewrite (order_by_nil_inv _ _ Hnone). cbn [app filter].
    now rewrite Hc. }
  assert (Hexact : is_exact e p c = true).
  { unfold is_exact. apply andb_true_iff. split; now apply py_eq_str_true. }
  assert (Hrun2 : identify e p w1 =
                  (inr (project (id c) (rows w1)),
                   logged w1 [SelectByEmailOrPhone e p;
                              SelectLinked (Some (id c))])).
  { rewrite (identify_valid _ _ _ Hvalid), Hsel. cbn [find].
    rewrite Hexact, consolidate_contacts_eq, logged_logged. reflexivity. }
  split; [|split].
  - exists (project (id c) (rows w ++ [c])). unfold result.
    rewrite Hrun, Hrun2, Hw1. split; reflexivity.
  - now exists c.
  - unfold w2, exec. rewrite Hrun2. cbn [snd rows seq logged].
    repeat split. now apply writes_logged.
Qed.

End Repeated.

(** The statement above for the first request of an empty store. *)
Lemma repeat_after_creation_witness :
  let e := Some "a@x.com" in
  let p := Some "111" in
  let w := empty_world in
  let w1 := exec (identify (RT := insertion_runtime) e p) w in
  let w2 := exec (identify (RT := insertion_runtime) e p) w1 in
  (exists resp,
     result (identify (RT := insertion_runtime) e p) w = inr resp /\
     result (identify (RT := insertion_runtime) e p) w1 = inr resp) /\
  (exists c, rows w1 = rows w ++ [c]) /\
  rows w2 = rows w1 /\ seq w2 = seq w1 /\ writes w2 = writes w1.
Proof.
  exact (repeat_after_creation (RT := insertion_runtime)
           (Some "a@x.com") (Some "111") empty_world eq_refl eq_refl).
Defined.

(** ** The stores the service builds *)

Lemma well_linked_roots (table : list Contact) (e p : option string)
    (r : option Z) :
  well_linked table ->
  In r (roots (select_matches e p table)) ->
  exists l, r = Some l /\ lookup (Some l) table <> None.
Proof.
  intros Hwl Hr. apply roots_In in Hr as (c & Hc & Hroot).
  assert (Hin : In c table).
  { unfold select_matches in Hc. rewrite order_by_In, filter_In in Hc. tauto. }
  specialize (Hwl c Hin). unfold root_of in Hroot.
  destruct (linkPrecedence c).
  - exists (id c). split; [now rewrite Hroot | now apply lookup_member].
  - destruct Hwl as (l & Hl & Hlook). exists l. split; [congruence | exact Hlook].
Qed.

Section Built.

Context `{RT : Runtime}.

Hypothesis set_iter_lawful : enumerates_each_once RT.

(** On a well-linked table a request that passes the boundary check is
    answered. *)
Lemma identify_succeeds e p w :
  well_linked (rows w) -> valid_request e p = true ->
  exists resp, result (identify e p) w = inr resp.
Proof.
  intros Hwl Hvalid.
  destruct (select_matches e p (rows w)) as [|x l] eqn:Ex.
  { apply direct_result; auto. }
  destruct (find (is_exact e p) (x :: l)) as [m|] eqn:Ef.
  { apply direct_result; auto. right. rewrite Ex, Ef. discriminate. }
  assert (Hne : select_matches e p (rows w) <> []) by (rewrite Ex; discriminate).
  assert (Hnone : find (is_exact e p) (select_matches e p (rows w)) = None)
    by now rewrite Ex.
  destruct (partial_result set_iter_lawful e p w Hvalid Hne Hnone)
    as [(_ & Hex & _)|[(Hrs & _)|(_ & Hok)]]; [| |exact Hok]; exfalso.
  - destruct (roots_exist_false _ _ Hex) as (r & Hr & Hn).
    destruct (well_linked_roots _ _ _ _ Hwl Hr) as (q & -> & Hq).
    congruence.
  - assert (Hr : In None (roots (select_matches e p (rows w)))).
    { rewrite Hrs. now left. }
    destruct (well_linked_roots _ _ _ _ Hwl Hr) as (q & Hq & _).
    discriminate.
Qed.

(** X17.  Under any runtime that enumerates each element of a set once,
    on a well-linked table (no primary has a [linkedId], every secondary
    has one that is the id of a row) [identify] answers every request that
    passes the boundary check: it raises no internal error. *)
Theorem identify_answers_on_well_linked (e p : option string) (w : World) :
  well_linked (rows w) -> valid_request e p = true ->
  exists resp, result (identify e p) w = inr resp.
Proof. apply identify_succeeds. Qed.

(** What holds of every store the service builds. *)
Lemma reachable_invariant w :
  reachable w ->
  primary_key_ok (rows w) /\ well_linked (rows w) /\
  (forall c, In c (rows w) ->
     deletedAt c = None /\ valid_request (email c) (phoneNumber c) = true).
Proof.
  induction 1 as [|w e p Hw (Hkey & Hwl & Hrows)].
  - split; [constructor|]. split; intros c [].
  - split; [now apply identify_ids|].
    split; [now apply identify_links|].
    destruct (valid_request e p) eqn:Hvalid.
    2:{ unfold exec. rewrite (identify_invalid _ _ _ Hvalid). exact Hrows. }
    destruct (identify_effect e p w)
      as (f & extra & Heq & _ & Hf & Hextra & _).
    unfold updated in Hf. unfold added in Hextra.
    rewrite Heq. intros c' Hc'. apply in_app_or in Hc' as [Hc'|Hc'].
    + apply in_map_iff in Hc' as (c & <- & Hc).
      destruct (Hf c) as [E|(s & t & E & _)]; rewrite E;
        [|cbn [demoted deletedAt email phoneNumber]]; now apply Hrows.
    + destruct Hextra as [->|(P & prec & w1 & -> & _)]; [destruct Hc'|].
      destruct Hc' as [<-|[]]. split; [reflexivity | exact Hvalid].
Qed.

(** X18.  Under such a runtime every store the service builds from the
    empty store, by any sequence of requests, has distinct ids, is well
    linked, holds no soft-deleted row, and holds no row without a truthy
    email or phone number. *)
Theorem built_stores_are_consistent (w : World) :
  reachable w ->
  primary_key_ok (rows w) /\ well_linked (rows w) /\
  (forall c, In c (rows w) ->
     deletedAt c = None /\ valid_request (email c) (phoneNumber c) = true).
Proof. apply reachable_invariant. Qed.

(** X19.  Under such a runtime, on every store the service builds, a
    request fails only at the boundary: every request with a truthy email
    or phone number is answered, and the answer lists the non-empty email
    and phone number of the request. *)
Theorem built_stores_answer (e p : option string) (w : World) :
  reachable w -> valid_request e p = true ->
  exists resp,
    result (identify e p) w = inr resp /\
    (forall s, e = Some s -> s <> EmptyString -> In s (emails resp)) /\
    (forall s, p = Some s -> s <> EmptyString -> In s (phoneNumbers resp)).
Proof.
  intros Hw Hvalid.
  destruct (reachable_invariant w Hw) as (Hkey & Hwl & _).
  destruct (identify_succeeds e p w Hwl Hvalid) as (resp & Hres).
  exists resp. split; [exact Hres|].
  destruct (identify_response e p w resp Hres) as (q & -> & He & Hp).
  pose proof (identify_ids e p w Hkey) as Hkey'.
  destruct (project_members q _ Hkey') as (Hemails & Hphones & _).
  split; intros s Hs Hne.
  - apply Hemails. split; [exact Hne | now apply He].
  - apply Hphones. split; [exact Hne | now apply Hp].
Qed.

End Built.

(** The three statements above on stores built by the service. *)
Lemma identify_answers_on_well_linked_witness :
  exists resp,
    result (identify (RT := insertion_runtime) (Some "a@x.com") (Some "333"))
           Scenario.three = inr resp.
Proof.
  exact (identify_answers_on_well_linked (RT := insertion_runtime)
           (fun l => Permutation_refl l)
           (Some "a@x.com") (Some "333") Scenario.three
           well_linked_three eq_refl).
Defined.

Lemma reachable_one : reachable (RT := insertion_runtime) Scenario.one.
Proof.
  exact (reachable_identify (RT := insertion_runtime) empty_world
           (Some "a@x.com") (Some "111") reachable_empty).
Defined.

Lemma built_stores_are_consistent_witness :
  let w := Scenario.one in
  primary_key_ok (rows w) /\ well_linked (rows w) /\
  (forall c, In c (rows w) ->
     deletedAt c = None /\ valid_request (email c) (phoneNumber c) = true).
Proof.
  exact (built_stores_are_consistent (RT := insertion_runtime)
           (fun l => Permutation_refl l) Scenario.one reachable_one).
Defined.

Lemma built_stores_answer_witness :
  let e := Some "a@x.com" in
  let p := Some "222" in
  exists resp,
    result (identify (RT := insertion_runtime) e p) Scenario.one = inr resp /\
    (forall s, e = Some s -> s <> EmptyString -> In s (emails resp)) /\
    (forall s, p = Some s -> s <> EmptyString -> In s (phoneNumbers resp)).
Proof.
  exact (built_stores_answer (RT := insertion_runtime)
           (fun l => Permutation_refl l)
           (Some "a@x.com") (Some "222") Scenario.one reachable_one eq_refl).
Defined.

(** ** What [identify] leaves alone *)

Section Untouched.

Context `{RT : Runtime}.

(** X20.  Under any runtime that enumerates each element of a set once,
    [identify] updates only roots of the rows it matched: a row whose id is
    not a root id of the matched rows is in the table afterwards exactly as
    it was, and when the matched rows have at most one root id no row is
    updated at all, the table is the old one with at most one row added. *)
Theorem identify_updates_only_roots (e p : option string) (w : World) :
  enumerates_each_once RT ->
  let rs := roots (select_matches e p (rows w)) in
  let w' := exec (identify e p) w in
  (forall c, In c (rows w) -> ~ In (Some (id c)) rs -> In c (rows w')) /\
  ((List.length rs <= 1)%nat ->
   exists extra, rows w' = rows w ++ extra /\ (List.length extra <= 1)%nat).
Proof.
  intros Hlaw rs w'. subst w'.
  destruct (identify_effect e p w)
    as (f & extra & Hrows & _ & Hf & Hextra & _).
  unfold updated in Hf. unfold added in Hextra.
  rewrite Hrows. split.
  - intros c Hc Hnot. apply in_or_app. left. apply in_map_iff. exists c.
    split; [|exact Hc].
    destruct (Hf c) as [H|(s & t & _ & _ & Hin & _)]; [exact H|].
    exfalso. apply Hnot. apply (Permutation_in _ (Hlaw _)). exact Hin.
  - intros Hlen. exists extra. split.
    + f_equal. rewrite <- (map_id (rows w)) at 2. apply map_ext. intros c.
      destruct (Hf c) as [H|(s & t & _ & _ & _ & Hmany)]; [exact H|].
      fold rs in Hmany. lia.
    + destruct Hextra as [->|(P & prec & w1 & -> & _)]; simpl; lia.
Qed.

End Untouched.

(** The statement above for the request that merges the groups of
    [Scenario.three]. *)
Lemma identify_updates_only_roots_witness :
  let e := Some "a@x.com" in
  let p := Some "333" in
  let w := Scenario.three in
  let rs := roots (select_matches e p (rows w)) in
  let w' := exec (identify (RT := insertion_runtime) e p) w in
  (forall c, In c (rows w) -> ~ In (Some (id c)) rs -> In c (rows w')) /\
  ((List.length rs <= 1)%nat ->
   exists extra, rows w' = rows w ++ extra /\ (List.length extra <= 1)%nat).
Proof.
  exact (identify_updates_only_roots (RT := insertion_runtime)
           (Some "a@x.com") (Some "333") Scenario.three
           (fun l => Permutation_refl l)).
Defined.

(** ** The flatten invariant without a merge *)

Lemma lookup_self (table : list Contact) (c : Contact) :
  NoDup (map id table) -> In c table -> lookup (Some (id c)) table = Some c.
Proof.
  unfold lookup. induction table as [|x t IH]; [intros _ []|].
  intros Hnd Hin. inversion Hnd as [|? ? Hx Ht]; subst.
  cbn [find sql_eq_int]. destruct (id x =? id c) eqn:E.
  - destruct Hin as [->|Hin]; [reflexivity|].
    exfalso. apply Hx. apply Z.eqb_eq in E. rewrite E.
    apply in_map_iff. now exists c.
  - destruct Hin as [->|Hin]; [now rewrite Z.eqb_refl in E | now apply IH].
Qed.

Lemma links_to_primaries_spec (table : list Contact) :
  links_to_primaries table = true <->
  forall c l t, In c table -> linkedId c = Some l ->
                lookup (Some l) table = Some t -> linkPrecedence t = primary.
Proof.
  unfold links_to_primaries. rewrite forallb_forall. split.
  - intros H c l t Hc Hl Ht. specialize (H c Hc). rewrite Hl, Ht in H.
    now apply Precedence_eqb_primary.
  - intros H c Hc. destruct (linkedId c) as [l|] eqn:Hl; [|reflexivity].
    destruct (lookup (Some l) table) as [t|] eqn:Ht; [|reflexivity].
    apply Precedence_eqb_primary. exact (H c l t Hc Hl Ht).
Qed.

Section Flat.

Context `{RT : Runtime}.

(** X21.  Under any runtime that enumerates each element of a set once, on
    a table with distinct ids that is well linked, a call of [identify]
    whose matched rows have at most one root id keeps the flatten invariant:
    if no [linkedId] named a secondary before the call, none does after
    it. *)
Theorem identify_without_merge_keeps_flat (e p : option string) (w : World) :
  enumerates_each_once RT ->
  primary_key_ok (rows w) -> well_linked (rows w) ->
  links_to_primaries (rows w) = true ->
  (List.length (roots (select_matches e p (rows w))) <= 1)%nat ->
  links_to_primaries (rows (exec (identify e p) w)) = true.
Proof.
  intros Hlaw Hkey Hwl Hflat Hlen.
  destruct (identify_effect e p w)
    as (f & extra & Hrows & _ & Hf & Hextra & _).
  unfold updated in Hf. unfold added in Hextra.
  assert (Hmap : map f (rows w) = rows w).
  { rewrite <- (map_id (rows w)) at 2. apply map_ext. intros c.
    destruct (Hf c) as [H|(s & t & _ & _ & _ & Hmany)]; [exact H | lia]. }
  rewrite Hrows, Hmap. clear Hrows Hmap Hf.
  rewrite links_to_primaries_spec in Hflat |- *.
  assert (Hold : forall l t, lookup (Some l) (rows w) <> None ->
                 lookup (Some l) (rows w ++ extra) = Some t ->
                 lookup (Some l) (rows w) = Some t).
  { intros l t Hsome Ht.
    destruct (lookup (Some l) (rows w)) as [t'|] eqn:E; [|congruence].
    now rewrite (lookup_app_l _ _ extra _ E) in Ht. }
  intros c l t Hc Hl Ht. apply in_app_or in Hc as [Hc|Hc].
  - apply (Hflat c l t Hc Hl). apply Hold; [|exact Ht].
    specialize (Hwl c Hc). destruct (linkPrecedence c); [congruence|].
    destruct Hwl as (l' & Hl' & Hlook). congruence.
  - destruct Hextra as [->|(P & prec & w1 & -> & _ & _ & _ & Hlink)];
      [destruct Hc|].
    destruct Hc as [<-|[]]. unfold new_row in Hl. cbn [linkedId] in Hl.
    destruct Hlink as [[_ ->]|[_ HP]]; [discriminate|]. subst P.
    apply (Permutation_in _ (Hlaw _)), roots_In in HP.
    destruct HP as (c0 & Hc0 & Hroot).
    assert (Hin0 : In c0 (rows w)).
    { unfold select_matches in Hc0.
      rewrite order_by_In, filter_In in Hc0. tauto. }
    pose proof (Hwl c0 Hin0) as Hw0. unfold root_of in Hroot.
    destruct (linkPrecedence c0) eqn:Hp0.
    + injection Hroot as <-.
      apply Hold in Ht; [|now apply lookup_member].
      rewrite (lookup_self _ _ Hkey Hin0) in Ht. injection Ht as <-.
      exact Hp0.
    + destruct Hw0 as (l' & Hl' & Hlook).
      assert (l' = l) by congruence. subst l'.
      apply (Hflat c0 l t Hin0 Hl'). now apply Hold.
Qed.

End Flat.

Lemma well_linked_one : well_linked (rows Scenario.one).
Proof.
  intros c Hc. simpl in Hc. destruct Hc as [<-|[]]. reflexivity.
Defined.

(** The statement above on [Scenario.one], for a request that adds a
    phone number to its only group. *)
Lemma identify_without_merge_keeps_flat_witness :
  links_to_primaries
    (rows (exec (identify (RT := insertion_runtime)
                          (Some "a@x.com") (Some "222")) Scenario.one))
  = true.
Proof.
  refine (identify_without_merge_keeps_flat (RT := insertion_runtime)
            (Some "a@x.com") (Some "222") Scenario.one
            (fun l => Permutation_refl l) _ well_linked_one
            eq_refl _).
  - unfold primary_key_ok. simpl. repeat constructor. simpl. tauto.
  - vm_compute. lia.
Defined.

(** ** The order of the rows the service creates *)

Lemma StronglySorted_map_same {A} (R : A -> A -> Prop) (f : A -> A)
    (l : list A) :
  (forall a b, R a b -> R (f a) (f b)) ->
  StronglySorted R l -> StronglySorted R (map f l).
Proof.
  intros Hf. induction 1 as [|x l Hs IH Hx]; simpl; constructor; auto.
  rewrite Forall_forall in *. intros y Hy.
  apply in_map_iff in Hy as (z & <- & Hz). auto.
Qed.

Lemma StronglySorted_snoc {A} (R : A -> A -> Prop) (l : list A) (c : A) :
  StronglySorted R l -> (forall x, In x l -> R x c) ->
  StronglySorted R (l ++ [c]).
Proof.
  induction 1 as [|x l Hs IH Hx]; simpl; intros Hc.
  - repeat constructor.
  - constructor; [apply IH; auto|].
    rewrite Forall_forall in *. intros y Hy.
    apply in_app_or in Hy as [Hy|[<-|[]]]; auto.
Qed.

Lemma StronglySorted_weaken {A} (R S : A -> A -> Prop) (l : list A) :
  (forall a b, R a b -> S a b) -> StronglySorted R l -> StronglySorted S l.
Proof.
  intros HRS. induction 1 as [|x l Hs IH Hx]; constructor; auto.
  rewrite Forall_forall in *. auto.
Qed.

Lemma StronglySorted_related {A} (R : A -> A -> Prop) (l : list A) (x y : A) :
  StronglySorted R l -> In x l -> In y l -> x = y \/ R x y \/ R y x.
Proof.
  induction 1 as [|z l Hs IH Hz]; [intros []|].
  rewrite Forall_forall in Hz.
  intros [->|Hx] [->|Hy]; auto.
Qed.

Lemma insert_by_last {A} (key : A -> Z) (x : A) (acc : list A) :
  (forall a, In a acc -> key a <= key x) -> insert_by key x acc = acc ++ [x].
Proof.
  induction acc as [|y acc IH]; simpl; intros H; [reflexivity|].
  assert (E : (key y <=? key x) = true) by (apply Z.leb_le, H; now left).
  rewrite E, IH; auto.
Qed.

(** [ORDER BY] leaves a sorted list as it is. *)
Lemma order_by_sorted_same {A} (key : A -> Z) (l : list A) :
  StronglySorted (key_le key) l -> order_by key l = l.
Proof.
  unfold order_by.
  assert (H : forall l acc,
             StronglySorted (key_le key) (acc ++ l) ->
             fold_left (fun a x => insert_by key x a) l acc = acc ++ l).
  { clear l. induction l as [|x l IH]; intros acc Hs; simpl.
    - now rewrite app_nil_r.
    - assert (Hx : forall a, In a acc -> key a <= key x).
      { intros a Ha. induction acc as [|b acc IHa]; [destruct Ha|].
        simpl in Hs. inversion Hs as [|? ? Hs' Hb]; subst.
        destruct Ha as [->|Ha]; [|now apply IHa].
        rewrite Forall_forall in Hb. apply Hb, in_or_app. right. now left. }
      rewrite insert_by_last by exact Hx.
      rewrite IH; rewrite <- app_assoc; [reflexivity | exact Hs]. }
  intros Hs. exact (H l [] Hs).
Qed.

Section Ordered.

Context `{RT : Runtime}.

Variable rel : Z -> Z -> Prop.

Hypothesis clock_rel : clock_follows RT rel.

(** Every store the service builds holds its rows in creation order, each
    with a [createdAt] that the clock has given. *)
Lemma reachable_order w :
  reachable w ->
  in_creation_order rel (rows w) /\
  forall c, In c (rows w) ->
            exists k, (k < ticks w)%nat /\ createdAt c = clock k.
Proof.
  induction 1 as [|w e p Hw [Hord Hclk]].
  - split; [constructor | intros c []].
  - destruct (identify_effect e p w)
      as (f & extra & Hrows & Hid & Hf & Hextra & _ & Ht).
    unfold updated in Hf. unfold added in Hextra.
    assert (Hcr : forall c, createdAt (f c) = createdAt c).
    { intros c. destruct (Hf c) as [->|(s & t & -> & _)]; reflexivity. }
    assert (Hold : forall x, In x (map f (rows w)) ->
                   exists k, (k < ticks w)%nat /\ createdAt x = clock k /\
                             id x <= max_rowid (rows w)).
    { intros x Hx. apply in_map_iff in Hx as (c & <- & Hc).
      destruct (Hclk c Hc) as (k & Hk & Hck). exists k.
      rewrite Hcr, Hid. repeat split; auto. now apply max_rowid_ge. }
    assert (Hsorted : in_creation_order rel (map f (rows w))).
    { apply StronglySorted_map_same; [|exact Hord].
      intros a b. now rewrite !Hid, !Hcr. }
    rewrite Hrows.
    destruct Hextra as [->|(P & prec & w1 & -> & Hs & Hm & Htk & _)].
    + rewrite app_nil_r. split; [exact Hsorted|].
      intros x Hx. destruct (Hold x Hx) as (k & Hk & Hck & _).
      exists k. split; [lia | exact Hck].
    + split.
      * apply StronglySorted_snoc; [exact Hsorted|].
        intros x Hx. destruct (Hold x Hx) as (k & Hk & Hck & Hmax).
        unfold new_row. cbn [id createdAt]. split; [lia|].
        rewrite Hck. apply clock_rel. lia.
      * intros x Hx. apply in_app_or in Hx as [Hx|[<-|[]]].
        -- destruct (Hold x Hx) as (k & Hk & Hck & _).
           exists k. split; [lia | exact Hck].
        -- exists (ticks w1). split; [lia | reflexivity].
Qed.

End Ordered.

Section NeverBack.

Context `{RT : Runtime}.

(** X22.  When the clock never goes back, every store built from the
    empty store by [identify] calls holds its rows in ascending id order
    with non-decreasing [createdAt].  The three ordered queries then return
    the rows they select in the order of the table, that is, in id order. *)
Theorem built_stores_are_in_creation_order (w : World) :
  clock_follows RT Z.le ->
  reachable w ->
  in_creation_order Z.le (rows w) /\
  (forall e p, select_matches e p (rows w) =
               filter (matches_email_or_phone e p) (rows w)) /\
  (forall pid, group_of pid (rows w) = filter (linked_to pid) (rows w)) /\
  select_active (rows w) = filter active (rows w).
Proof.
  intros Hclock Hw.
  destruct (reachable_order Z.le Hclock w Hw) as [Hord _].
  assert (Hq : forall f : Contact -> bool,
             order_by createdAt (filter f (rows w)) = filter f (rows w)).
  { intros f. apply order_by_sorted_same, StronglySorted_filter.
    eapply StronglySorted_weaken; [|exact Hord].
    intros a b [_ H]. exact H. }
  repeat split; auto; intros; apply Hq.
Qed.

(** X23.  When the clock advances at every reading and the runtime
    enumerates each element of a set once, on every store built from the
    empty store a merge keeps the root with the least id: a request that is
    let through, has no exact match and resolves to more than one root id is
    answered, and the primary id of the response is a root id no larger than
    any other. *)
Theorem built_stores_merge_into_least_id (e p : option string) (w : World) :
  clock_follows RT Z.lt ->
  enumerates_each_once RT ->
  reachable w ->
  valid_request e p = true ->
  find (is_exact e p) (select_matches e p (rows w)) = None ->
  (1 < List.length (roots (select_matches e p (rows w))))%nat ->
  let rs := roots (select_matches e p (rows w)) in
  exists resp,
    result (identify e p) w = inr resp /\
    In (Some (primaryContatctId resp)) rs /\
    forall l, In (Some l) rs -> primaryContatctId resp <= l.
Proof.
  intros Hclock Hlaw Hw Hvalid Hnone Hlen rs.
  destruct (reachable_order Z.lt Hclock w Hw) as [Hord _].
  destruct (reachable_invariant Hlaw w Hw) as (_ & Hwl & _).
  assert (Hex : roots_exist rs (rows w) = true).
  { unfold roots_exist. apply forallb_forall. intros r Hr.
    destruct (well_linked_roots _ _ _ _ Hwl Hr) as (l & -> & Hl).
    destruct (lookup (Some l) (rows w)); [reflexivity | congruence]. }
  set (w0 := logged (logged w [SelectByEmailOrPhone e p])
                    (map (fun c => SelectLinked (root_of c))
                         (select_matches e p (rows w)))).
  destruct (merge_primaries_spec rs w0 Hlaw Hlen Hex)
    as (m & f & w3 & Hmerge & Hin & Hlook & (b & a & Hsplit & Hb & Ha) & _).
  change (rows w0) with (rows w) in *.
  destruct (finish_spec e p (id m) w3) as (extra & Hfin).
  cbv zeta in Hfin. destruct Hfin as (Hres & _ & _).
  assert (Hrun : identify e p w =
                 (add_new_information e p (Some (id m)) ;;;
                  consolidate_contacts (Some (id m))) w3).
  { rewrite (identify_valid _ _ _ Hvalid), Hnone.
    destruct (roots_nil_length _ Hlen) as (x & l & Hxl).
    destruct (select_matches e p (rows w)) as [|x' l'] eqn:Ex; [discriminate|].
    unfold bind at 1. rewrite resolve_primary_eq. fold rs.
    assert (Hlt : (1 <? List.length rs)%nat = true) by now apply Nat.ltb_lt.
    rewrite Hlt. fold w0. rewrite Hmerge. reflexivity. }
  eexists. split; [unfold result; rewrite Hrun; exact Hres|].
  cbn [primaryContatctId project]. split; [exact Hin|].
  intros l Hl.
  assert (Hsome : lookup (Some l) (rows w) <> None).
  { destruct (well_linked_roots _ _ _ _ Hwl Hl) as (l' & Hl' & H).
    injection Hl' as <-. exact H. }
  destruct (lookup (Some l) (rows w)) as [c|] eqn:Hc; [clear Hsome|congruence].
  destruct (lookup_Some _ _ _ Hc) as [Hidc Hinc]. injection Hidc as ->.
  destruct (lookup_Some _ _ _ Hlook) as [_ Hinm].
  assert (Hle : createdAt m <= createdAt c).
  { apply (Permutation_in _ (Permutation_sym (Hlaw rs))) in Hl.
    rewrite Hsplit in Hl. apply in_app_or in Hl as [Hl|[Hl|Hl]].
    - specialize (Hb _ _ Hl Hc). lia.
    - injection Hl as Hl. rewrite <- Hl in Hc. rewrite Hlook in Hc.
      injection Hc as <-. lia.
    - exact (Ha _ _ Hl Hc). }
  destruct (StronglySorted_related _ _ m c Hord Hinm Hinc)
    as [->|[[H _]|[_ H]]]; lia.
Qed.

End NeverBack.

Lemma tick_clock_advances : clock_follows insertion_runtime Z.lt.
Proof.
  intros a b H. change (tick_clock a < tick_clock b). unfold tick_clock. lia.
Defined.

Lemma tick_clock_never_back : clock_follows insertion_runtime Z.le.
Proof.
  intros a b H. change (tick_clock a <= tick_clock b). unfold tick_clock. lia.
Defined.

Lemma reachable_three : reachable (RT := insertion_runtime) Scenario.three.
Proof.
  exact (reachable_identify (RT := insertion_runtime) _
           (Some "b@y.com") (Some "333")
           (reachable_identify (RT := insertion_runtime) _
              (Some "a@x.com") (Some "222") reachable_one)).
Defined.

(** The statement of X22 on [Scenario.three]. *)
Lemma built_stores_are_in_creation_order_witness :
  let w := Scenario.three in
  in_creation_order Z.le (rows w) /\
  (forall e p, select_matches e p (rows w) =
               filter (matches_email_or_phone e p) (rows w)) /\
  (forall pid, group_of pid (rows w) = filter (linked_to pid) (rows w)) /\
  select_active (rows w) = filter active (rows w).
Proof.
  exact (built_stores_are_in_creation_order (RT := insertion_runtime)
           Scenario.three tick_clock_never_back reachable_three).
Defined.

(** The statement of X23 for the request that merges the two groups of
    [Scenario.three]. *)
Lemma built_stores_merge_into_least_id_witness :
  let e := Some "a@x.com" in
  let p := Some "333" in
  let w := Scenario.three in
  let rs := roots (select_matches e p (rows w)) in
  exists resp,
    result (identify (RT := insertion_runtime) e p) w = inr resp /\
    In (Some (primaryContatctId resp)) rs /\
    forall l, In (Some l) rs -> primaryContatctId resp <= l.
Proof.
  refine (built_stores_merge_into_least_id (RT := insertion_runtime)
            (Some "a@x.com") (Some "333") Scenario.three
            tick_clock_advances (fun l => Permutation_refl l)
            reachable_three eq_refl eq_refl _).
  vm_compute. lia.
Defined.

(** * The engine against the rows of the table *)

(** ** The view of a group *)

Lemma first_occurrences_head (v : option string) (s : string)
    (l : list (option string)) :
  v = Some s -> s <> EmptyString ->
  first_occurrences (present_values (v :: l)) =
  s :: filter (fun y => negb (String.eqb s y))
              (first_occurrences (present_values l)).
Proof.
  intros -> Hne. unfold present_values. cbn [flat_map].
  unfold present_list at 1. cbn [truthy].
  apply String.eqb_neq in Hne. rewrite Hne. reflexivity.
Qed.

(** C7.  For a root id [p], under the primary key.  The rows of the table
    that are not soft-deleted and have the id [p] or the [linkedId] [p] fall
    into the primary, the row of id [p] (one if the table has such a row that
    is not soft-deleted, none otherwise), and the secondaries, the rows of
    another id whose [linkedId] is [p], each once, in ascending [createdAt]
    order.  The response lists the truthy emails of the primary and then of
    the secondaries in that order, each value once at its first occurrence,
    so that a truthy email of the primary is the first entry; the phone
    numbers in the same way; and the ids of the secondaries in that
    order. *)
Theorem consolidated_view (p : Z) (w : World) :
  NoDup (map id (rows w)) ->
  let group := group_of (Some p) (rows w) in
  let prim := the_primary p group in
  let secs := the_secondaries p group in
  exists resp,
    result (consolidate_contacts (Some p)) w = inr resp /\
    primaryContatctId resp = p /\
    emails resp =
      first_occurrences (present_values (map email (prim ++ secs))) /\
    phoneNumbers resp =
      first_occurrences (present_values (map phoneNumber (prim ++ secs))) /\
    secondaryContactIds resp = map id secs /\
    NoDup (emails resp) /\ NoDup (phoneNumbers resp) /\
    (List.length prim <= 1)%nat /\
    StronglySorted (key_le createdAt) secs /\
    (forall c, In c secs <->
               In c (rows w) /\ active c = true /\
               linkedId c = Some p /\ id c <> p) /\
    (forall c, In c prim <->
               In c (rows w) /\ deletedAt c = None /\ id c = p) /\
    NoDup secs /\
    (forall c s, In c (rows w) -> deletedAt c = None -> id c = p ->
       email c = Some s -> s <> EmptyString ->
       exists rest, emails resp = s :: rest) /\
    (forall c s, In c (rows w) -> deletedAt c = None -> id c = p ->
       phoneNumber c = Some s -> s <> EmptyString ->
       exists rest, phoneNumbers resp = s :: rest).
Proof.
  intros Hkey group prim secs.
  assert (Hgroup : NoDup (map id group)).
  { unfold group, group_of.
    eapply Permutation_NoDup.
    - apply Permutation_sym, Permutation_map, order_by_perm.
    - now apply NoDup_map_filter. }
  pose proof (the_primary_unique p group Hgroup) as Hprim.
  assert (Hpm : forall c, In c prim <->
                          In c (rows w) /\ deletedAt c = None /\ id c = p).
  { intros c. unfold prim, the_primary, group.
    rewrite filter_In, group_member, Z.eqb_eq. tauto. }
  assert (Hsm : forall c, In c secs <->
                          In c (rows w) /\ active c = true /\
                          linkedId c = Some p /\ id c <> p).
  { intros c. unfold secs, group.
    now rewrite the_secondaries_member, active_true. }
  assert (Hhead : forall c, In c (rows w) -> deletedAt c = None -> id c = p ->
                            prim = [c]).
  { intros c H1 H2 H3.
    assert (Hc : In c prim) by (apply Hpm; auto).
    destruct Hprim as [H0|(c' & H0)]; fold prim in H0; rewrite H0 in Hc |- *.
    - destruct Hc.
    - destruct Hc as [->|[]]. reflexivity. }
  exists (project p (rows w)).
  unfold result. rewrite consolidate_contacts_eq. cbn [fst].
  unfold project. fold group. rewrite (view_eq p group Hprim).
  cbn [fst snd primaryContatctId emails phoneNumbers secondaryContactIds].
  fold prim secs.
  split; [reflexivity|]. split; [reflexivity|]. split; [reflexivity|].
  split; [reflexivity|]. split; [reflexivity|].
  split; [apply first_occurrences_NoDup|].
  split; [apply first_occurrences_NoDup|].
  split.
  { destruct Hprim as [H|(c & H)]; fold prim in H; rewrite H; simpl; lia. }
  split; [apply StronglySorted_filter, order_by_sorted|].
  split; [exact Hsm|]. split; [exact Hpm|].
  split.
  { apply (NoDup_map_inv id). unfold secs, the_secondaries.
    now apply NoDup_map_filter. }
  split.
  - intros c s H1 H2 H3 He Hne. rewrite (Hhead c H1 H2 H3). cbn [app map].
    rewrite (first_occurrences_head _ s _ He Hne). eexists. reflexivity.
  - intros c s H1 H2 H3 He Hne. rewrite (Hhead c H1 H2 H3). cbn [app map].
    rewrite (first_occurrences_head _ s _ He Hne). eexists. reflexivity.
Qed.

(** The statement above for the root 1 of [Scenario.four]. *)
Lemma consolidated_view_witness :
  let p := 1 in
  let w := Scenario.four in
  let group := group_of (Some p) (rows w) in
  let prim := the_primary p group in
  let secs := the_secondaries p group in
  exists resp,
    result (consolidate_contacts (Some p)) w = inr resp /\
    primaryContatctId resp = p /\
    emails resp =
      first_occurrences (present_values (map email (prim ++ secs))) /\
    phoneNumbers resp =
      first_occurrences (present_values (map phoneNumber (prim ++ secs))) /\
    secondaryContactIds resp = map id secs /\
    NoDup (emails resp) /\ NoDup (phoneNumbers resp) /\
    (List.length prim <= 1)%nat /\
    StronglySorted (key_le createdAt) secs /\
    (forall c, In c secs <->
               In c (rows w) /\ active c = true /\
               linkedId c = Some p /\ id c <> p) /\
    (forall c, In c prim <->
               In c (rows w) /\ deletedAt c = None /\ id c = p) /\
    NoDup secs /\
    (forall c s, In c (rows w) -> deletedAt c = None -> id c = p ->
       email c = Some s -> s <> EmptyString ->
       exists rest, emails resp = s :: rest) /\
    (forall c s, In c (rows w) -> deletedAt c = None -> id c = p ->
       phoneNumber c = Some s -> s <> EmptyString ->
       exists rest, phoneNumbers resp = s :: rest).
Proof.
  refine (consolidated_view 1 Scenario.four _).
  simpl. repeat constructor; simpl; intuition lia.
Defined.

(** ** New information for a group *)

Lemma in_group_member (P : option Z) (table : list Contact) (c : Contact) :
  In c (group_of P table) <-> in_group P table c.
Proof.
  unfold group_of, in_group.
  now rewrite order_by_In, filter_In, linked_to_true.
Qed.

(** What the check computes from the result of the group query is a
    property of the rows of the table. *)
Lemma new_information_table (e p : option string) (P : option Z)
    (table : list Contact) :
  new_information e p (group_of P table) <-> new_for_group e p P table.
Proof.
  unfold new_information, new_for_group.
  assert (H : forall (col : Contact -> option string) v,
             ~ In v (map col (group_of P table)) <->
             forall c, in_group P table c -> col c <> v).
  { intros col v. split.
    - intros Hn c Hc Heq. apply Hn. apply in_map_iff. exists c.
      split; [exact Heq | now apply in_group_member].
    - intros Hn Hin. apply in_map_iff in Hin as (c & Heq & Hc).
      apply (Hn c); [now apply in_group_member | exact Heq]. }
  now rewrite !H.
Qed.

Section NewForGroup.

Context `{RT : Runtime}.

(** C3.  An [identify] call that comes to the new-information check with
    the resolved primary [P], in the world [w1] the merge has left, inserts
    a row exactly when the request brings new information for the group of
    [P]: its email is truthy and is the email of no row of [w1] that is not
    soft-deleted and has the id [P] or the [linkedId] [P], or its phone
    number is truthy and is the phone number of no such row.  The inserted
    row is a secondary with the email and phone number of the request and
    [linkedId] [P], under an unused rowid; without new information the rows
    stay as they are. *)
Theorem new_information_creates_secondary (e p : option string) (w : World)
    (P : option Z) (w1 : World) :
  valid_request e p = true ->
  (0 < List.length (select_matches e p (rows w)))%nat ->
  find (is_exact e p) (select_matches e p (rows w)) = None ->
  resolve_primary (select_matches e p (rows w))
                  (logged w [SelectByEmailOrPhone e p]) = (inr P, w1) ->
  let w' := exec (identify e p) w in
  (new_for_group e p P (rows w1) ->
   exists c, rows w' = rows w1 ++ [c] /\
             linkPrecedence c = secondary /\ email c = e /\
             phoneNumber c = p /\ linkedId c = P /\
             ~ In (id c) (map id (rows w1))) /\
  (~ new_for_group e p P (rows w1) -> rows w' = rows w1) /\
  (new_for_group e p P (rows w1) <-> rows w' <> rows w1).
Proof.
  intros Hvalid Hlen Hnone Hres w'.
  set (group := group_of P (rows w1)).
  assert (Hw' : rows w' =
                if has_new_info e p group
                then rows w1 ++ [new_row e p P secondary w1] else rows w1).
  { subst w'. unfold exec. rewrite (identify_valid _ _ _ Hvalid).
    destruct (select_matches e p (rows w)) as [|x l] eqn:Ex;
      [simpl in Hlen; lia|].
    rewrite Hnone. unfold bind at 1. rewrite Hres.
    unfold bind. rewrite add_new_information_eq. fold group.
    destruct (has_new_info e p group); cbv beta iota zeta;
      match goal with
      | |- rows (snd (consolidate_contacts ?Q ?v)) = _ =>
          exact (proj1 (consolidate_contacts_rows Q v))
      end. }
  assert (Hspec : has_new_info e p group = true <->
                  new_for_group e p P (rows w1)).
  { unfold group. now rewrite has_new_info_spec, new_information_table. }
  destruct (has_new_info e p group).
  - assert (Hnew : new_for_group e p P (rows w1)) by now apply Hspec.
    split; [|split; [|split]].
    + intros _. exists (new_row e p P secondary w1).
      repeat split; try exact Hw'.
      intros Hin. apply in_map_iff in Hin as (c' & Heq & Hin).
      pose proof (max_rowid_ge _ _ Hin). unfold new_row in Heq. simpl in Heq.
      lia.
    + intros Hno. contradiction.
    + intros _. rewrite Hw'. apply app_single_neq.
    + intros _. exact Hnew.
  - assert (Hold : ~ new_for_group e p P (rows w1)).
    { intros H. apply Hspec in H. discriminate. }
    split; [|split; [|split]].
    + intros H. contradiction.
    + intros _. exact Hw'.
    + intros H. contradiction.
    + intros H. congruence.
Qed.

End NewForGroup.

(** The statement above on the store with one contact, for a request with
    its email and another phone number. *)
Lemma new_information_creates_secondary_witness :
  let e := Some "a@x.com" in
  let p := Some "222" in
  let w := Scenario.one in
  let P := Some 1 in
  let w1 :=
    exec (resolve_primary (RT := insertion_runtime)
                          (select_matches e p (rows w)))
         (logged w [SelectByEmailOrPhone e p]) in
  let w' := exec (identify (RT := insertion_runtime) e p) w in
  (new_for_group e p P (rows w1) ->
   exists c, rows w' = rows w1 ++ [c] /\
             linkPrecedence c = secondary /\ email c = e /\
             phoneNumber c = p /\ linkedId c = P /\
             ~ In (id c) (map id (rows w1))) /\
  (~ new_for_group e p P (rows w1) -> rows w' = rows w1) /\
  (new_for_group e p P (rows w1) <-> rows w' <> rows w1).
Proof.
  refine (new_information_creates_secondary (RT := insertion_runtime)
            (Some "a@x.com") (Some "222") Scenario.one (Some 1) _
            eq_refl _ eq_refl eq_refl).
  vm_compute. lia.
Defined.

(** ** The response after a creation *)

(** No row is in the group of an id that is larger than every rowid and is
    the [linkedId] of no row that is not soft-deleted. *)
Lemma group_of_unused (table : list Contact) (n : Z) :
  max_rowid table < n ->
  (forall x, In x table -> deletedAt x = None -> linkedId x <> Some n) ->
  filter (linked_to (Some n)) table = [].
Proof.
  intros Hn Hlink.
  assert (H : forall c, In c table -> linked_to (Some n) c = false).
  { intros c Hin. destruct (linked_to (Some n) c) eqn:E; [|reflexivity].
    exfalso. apply linked_to_true in E as (Hd & q & Hq & [Hid|Hl]);
      injection Hq as <-.
    - pose proof (max_rowid_ge _ _ Hin). lia.
    - exact (Hlink c Hin Hd Hl). }
  induction table as [|c table IH] in H |- *; simpl; [reflexivity|].
  rewrite (H c) by now left. apply IH. intros c' Hc'. apply H. now right.
Qed.

Section Created.

Context `{RT : Runtime}.

(** C5, as the code has it.  When the match query finds nothing,
    [identify] inserts exactly one row: a primary with the email and phone
    number of the request, no [linkedId] and a rowid not used before.  The
    response is the view of the group of that rowid in the store with the
    new row: its id, and as secondary ids the ids of the rows that are not
    soft-deleted and had that rowid as [linkedId] before the call.  The
    response is the new row alone (its id, its email and its phone number as
    the only entries, none for a value that is absent, and no secondary id)
    exactly when no such row exists, as in every table where each
    [linkedId] is the id of a row. *)
Theorem no_match_creates_primary (e p : option string) (w : World) :
  valid_request e p = true ->
  select_matches e p (rows w) = [] ->
  let c := new_row e p None primary w in
  let w' := exec (identify e p) w in
  rows w' = rows w ++ [c] /\
  writes w' = writes w ++ [Insert (id c)] /\
  ~ In (id c) (map id (rows w)) /\
  email c = e /\ phoneNumber c = p /\
  linkedId c = None /\ linkPrecedence c = primary /\
  (exists resp,
     result (identify e p) w = inr resp /\
     primaryContatctId resp = id c /\
     (forall i, In i (secondaryContactIds resp) <->
        exists x, In x (rows w) /\ deletedAt x = None /\
                  linkedId x = Some (id c) /\ id x = i)) /\
  (result (identify e p) w =
     inr (mkResponse (id c) (present_list e) (present_list p) []) <->
   forall x, In x (rows w) -> deletedAt x = None ->
             linkedId x <> Some (id c)) /\
  (foreign_key_ok (rows w) = true ->
   forall x, In x (rows w) -> linkedId x <> Some (id c)).
Proof.
  intros Hvalid Hnone c w'.
  assert (Hrun : identify e p w =
                 (inr (project (id c) (rows w ++ [c])),
                  logged (mkWorld (rows w ++ [c]) (id c)
                                  (trace w ++ [SelectByEmailOrPhone e p]
                                           ++ [Insert (id c)])
                                  (S (ticks w)))
                         [SelectLinked (Some (id c))])).
  { rewrite (identify_valid _ _ _ Hvalid), Hnone.
    unfold bind. rewrite create_contact_eq.
    change (new_row e p None primary (logged w [SelectByEmailOrPhone e p]))
      with c.
    rewrite consolidate_contacts_eq. cbn [rows logged trace seq ticks].
    rewrite <- app_assoc. reflexivity. }
  assert (Hfresh : forall x, In x (rows w) -> id x <> id c).
  { intros x Hx. pose proof (max_rowid_ge _ _ Hx).
    unfold c, new_row. cbn [id]. lia. }
  assert (Hsec : forall i,
             In i (secondaryContactIds (project (id c) (rows w ++ [c]))) <->
             exists x, In x (rows w) /\ deletedAt x = None /\
                       linkedId x = Some (id c) /\ id x = i).
  { intros i. unfold project.
    destruct (view_shape (id c) (group_of (Some (id c)) (rows w ++ [c])))
      as (prim & _ & ->).
    cbn [snd secondaryContactIds]. rewrite in_map_iff. split.
    - intros (x & Hid & Hx). apply the_secondaries_member in Hx.
      destruct Hx as (Hin & Hd & Hl & Hne). exists x.
      apply in_app_or in Hin as [Hin|[<-|[]]]; [auto|].
      discriminate.
    - intros (x & Hin & Hd & Hl & Hid). exists x. split; [exact Hid|].
      apply the_secondaries_member. repeat split; auto.
      apply in_or_app. now left. }
  assert (Honly : (forall x, In x (rows w) -> deletedAt x = None ->
                             linkedId x <> Some (id c)) ->
                  project (id c) (rows w ++ [c]) =
                  mkResponse (id c) (present_list e) (present_list p) []).
  { intros Hlink. unfold project, group_of. rewrite filter_app.
    rewrite group_of_unused by (auto; unfold c, new_row; simpl; lia).
    assert (Hc : linked_to (Some (id c)) c = true).
    { unfold linked_to. simpl. now rewrite Z.eqb_refl. }
    cbn [filter app]. rewrite Hc. rewrite order_by_single.
    unfold view, split_primary. cbn [fold_left opt_Z_eqb].
    rewrite Z.eqb_refl. cbn [fst snd fold_left map collect_info].
    now rewrite !append_new_nil. }
  subst w'. unfold exec, result. rewrite Hrun. cbn [fst snd rows logged].
  split; [reflexivity|]. split.
  { unfold writes, logged. cbn [trace]. rewrite !filter_app. simpl.
    now rewrite app_nil_r. }
  split.
  { intros Hin. apply in_map_iff in Hin as (x & Heq & Hin).
    now apply (Hfresh x Hin). }
  split; [reflexivity|]. split; [reflexivity|].
  split; [reflexivity|]. split; [reflexivity|].
  split.
  { exists (project (id c) (rows w ++ [c])).
    split; [reflexivity|]. split; [reflexivity | exact Hsec]. }
  split.
  - split.
    + intros Heq x Hin Hd Hl.
      assert (Hp : project (id c) (rows w ++ [c]) =
                   mkResponse (id c) (present_list e) (present_list p) [])
        by congruence.
      assert (Hi : In (id x) (secondaryContactIds
                                (project (id c) (rows w ++ [c])))).
      { apply Hsec. exists x. auto. }
      rewrite Hp in Hi. destruct Hi.
    + intros Hlink. now rewrite Honly.
  - intros Hfk x Hin Hl.
    pose proof (foreign_key_link _ _ _ Hfk Hin Hl) as Hle.
    unfold c, new_row in Hle. cbn [id] in Hle. lia.
Qed.

End Created.

(** The statement above on [Dangling.world], a store whose only row is
    linked to the id 99 of no row, for a request that matches nothing. *)
Lemma no_match_creates_primary_witness :
  let w := Dangling.world in
  let e := Some "c@z.com" in
  let p := Some "555" in
  let c := new_row (RT := insertion_runtime) e p None primary w in
  let w' := exec (identify (RT := insertion_runtime) e p) w in
  rows w' = rows w ++ [c] /\
  writes w' = writes w ++ [Insert (id c)] /\
  ~ In (id c) (map id (rows w)) /\
  email c = e /\ phoneNumber c = p /\
  linkedId c = None /\ linkPrecedence c = primary /\
  (exists resp,
     result (identify (RT := insertion_runtime) e p) w = inr resp /\
     primaryContatctId resp = id c /\
     (forall i, In i (secondaryContactIds resp) <->
        exists x, In x (rows w) /\ deletedAt x = None /\
                  linkedId x = Some (id c) /\ id x = i)) /\
  (result (identify (RT := insertion_runtime) e p) w =
     inr (mkResponse (id c) (present_list e) (present_list p) []) <->
   forall x, In x (rows w) -> deletedAt x = None ->
             linkedId x <> Some (id c)) /\
  (foreign_key_ok (rows w) = true ->
   forall x, In x (rows w) -> linkedId x <> Some (id c)).
Proof.
  exact (no_match_creates_primary (RT := insertion_runtime)
           (Some "c@z.com") (Some "555") Dangling.world eq_refl eq_refl).
Defined.

(** C5 as stated fails on [Forward.world]: the match query finds nothing
    for the request, one primary is inserted under the rowid 2, and the
    response holds, besides the new row, the row 1 that was linked to 2
    before the call: its email, its phone number and its id as a secondary
    id. *)
Lemma forward_link_counterexample :
  let e := Some "a@x.com" in
  let p := Some "111" in
  let w := Forward.world in
  let w' := exec (identify (RT := insertion_runtime) e p) w in
  valid_request e p = true /\
  select_matches e p (rows w) = [] /\
  rows w' =
    [Forward.early;
     mkContact 2 (Some "111") (Some "a@x.com") None primary 1000 1000 None] /\
  result (identify (RT := insertion_runtime) e p) w =
    inr (mkResponse 2 ["a@x.com"; "z@z.com"] ["111"; "999"] [1]) /\
  result (identify (RT := insertion_runtime) e p) w <>
    inr (mkResponse 2 ["a@x.com"] ["111"] []).
Proof. vm_compute. repeat split. discriminate. Qed.

(** ** Links that name no row, or no primary *)

Lemma opt_Z_eqb_eq (a b : option Z) : opt_Z_eqb a b = true <-> a = b.
Proof.
  destruct a as [x|], b as [y|]; simpl; split; intros H;
    try discriminate; try reflexivity.
  - apply Z.eqb_eq in H. now subst.
  - injection H as ->. apply Z.eqb_refl.
Qed.

Lemma set_add_NoDup (x : option Z) (s : list (option Z)) :
  NoDup s -> NoDup (set_add x s).
Proof.
  intros H. unfold set_add.
  destruct (existsb (opt_Z_eqb x) s) eqn:E; [exact H|].
  apply NoDup_rev in H. rewrite <- (rev_involutive (s ++ [x])).
  apply NoDup_rev. rewrite rev_app_distr. cbn [rev app].
  constructor; [|exact H].
  intros Hin. apply in_rev in Hin.
  assert (Hex : existsb (opt_Z_eqb x) s = true).
  { apply existsb_exists. exists x. split; [exact Hin|].
    now apply opt_Z_eqb_eq. }
  congruence.
Qed.

(** [primary_ids] is a set: no root id is held twice. *)
Lemma roots_NoDup (existing : list Contact) : NoDup (roots existing).
Proof.
  unfold roots.
  assert (H : forall s, NoDup s ->
             NoDup (fold_left (fun s c => set_add (root_of c) s) existing s)).
  { induction existing as [|x l IH]; intros s Hs; simpl; [exact Hs|].
    apply IH. now apply set_add_NoDup. }
  apply H. constructor.
Qed.

(** The root ids of a request, read off the table. *)
Lemma roots_table (e p : option string) (table : list Contact)
    (r : option Z) :
  In r (roots (select_matches e p table)) <-> root_of_match e p table r.
Proof.
  rewrite roots_In. unfold root_of_match, select_matches. split.
  - intros (c & Hc & Hr).
    rewrite order_by_In, filter_In, matches_email_or_phone_true in Hc.
    destruct Hc as (Hin & Hd & Hm). exists c. repeat split; auto.
    unfold root_of in Hr. destruct (linkPrecedence c); [left|right]; auto.
  - intros (c & Hin & Hd & Hm & Hr). exists c. split.
    + rewrite order_by_In, filter_In, matches_email_or_phone_true. auto.
    + unfold root_of.
      destruct Hr as [[-> ->]|[-> ->]]; reflexivity.
Qed.

Lemma lookup_None_iff (r : option Z) (table : list Contact) :
  lookup r table = None <-> forall c, In c table -> Some (id c) <> r.
Proof.
  unfold lookup. split.
  - intros H c Hin Heq. pose proof (find_none _ _ H c Hin) as Hf.
    cbv beta in Hf. rewrite <- Heq in Hf. cbn [sql_eq_int] in Hf.
    now rewrite Z.eqb_refl in Hf.
  - intros H.
    destruct (find (fun c => sql_eq_int (Some (id c)) r) table) as [c|] eqn:E;
      [|reflexivity].
    exfalso. destruct (lookup_Some _ _ _ E) as [Hr Hin].
    now apply (H c Hin).
Qed.

Lemma roots_exist_table (rs : list (option Z)) (table : list Contact) :
  roots_exist rs table = false <->
  exists r, In r rs /\ forall c, In c table -> Some (id c) <> r.
Proof.
  split.
  - intros H. destruct (roots_exist_false _ _ H) as (r & Hr & Hn).
    exists r. split; [exact Hr | now apply lookup_None_iff].
  - intros (r & Hr & Hn). apply lookup_None_iff in Hn.
    destruct (roots_exist rs table) eqn:E; [|reflexivity].
    unfold roots_exist in E. rewrite forallb_forall in E.
    specialize (E r Hr). now rewrite Hn in E.
Qed.

Lemma group_of_None (table : list Contact) : group_of None table = [].
Proof.
  unfold group_of.
  assert (H : filter (linked_to None) table = []).
  { induction table as [|c t IH]; simpl; [reflexivity|].
    unfold linked_to at 1. destruct (linkedId c); simpl;
      rewrite andb_false_r; exact IH. }
  now rewrite H.
Qed.

Lemma has_new_info_nil (e p : option string) :
  has_new_info e p [] = valid_request e p.
Proof.
  unfold has_new_info, valid_request. simpl. now rewrite !andb_true_r.
Qed.

Section TrustedLinks.

Context `{RT : Runtime}.

(** C9, as the code has it.  The engine never looks at the row a
    [linkedId] names before it uses the id as a root: the root ids of a
    request are the ids of its matched primaries and the [linkedId] of its
    matched secondaries, each once.  Under a runtime that enumerates each
    element of a set once, a call that passes the boundary check and has
    matches, none of them exact, fails in two situations and no other.  It
    raises [TypeError], before any write, exactly when there is more than
    one root id and one of them is the id of no row.  It raises the
    validation error of the response model exactly when the single root id
    is NULL, and then after the insertion of a secondary without
    [linkedId] for the request.  With the single root id [r] it returns a
    response for [r], whether or not [r] is the id of a row and whatever the
    precedence of that row; with several root ids that are all ids of rows
    it returns a response for one of them. *)
Theorem identify_trusts_links (e p : option string) (w : World) :
  enumerates_each_once RT ->
  valid_request e p = true ->
  find (is_exact e p) (select_matches e p (rows w)) = None ->
  (0 < List.length (select_matches e p (rows w)))%nat ->
  let rs := roots (select_matches e p (rows w)) in
  let w' := exec (identify e p) w in
  ((1 < List.length rs)%nat -> roots_exist rs (rows w) = false ->
   result (identify e p) w = inl TypeError /\
   rows w' = rows w /\ seq w' = seq w /\ writes w' = writes w) /\
  (forall r, rs = [Some r] ->
   exists resp, result (identify e p) w = inr resp /\
                primaryContatctId resp = r) /\
  NoDup rs /\
  (forall r, In r rs <-> root_of_match e p (rows w) r) /\
  (roots_exist rs (rows w) = false <->
   exists r, In r rs /\ forall c, In c (rows w) -> Some (id c) <> r) /\
  (result (identify e p) w = inl TypeError <->
   (1 < List.length rs)%nat /\ roots_exist rs (rows w) = false) /\
  (result (identify e p) w = inl ValidationError <-> rs = [None]) /\
  (rs = [None] ->
   let c := new_row e p None secondary w in
   rows w' = rows w ++ [c] /\ writes w' = writes w ++ [Insert (id c)]) /\
  (forall err, result (identify e p) w = inl err ->
               err = TypeError \/ err = ValidationError) /\
  ((1 < List.length rs)%nat -> roots_exist rs (rows w) = true ->
   exists resp, result (identify e p) w = inr resp /\
                In (Some (primaryContatctId resp)) rs).
Proof.
  intros Hlaw Hvalid Hnone Hlen rs w'.
  assert (Htab : forall r, In r rs <-> root_of_match e p (rows w) r).
  { intros r. apply roots_table. }
  assert (Hne : select_matches e p (rows w) <> []).
  { intros H. rewrite H in Hlen. simpl in Hlen. lia. }
  pose proof (identify_partial e p w Hvalid Hne Hnone) as Hrun.
  unfold bind at 1 in Hrun.
  set (c := new_row e p None secondary w).
  assert (Hcases :
    ((1 < List.length rs)%nat /\ roots_exist rs (rows w) = true /\
     exists resp, result (identify e p) w = inr resp /\
                  In (Some (primaryContatctId resp)) rs) \/
    ((1 < List.length rs)%nat /\ roots_exist rs (rows w) = false /\
     result (identify e p) w = inl TypeError /\
     rows w' = rows w /\ seq w' = seq w /\ writes w' = writes w) \/
    (exists r, rs = [Some r] /\
     exists resp, result (identify e p) w = inr resp /\
                  primaryContatctId resp = r) \/
    (rs = [None] /\ result (identify e p) w = inl ValidationError /\
     rows w' = rows w ++ [c] /\ writes w' = writes w ++ [Insert (id c)])).
  { subst w'. unfold result, exec. clear Htab.
    destruct (select_matches e p (rows w)) as [|x l] eqn:Ex; [congruence|].
    set (w0 := logged w [SelectByEmailOrPhone e p]) in *.
    destruct (resolve_primary_cases (x :: l) w0)
      as [(Hmany & m & f & w1 & Hres & Hin & _ & Hex & _)
         |[(Hmany & Hex & lg & Hres & Hreads)
         |[(Hmany & Hnil & _)
         |[(Hfew & P & t & HP & Hres)
         |(Hfew & Hnil & _)]]]]; fold rs in Hmany || fold rs in Hfew.
    - left. rewrite Hres in Hrun. cbv beta iota in Hrun. rewrite Hrun.
      rewrite (roots_exist_perm _ _ _ (Hlaw _)) in Hex.
      split; [exact Hmany|]. split; [exact Hex|].
      destruct (finish_cases e p (Some (id m)) w1) as (_ & _ & _ & Hfst).
      cbv zeta in Hfst. eexists. split; [exact Hfst|].
      cbn [project primaryContatctId].
      apply (Permutation_in _ (Hlaw _)), Hin.
    - right. left. rewrite Hres in Hrun. cbv beta iota in Hrun. rewrite Hrun.
      rewrite (roots_exist_perm _ _ _ (Hlaw _)) in Hex.
      cbn [fst snd]. repeat split; auto.
      unfold w0. rewrite logged_logged. apply writes_logged.
      rewrite forallb_app. apply andb_true_iff. split; [reflexivity|].
      exact Hreads.
    - exfalso. now apply (many_roots_enumerated Hlaw _ Hmany).
    - destruct (single_root Hlaw rs Hfew (roots_nonempty x l))
        as (r & Hr & Hiter).
      fold rs in HP. rewrite Hiter in HP. injection HP as <- <-.
      rewrite Hres in Hrun. cbv beta iota in Hrun. rewrite Hrun.
      set (w1 := logged w0 _).
      destruct r as [q|].
      + right. right. left. exists q. split; [exact Hr|].
        destruct (finish_cases e p (Some q) w1) as (_ & _ & _ & Hfst).
        cbv zeta in Hfst. eexists. split; [exact Hfst | reflexivity].
      + right. right. right. split; [exact Hr|].
        unfold bind. rewrite add_new_information_eq.
        rewrite group_of_None, has_new_info_nil, Hvalid. cbv beta iota zeta.
        rewrite consolidate_contacts_None. cbn [fst snd rows logged].
        split; [reflexivity|]. split; [reflexivity|].
        unfold writes, w1, w0, logged. cbn [trace rows seq ticks].
        rewrite !filter_app.
        assert (Hr0 : filter is_write
                        (map (fun c => SelectLinked (root_of c)) (x :: l))
                      = []).
        { generalize (x :: l). intros l0.
          induction l0 as [|y l0 IH]; simpl; [reflexivity | exact IH]. }
        rewrite Hr0. cbn [filter is_write app]. rewrite !app_nil_r.
        reflexivity.
    - exfalso. destruct (single_root Hlaw rs Hfew (roots_nonempty x l))
        as (r & _ & Hiter). fold rs in Hnil. congruence. }
  assert (Hone : forall r, rs = [r] -> ~ (1 < List.length rs)%nat).
  { intros r Hr. rewrite Hr. simpl. lia. }
  split.
  { intros Hmany Hmiss.
    destruct Hcases as [(_ & Hex & _)|[(_ & _ & H)|[(r & Hr & _)|(Hr & _)]]];
      [congruence | exact H | |]; exfalso; exact (Hone _ Hr Hmany). }
  split.
  { intros r Hr.
    destruct Hcases as [(Hmany & _)|[(Hmany & _)|[(q & Hq & H)|(Hq & _)]]];
      try (exfalso; exact (Hone _ Hr Hmany)); [|congruence].
    assert (q = r) by congruence. subst q. exact H. }
  split; [apply roots_NoDup|]. split; [exact Htab|].
  split; [apply roots_exist_table|].
  split.
  { split.
    - intros Hres.
      destruct Hcases
        as [(_ & _ & resp & H & _)|[(Hmany & Hex & _)
           |[(r & _ & resp & H & _)|(_ & H & _)]]];
        try congruence. split; assumption.
    - intros [Hmany Hmiss].
      destruct Hcases as [(_ & Hex & _)|[(_ & _ & H & _)|[(r & Hr & _)|(Hr & _)]]];
        [congruence | exact H | |]; exfalso; exact (Hone _ Hr Hmany). }
  split.
  { split.
    - intros Hres.
      destruct Hcases
        as [(_ & _ & resp & H & _)|[(_ & _ & H & _)
           |[(r & _ & resp & H & _)|(Hr & _)]]];
        try congruence.
    - intros Hr.
      destruct Hcases as [(Hmany & _)|[(Hmany & _)|[(q & Hq & _)|(_ & H & _)]]];
        try (exfalso; exact (Hone _ Hr Hmany)); [congruence | exact H]. }
  split.
  { intros Hr. cbv zeta. fold c.
    destruct Hcases as [(Hmany & _)|[(Hmany & _)|[(q & Hq & _)|(_ & _ & H)]]];
      try (exfalso; exact (Hone _ Hr Hmany)); [congruence | exact H]. }
  split.
  { intros err Hres.
    destruct Hcases
      as [(_ & _ & resp & H & _)|[(_ & _ & H & _)
         |[(r & _ & resp & H & _)|(_ & H & _)]]];
      rewrite H in Hres; try discriminate; injection Hres as <-; auto. }
  intros Hmany Hex.
  destruct Hcases as [(_ & _ & H)|[(_ & Hmiss & _)|[(r & Hr & _)|(Hr & _)]]];
    [exact H | congruence | |]; exfalso; exact (Hone _ Hr Hmany).
Qed.

End TrustedLinks.

(** The statement above on [Unlinked.world], for a request that matches
    the secondary without [linkedId]: the single root id is NULL. *)
Lemma identify_trusts_links_witness :
  let e := Some "a@x.com" in
  let p := Some "222" in
  let w := Unlinked.world in
  let rs := roots (select_matches e p (rows w)) in
  let w' := exec (identify (RT := insertion_runtime) e p) w in
  ((1 < List.length rs)%nat -> roots_exist rs (rows w) = false ->
   result (identify (RT := insertion_runtime) e p) w = inl TypeError /\
   rows w' = rows w /\ seq w' = seq w /\ writes w' = writes w) /\
  (forall r, rs = [Some r] ->
   exists resp,
     result (identify (RT := insertion_runtime) e p) w = inr resp /\
     primaryContatctId resp = r) /\
  NoDup rs /\
  (forall r, In r rs <-> root_of_match e p (rows w) r) /\
  (roots_exist rs (rows w) = false <->
   exists r, In r rs /\ forall c, In c (rows w) -> Some (id c) <> r) /\
  (result (identify (RT := insertion_runtime) e p) w = inl TypeError <->
   (1 < List.length rs)%nat /\ roots_exist rs (rows w) = false) /\
  (result (identify (RT := insertion_runtime) e p) w = inl ValidationError <->
   rs = [None]) /\
  (rs = [None] ->
   let c := new_row (RT := insertion_runtime) e p None secondary w in
   rows w' = rows w ++ [c] /\ writes w' = writes w ++ [Insert (id c)]) /\
  (forall err,
     result (identify (RT := insertion_runtime) e p) w = inl err ->
     err = TypeError \/ err = ValidationError) /\
  ((1 < List.length rs)%nat -> roots_exist rs (rows w) = true ->
   exists resp,
     result (identify (RT := insertion_runtime) e p) w = inr resp /\
     In (Some (primaryContatctId resp)) rs).
Proof.
  refine (identify_trusts_links (RT := insertion_runtime)
            (Some "a@x.com") (Some "222") Unlinked.world
            (fun l => Permutation_refl l) eq_refl eq_refl _).
  vm_compute. lia.
Defined.
